(** * VMATree: the interval tree behind native memory tracking

  A shallow embedding of [src/hotspot/share/nmt/vmatree.hpp] and of the
  operation it declares, followed by the properties established for it.
  After it come the cgroup probe of
  [src/hotspot/os/linux/cgroupSubsystem_linux.cpp] and the index
  arithmetic of [src/hotspot/share/gc/parallel/parMarkBitMap.inline.hpp].

  Integers of the C++ code are values of [Z]; narrowing conversions and
  unsigned wrap-around are written out.  The tree is a finite map from
  positions to interval changes. *)

From Stdlib Require Import ZArith Lia Bool Ascii String.
From stdpp Require Import base decidable option list sorting fin_maps gmap
  strings.

Local Open Scope Z_scope.

(** ** Scalar types *)

(** [using position = size_t]: an unsigned machine integer. *)
Abbreviation position := Z.

(** [uint8_t], and the conversion [static_cast<uint8_t>(v)] of an integer
  value, which keeps the low eight bits. *)
Definition uint8_t := Z.
Definition static_cast_uint8_t (v : Z) : uint8_t := v mod 256.

(** [int64_t], the type of the counters of a [SingleDiff]. *)
Definition int64_t := Z.

(** Modelled from the spec: [MEMFLAGS], the category of an attribution, "one
  of a small fixed set of subsystem tags".  Its declaration is not among
  the sources; a category is represented by the integer value of its
  enumerator, which is what the casts of [IntervalState] and the index of
  [SummaryDiff::flag] operate on. *)
Definition MEMFLAGS := Z.

(** Modelled from the spec: [NativeCallStackStorage::StackIndex]
  (nmt/nmtNativeCallStackStorage.hpp is not among the sources), the
  "small stable integer handle" of an interned call stack: copyable and
  equality-comparable, otherwise opaque. *)
Module StackIndex.
Record t : Type := mk { handle : Z }.

Definition equals (a b : t) : bool := handle a =? handle b.
End StackIndex.

(** The remaining declarations vmatree.hpp uses from headers that are not
  among the sources, taken as parameters: the width of [size_t], the
  category [mtNone], the number of categories [mt_number_of_types] and the
  value of a default-constructed [StackIndex]. *)
Class Globals : Type := {
  size_t_bits : Z;
  mtNone : MEMFLAGS;
  mt_number_of_types : Z;
  StackIndex_default : StackIndex.t
}.

(** Arithmetic on [size_t] wraps around modulo [2 ^ size_t_bits]. *)
Definition size_t_add `{Globals} (a b : position) : position :=
  (a + b) mod 2 ^ size_t_bits.

(** ** AddressComparator *)

(** The result of a function whose last statement is [ShouldNotReachHere()]:
  either it returned a value, or control fell through to that statement. *)
Inductive outcome (A : Type) : Type :=
| Returned (a : A)
| ShouldNotReachHere.
Arguments Returned {A} a.
Arguments ShouldNotReachHere {A}.

Module AddressComparator.
Definition cmp (a b : position) : outcome Z :=
  if a <? b then Returned (-1)
  else if a =? b then Returned 0
  else if a >? b then Returned 1
  else ShouldNotReachHere.
End AddressComparator.

(** ** StateType *)

(** [enum class StateType : uint8_t { Reserved, Committed, Released }]: a
  scoped enumeration with a fixed underlying type.  Its values are those of
  [uint8_t]; three of them are named. *)
Module StateType.
Definition t := uint8_t.

Definition Reserved : t := 0.
Definition Committed : t := 1.
Definition Released : t := 2.
End StateType.

(** ** Metadata *)

Module Metadata.
Record t : Type := mk {
  stack_idx : StackIndex.t;
  flag : MEMFLAGS
}.

(** [Metadata() : stack_idx(), flag(mtNone) {}] *)
Definition default `{Globals} : t := mk StackIndex_default mtNone.

Definition equals (a b : t) : bool :=
  (flag a =? flag b) && StackIndex.equals (stack_idx a) (stack_idx b).
End Metadata.

(** ** IntervalState *)

Module IntervalState.
(** The type and the flag are stored as two bytes, [type_flag[0]] and
    [type_flag[1]]. *)
Record t : Type := mk {
  type_flag : uint8_t * uint8_t;
  sidx : StackIndex.t
}.

(** [IntervalState() : type_flag{0,0}, sidx() {}] *)
Definition default `{Globals} : t := mk (0, 0) StackIndex_default.

(** [IntervalState(StateType type, Metadata data)] *)
Definition make (type : StateType.t) (data : Metadata.t) : t :=
  mk (static_cast_uint8_t type, static_cast_uint8_t (Metadata.flag data))
     (Metadata.stack_idx data).

Definition type (s : t) : StateType.t := fst (type_flag s).

Definition flag (s : t) : MEMFLAGS := snd (type_flag s).

Definition metadata (s : t) : Metadata.t := Metadata.mk (sidx s) (flag s).

Definition stack (s : t) : StackIndex.t := sidx s.
End IntervalState.

(** ** IntervalChange *)

Module IntervalChange.
(** [in] is a keyword; the incoming state is the field [in_]. *)
Record t : Type := mk {
  in_ : IntervalState.t;
  out : IntervalState.t
}.

Definition is_noop (c : t) : bool :=
  ((IntervalState.type (in_ c) =? StateType.Released)
     && (IntervalState.type (out c) =? StateType.Released))
  || ((IntervalState.type (in_ c) =? IntervalState.type (out c))
        && Metadata.equals (IntervalState.metadata (in_ c))
                           (IntervalState.metadata (out c))).
End IntervalChange.

(** ** SingleDiff and SummaryDiff *)

Module SingleDiff.
Record t : Type := mk {
  reserve : int64_t;
  commit : int64_t
}.
End SingleDiff.

Module SummaryDiff.
(** [SingleDiff flag[mt_number_of_types]]: a fixed-size array, here the
    list of its elements. *)
Record t : Type := mk { flag : list SingleDiff.t }.

(** The loop of the constructor,
    [for (int i = 0; i < mt_number_of_types; i++) flag[i] = SingleDiff{0, 0};]
    from index [i] on.  The loop runs at most [mt_number_of_types] times,
    which bounds the recursion. *)
Fixpoint ctor_loop (bound : Z) (fuel : nat) (i : Z) (flag : list SingleDiff.t)
  : list SingleDiff.t :=
  match fuel with
  | O => flag
  | S fuel' =>
      if i <? bound
      then ctor_loop bound fuel' (i + 1)
             (<[Z.to_nat i := SingleDiff.mk 0 0]> flag)
      else flag
  end.

(** [SummaryDiff()], run on the storage of the array, whose elements are
    indeterminate before the body of the constructor. *)
Definition ctor `{Globals} (storage : list SingleDiff.t) : t :=
  mk (ctor_loop mt_number_of_types (Z.to_nat mt_number_of_types) 0 storage).
End SummaryDiff.

(** ** The ordered map *)

(** Modelled from the spec: the Ordered Map (nmt/nmtTreap.hpp is not among
    the sources), "keyed by address, storing one value per key", with the
    operations of its contract.  Any balanced order-keyed map satisfies that
    contract; the map is a finite map from positions to values, and
    re-inserting at an existing key overwrites. *)
Module Treap.
Definition insert_or_update {V : Type} (key : position) (value : V)
  (m : gmap position V) : gmap position V := <[key := value]> m.

Definition remove {V : Type} (key : position) (m : gmap position V)
  : gmap position V := delete key m.

Definition find {V : Type} (key : position) (m : gmap position V)
  : option V := m !! key.

(** One step of the search for the largest key not above [key]: the node
    [(k, v)] replaces the best candidate so far when it is admissible and
    lies further right. *)
Definition closer {V : Type} (key : position) (k : position) (v : V)
  (best : option (position * V)) : option (position * V) :=
  if bool_decide (k <= key) then
    match best with
    | Some (k', _) => if bool_decide (k' < k) then Some (k, v) else best
    | None => Some (k, v)
    end
  else best.

(** "the node with the largest key <= given key, or none" *)
Definition find_closest_leq {V : Type} (key : position) (m : gmap position V)
  : option (position * V) := map_fold (closer key) None m.

Definition key_le {V : Type} (a b : position * V) : Prop := a.1 <= b.1.

#[global] Instance key_le_dec {V : Type} : RelDecision (@key_le V).
Proof. intros a b. unfold key_le. apply _. Defined.

(** "a finite ascending sequence of (key, value) pairs" *)
Definition visit_in_order {V : Type} (m : gmap position V)
  : list (position * V) := merge_sort key_le (map_to_list m).
End Treap.

(** ** VMATree *)

Module VMATree.
Import IntervalChange.

(** [using VMATreap = TreapCHeap<position, IntervalChange, AddressComparator>] *)
Abbreviation VMATreap := (gmap position IntervalChange.t).

(** How a call of [register_mapping] ends: with a value, or with the error
    the spec names. *)
Inductive error : Type := InvalidRange.

Inductive result (A : Type) : Type :=
| Ok (a : A)
| Err (e : error).
Arguments Ok {A} a.
Arguments Err {A} e.

(** *** The convenience wrappers

    [reserve_mapping], [commit_mapping] and [release_mapping] are defined in
    the header against the declaration of [register_mapping]; they are
    embedded over an arbitrary callee of that signature, [R] standing for
    whatever a call of [register_mapping] does and returns. *)
Section wrappers.
Context `{Globals} {R : Type}.
Variable register_mapping :
  position -> position -> StateType.t -> Metadata.t -> R.

Definition reserve_mapping (from sz : position) (metadata : Metadata.t) : R :=
  register_mapping from (size_t_add from sz) StateType.Reserved metadata.

Definition commit_mapping (from sz : position) (metadata : Metadata.t) : R :=
  register_mapping from (size_t_add from sz) StateType.Committed metadata.

Definition release_mapping (from sz : position) : R :=
  let empty := Metadata.default in
  register_mapping from (size_t_add from sz) StateType.Released empty.
End wrappers.

(** *** register_mapping

    Modelled from the spec: [VMATree::register_mapping], of which the header
    only has the declaration (vmatree.cpp is not among the sources).  The
    definitions below follow section 4.3 of the spec, "apply(range_start,
    range_end, target_state, attribution)", step by step. *)

(** "Released with empty Attribution", the state of unmapped address space. *)
Definition released_empty `{Globals} : IntervalState.t :=
  IntervalState.make StateType.Released Metadata.default.

(** The state written over the range: "target_state (with attribution,
    unless target_state = Released, in which case attribution is
    discarded)". *)
Definition target_state `{Globals} (state : StateType.t)
  (metadata : Metadata.t) : IntervalState.t :=
  let st := IntervalState.make state metadata in
  if IntervalState.type st =? StateType.Released then released_empty else st.

(** The [out] state of the closest node at or before [p], "or
    Released/empty if no such node exists". *)
Definition state_at `{Globals} (p : position) (tree : VMATreap)
  : IntervalState.t :=
  match Treap.find_closest_leq p tree with
  | Some (_, c) => out c
  | None => released_empty
  end.

(** "Every boundary node with key strictly between range_start and
    range_end", in ascending order. *)
Definition interior (A B : position) (tree : VMATreap)
  : list (position * IntervalChange.t) :=
  filter (fun kv => A < kv.1 < B) (Treap.visit_in_order tree).

(** The contribution rule of step 4, applied with a signed byte count:
    "Committed contributes to both committed and reserved counters of its
    category; Reserved contributes only to reserved; Released contributes
    nothing".  The category is the one recorded in the state; a category
    outside the table has no counter.  The counters are integers: the rule
    is one on byte counts, and overflow of a signed counter has no defined
    result in the code. *)
Definition contribute (bytes : Z) (st : IntervalState.t)
  (diff : SummaryDiff.t) : SummaryDiff.t :=
  let i := Z.to_nat (IntervalState.flag st) in
  if IntervalState.type st =? StateType.Committed then
    SummaryDiff.mk
      (alter (fun d => SingleDiff.mk (SingleDiff.reserve d + bytes)
                                     (SingleDiff.commit d + bytes))
             i (SummaryDiff.flag diff))
  else if IntervalState.type st =? StateType.Reserved then
    SummaryDiff.mk
      (alter (fun d => SingleDiff.mk (SingleDiff.reserve d + bytes)
                                     (SingleDiff.commit d))
             i (SummaryDiff.flag diff))
  else diff.

(** "For every state segment that is destroyed or shrunk by this operation
    subtract its byte length": the segment in state [st] that starts at
    [cur] ends at the next interior node, or at [B] after the last one. *)
Fixpoint subtract_segments (cur : position) (st : IntervalState.t)
  (nodes : list (position * IntervalChange.t)) (B : position)
  (diff : SummaryDiff.t) : SummaryDiff.t :=
  match nodes with
  | [] => contribute (- (B - cur)) st diff
  | (k, c) :: rest =>
      subtract_segments k (out c) rest B (contribute (- (k - cur)) st diff)
  end.

(** The rollup is "zero-initialized": a [SummaryDiff] constructed in place. *)
Definition zero_diff `{Globals} : SummaryDiff.t :=
  SummaryDiff.ctor
    (replicate (Z.to_nat mt_number_of_types) (SingleDiff.mk 0 0)).

(** Step 4: subtract what the range held, "then add the full length
    range_end - range_start" under the target state. *)
Definition accounting `{Globals} (A B : position) (target : IntervalState.t)
  (tree : VMATreap) : SummaryDiff.t :=
  contribute (B - A) target
    (subtract_segments A (state_at A tree) (interior A B tree) B zero_diff).

(** Step 3: the interior nodes are removed one by one. *)
Definition clear (nodes : list (position * IntervalChange.t))
  (tree : VMATreap) : VMATreap :=
  foldr (fun kv m => Treap.remove kv.1 m) tree nodes.

(** Step 5: a node is checked "against rule 2" and removed when it is a
    no-op. *)
Definition collapse (p : position) (tree : VMATreap) : VMATreap :=
  match Treap.find p tree with
  | Some c => if is_noop c then Treap.remove p tree else tree
  | None => tree
  end.

(** What step 5 leaves of a boundary node. *)
Definition kept (c : IntervalChange.t) : option IntervalChange.t :=
  if is_noop c then None else Some c.

(** The neighbours of the two boundaries: the last node before a position
    and the first node after it. *)
Definition left_neighbor (p : position) (tree : VMATreap)
  : option (position * IntervalChange.t) :=
  last (filter (fun kv => kv.1 < p) (Treap.visit_in_order tree)).

Definition right_neighbor (p : position) (tree : VMATreap)
  : option (position * IntervalChange.t) :=
  head (filter (fun kv => p < kv.1) (Treap.visit_in_order tree)).

Definition collapse_neighbor (n : option (position * IntervalChange.t))
  (tree : VMATreap) : VMATreap :=
  match n with
  | Some (k, _) => collapse k tree
  | None => tree
  end.

(** Step 1.  "If a node exists exactly at range_start, its in is left
    untouched; otherwise a new node is created at range_start with in =
    state_before_start.  Set this node's out = (target_state,
    attribution)." *)
Definition left_boundary `{Globals} (A : position) (target : IntervalState.t)
  (tree : VMATreap) : IntervalChange.t :=
  match Treap.find A tree with
  | Some c => IntervalChange.mk (in_ c) target
  | None => IntervalChange.mk (state_at A tree) target
  end.

(** Step 2.  "Create or update the node at range_end with in =
    (target_state, attribution), out = state_after_end", the latter being
    the [out] of the closest node at or before [range_end]. *)
Definition right_boundary `{Globals} (B : position) (target : IntervalState.t)
  (tree : VMATreap) : IntervalChange.t :=
  IntervalChange.mk target (state_at B tree).

(** [register_mapping A B state metadata], as a function from the tree
    before the call to the tree after it and the outcome of the call.

    Both boundary states are resolved against the tree as it is before the
    mutation ("the state prevailing at range_end before this mutation").
    In step 5 the neighbours of the two boundaries are checked as well. *)
Definition register_mapping `{Globals} (A B : position) (state : StateType.t)
  (metadata : Metadata.t) (tree : VMATreap)
  : VMATreap * result SummaryDiff.t :=
  if bool_decide (A < B) then
    let target := target_state state metadata in
    (* 1. resolve the left boundary *)
    let stA := left_boundary A target tree in
    (* 2. resolve the right boundary *)
    let stB := right_boundary B target tree in
    (* 4. accounting, computed before the interior is removed *)
    let diff := accounting A B target tree in
    let tree1 := Treap.insert_or_update A stA tree in
    let tree2 := Treap.insert_or_update B stB tree1 in
    (* 3. clear the interior *)
    let tree3 := clear (interior A B tree) tree2 in
    (* 5. collapse no-ops *)
    let tree4 := collapse B (collapse A tree3) in
    let tree5 := collapse_neighbor (left_neighbor A tree4) tree4 in
    let tree6 := collapse_neighbor (right_neighbor B tree5) tree5 in
    (tree6, Ok diff)
  else (tree, Err InvalidRange).

(** *** The tree invariant *)

(** Two states are the same in effect when a node with them as [in] and
    [out] would be a no-op: "same tag and, unless Released, same
    Attribution". *)
Definition same_state (a b : IntervalState.t) : Prop :=
  is_noop (IntervalChange.mk a b) = true.

(** The state just left of [p]: the [out] of the last node strictly before
    [p], or Released when there is none. *)
Definition state_before `{Globals} (p : position) (tree : VMATreap)
  : IntervalState.t := state_at p (Treap.remove p tree).

(** Rule 2: "No node exists whose in and out encode a no-op transition". *)
Definition no_noop (tree : VMATreap) : Prop :=
  map_Forall (fun _ c => is_noop c = false) tree.

(** Rule 1, with the left half of rule 3: every node records as [in] the
    state that reaches it from the left, which is Released before the first
    node. *)
Definition consistent `{Globals} (tree : VMATreap) : Prop :=
  map_Forall (fun p c => same_state (state_before p tree) (in_ c)) tree.

Definition wf `{Globals} (tree : VMATreap) : Prop :=
  no_noop tree /\ consistent tree.

#[global] Instance wf_dec `{Globals} (tree : VMATreap) : Decision (wf tree).
Proof. unfold wf, no_noop, consistent, same_state. apply _. Defined.

(** The trees that calls of [register_mapping] produce from the empty one. *)
Inductive reachable `{Globals} : VMATreap -> Prop :=
| reachable_empty : reachable ∅
| reachable_step A B state metadata tree :
    reachable tree ->
    reachable (register_mapping A B state metadata tree).1.
End VMATree.

(** A callee for the wrappers that returns the arguments it is called
    with. *)
Definition record_call (A B : position) (state : StateType.t)
  (metadata : Metadata.t) : position * position * StateType.t * Metadata.t :=
  (A, B, state, metadata).

(** ** A concrete platform

    A 64-bit [size_t] and four categories, the last of which is [mtNone];
    used to instantiate the statements below on concrete inputs. *)
Definition example_globals : Globals := {|
  size_t_bits := 64;
  mtNone := 3;
  mt_number_of_types := 4;
  StackIndex_default := StackIndex.mk (-1)
|}.

(** Two attributions, of the categories 0 and 1, and the states they give. *)
Definition example_A : Metadata.t := Metadata.mk (StackIndex.mk 7) 0.
Definition example_B : Metadata.t := Metadata.mk (StackIndex.mk 8) 1.

Definition reserved_A : IntervalState.t :=
  IntervalState.make StateType.Reserved example_A.
Definition committed_B : IntervalState.t :=
  IntervalState.make StateType.Committed example_B.

(** * The cgroup probe (os/linux/cgroupSubsystem_linux.cpp) *)

(** ** C strings

    A [char] buffer is the list of its bytes; a [char*] into it is an
    offset.  The end of the list stands for the terminating NUL of the
    buffer.  The functions of the C library that the file calls follow
    their manual pages. *)
Definition NUL : ascii := Ascii.zero.

(** A string literal, as the bytes before its terminator. *)
Definition lit (s : string) : list ascii := list_ascii_of_string s.

(** The C string that starts at the head of [bytes]: the bytes before the
    first NUL. *)
Fixpoint c_str (bytes : list ascii) : list ascii :=
  match bytes with
  | [] => []
  | c :: rest => if bool_decide (c = NUL) then [] else c :: c_str rest
  end.

(** [strcmp(a, b)] on two C strings: zero when they are equal, otherwise the
    difference of the first two bytes that differ. *)
Fixpoint strcmp (a b : list ascii) : Z :=
  match a, b with
  | [], [] => 0
  | [], d :: _ => - Z.of_nat (nat_of_ascii d)
  | c :: _, [] => Z.of_nat (nat_of_ascii c)
  | c :: a', d :: b' =>
      if bool_decide (c = d) then strcmp a' b'
      else Z.of_nat (nat_of_ascii c) - Z.of_nat (nat_of_ascii d)
  end.

(** [strcspn(s, reject)]: the length of the initial part of the C string
    [s] that has no byte of [reject]. *)
Fixpoint strcspn (s reject : list ascii) : nat :=
  match s with
  | [] => 0%nat
  | c :: rest =>
      if bool_decide (c = NUL) || bool_decide (c ∈ reject) then 0%nat
      else S (strcspn rest reject)
  end.

(** [strsep(&stringp, delim)] on the buffer [buf]: the token returned, the
    buffer and [*stringp] after the call.  "If [*stringp] is NULL, the
    function returns NULL and does nothing else.  Otherwise it finds the
    first token in the string [*stringp] that is delimited by one of the
    bytes in [delim].  This token is terminated by overwriting the delimiter
    with a null byte, and [*stringp] is updated to point past the token.  In
    case no delimiter was found, the token is taken to be the entire string
    and [*stringp] is made NULL." *)
Definition strsep (buf : list ascii) (stringp : option nat)
  (delim : list ascii) : option nat * list ascii * option nat :=
  match stringp with
  | None => (None, buf, None)
  | Some begin =>
      let e := (begin + strcspn (drop begin buf) delim)%nat in
      match buf !! e with
      | Some c =>
          if bool_decide (c = NUL) then (Some begin, buf, None)
          else (Some begin, <[e := NUL]> buf, Some (S e))
      | None => (Some begin, buf, None)
      end
  end.

(** [strstr(haystack, needle)]: the offset of the first occurrence of
    [needle] in [haystack], or NULL. *)
Fixpoint strstr (haystack needle : list ascii) : option nat :=
  if bool_decide (needle `prefix_of` haystack) then Some 0%nat
  else match haystack with
       | [] => None
       | _ :: rest => S <$> strstr rest needle
       end.

(** ** find_ro_opt *)

(** The loop of [find_ro_opt]:
    [while ((token = strsep(&mo_ptr, ",")) != NULL)
       if (strcmp(token, "ro") == 0) return true;
     return false;]
    The result is the value returned and the buffer as the calls of [strsep]
    leave it.  Every iteration but the last consumes a byte of the buffer,
    which bounds the recursion; [None] stands for an exhausted bound. *)
Fixpoint find_ro_opt_loop (fuel : nat) (buf : list ascii)
  (mo_ptr : option nat) : option (bool * list ascii) :=
  match fuel with
  | O => None
  | S fuel' =>
      match strsep buf mo_ptr (lit ",") with
      | (None, buf', _) => Some (false, buf')
      | (Some token, buf', mo_ptr') =>
          if strcmp (c_str (drop token buf')) (lit "ro") =? 0
          then Some (true, buf')
          else find_ro_opt_loop fuel' buf' mo_ptr'
      end
  end.

(** [find_ro_opt(mount_opts)], [mount_opts] pointing to the start of its
    buffer. *)
Definition find_ro_opt (mount_opts : list ascii) : option (bool * list ascii) :=
  find_ro_opt_loop (length mount_opts + 2) mount_opts (Some 0%nat).

(** [t] is one of the comma-separated options of [s]: it occurs in [s]
    between the start of [s] or a comma and the end of [s] or a comma. *)
Definition comma_separated_option (t s : list ascii) : Prop :=
  exists pre post : list ascii,
    s = pre ++ t ++ post
    /\ (pre = [] \/ exists pre', pre = pre' ++ lit ",")
    /\ (post = [] \/ exists post', post = lit "," ++ post').

(** The first option of [s]: what precedes its first comma. *)
Definition first_option (s : list ascii) : list ascii :=
  take (strcspn s (lit ",")) s.

(** ** CgroupInfo and set_controller_paths *)

(** The fields of [CgroupInfo] that the file reads and writes; the class is
    declared in cgroupSubsystem_linux.hpp, which is not among the sources.
    A [char*] field is [None] when it is null and otherwise holds the
    string it points to. *)
Module CgroupInfo.
Record t : Type := mk {
  _name : option (list ascii);
  _hierarchy_id : Z;
  _enabled : bool;
  _data_complete : bool;
  _cgroup_path : option (list ascii);
  _root_mount_path : option (list ascii);
  _mount_path : option (list ascii);
  _is_ro : bool
}.

(** The three assignments that [set_controller_paths] makes in two of its
    branches:
    [_mount_path = os::strdup(mount_path);
     _root_mount_path = os::strdup(root_path);
     _is_ro = is_read_only;] *)
Definition assign_paths (info : t) (mount_path root_path : list ascii)
  (is_read_only : bool) : t :=
  mk (_name info) (_hierarchy_id info) (_enabled info) (_data_complete info)
     (_cgroup_path info) (Some root_path) (Some mount_path) is_read_only.

(** The mount of a controller: its mount path, root mount path and
    read-only flag. *)
Definition mount_of (info : t)
  : option (list ascii) * option (list ascii) * bool :=
  (_mount_path info, _root_mount_path info, _is_ro info).
End CgroupInfo.

(** [CgroupSubsystemFactory::set_controller_paths], as a function from the
    array [cg_infos] before the call to the array after it.  The strings
    are passed as their contents; [name] only goes to the log.  An index
    outside the array is undefined behaviour in the source: the model
    leaves the array as it is there, and the properties below assume the
    index in range. *)
Definition set_controller_paths (cg_infos : list CgroupInfo.t)
  (controller : Z) (name mount_path root_path : list ascii)
  (is_read_only : bool) : list CgroupInfo.t :=
  match cg_infos !! Z.to_nat controller with
  | None => cg_infos
  | Some info =>
      match CgroupInfo._mount_path info with
      | Some existing =>
          if bool_decide (strstr existing (lit "/sys/fs/cgroup") <> Some 0%nat)
          then <[Z.to_nat controller :=
                   CgroupInfo.assign_paths info mount_path root_path
                     is_read_only]> cg_infos
          else cg_infos
      | None =>
          <[Z.to_nat controller :=
              CgroupInfo.assign_paths info mount_path root_path
                is_read_only]> cg_infos
      end
  end.

(** A mount line as [set_controller_paths] receives it: mount path, root
    path and read-only flag. *)
Definition mount_line : Type := list ascii * list ascii * bool.

(** The calls of [set_controller_paths] for one controller, one per mount
    line, in the order of the lines. *)
Definition set_controller_paths_all (cg_infos : list CgroupInfo.t)
  (controller : Z) (name : list ascii) (lines : list mount_line)
  : list CgroupInfo.t :=
  foldl (fun infos '(mount_path, root_path, is_read_only) =>
           set_controller_paths infos controller name mount_path root_path
             is_read_only)
        cg_infos lines.

(** A mount path that starts with "/sys/fs/cgroup". *)
Definition under_sys_fs_cgroup (line : mount_line) : Prop :=
  lit "/sys/fs/cgroup" `prefix_of` line.1.1.

#[global] Instance under_sys_fs_cgroup_dec (line : mount_line) :
  Decision (under_sys_fs_cgroup line).
Proof. unfold under_sys_fs_cgroup. apply _. Defined.

(** ** Limits *)

(** [jlong] and [int]; the conversions to them keep the low 64 and 32 bits
    and read them as a signed number. *)
Definition jlong := Z.

Definition static_cast_jlong (v : Z) : jlong :=
  (v + 2 ^ 63) mod 2 ^ 64 - 2 ^ 63.

Definition static_cast_int (v : Z) : Z :=
  (v + 2 ^ 31) mod 2 ^ 32 - 2 ^ 31.

(** [MIN2(a, b)], which is [(a < b) ? a : b]. *)
Definition MIN2 (a b : Z) : Z := if a <? b then a else b.

(** What a function sees of the [CachedMetric] it consults, a class of
    cgroupSubsystem_linux.hpp: the answers of [should_check_metric()] and
    [value()]. *)
Module CachedMetric.
Record t : Type := mk {
  should_check_metric : bool;
  value : jlong
}.
End CachedMetric.

(** [CgroupSubsystem::active_processor_count].  The inputs are the cached
    metric and the values that [os::Linux::active_processor_count()],
    [cpu_quota()] and [cpu_period()] return; the result is the value
    returned and the value passed to [set_value], if any.  The float
    expression [ceilf((float)quota / (float)period)], converted to [int],
    is the parameter [quota_over_period]. *)
Definition active_processor_count (quota_over_period : Z -> Z -> Z)
  (cpu_limit : CachedMetric.t) (os_active_processor_count quota period : Z)
  : Z * option jlong :=
  let quota_count := 0 in
  if negb (CachedMetric.should_check_metric cpu_limit) then
    let val := static_cast_int (CachedMetric.value cpu_limit) in
    (val, None)
  else
    let cpu_count := os_active_processor_count in
    let limit_count := os_active_processor_count in
    let quota_count :=
      if (quota >? -1) && (period >? 0)
      then quota_over_period quota period
      else quota_count in
    let limit_count :=
      if negb (quota_count =? 0) then quota_count else limit_count in
    let result := MIN2 cpu_count limit_count in
    (result, Some result).

(** [CgroupSubsystem::memory_limit_in_bytes].  The inputs are the cached
    metric and the values that [os::Linux::physical_memory()] and
    [read_memory_limit_in_bytes()] return. *)
Definition memory_limit_in_bytes (memory_limit : CachedMetric.t)
  (phys_mem read_memory_limit : jlong) : jlong * option jlong :=
  if negb (CachedMetric.should_check_metric memory_limit) then
    (CachedMetric.value memory_limit, None)
  else
    let mem_limit := read_memory_limit in
    let mem_limit :=
      if (mem_limit <=? 0) || (mem_limit >=? phys_mem) then
        if mem_limit >=? phys_mem then -1 else mem_limit
      else mem_limit in
    (mem_limit, Some mem_limit).

(** [CgroupSubsystem::limit_from_str].  [OSCONTAINER_ERROR] is a constant of
    a header that is not among the sources.  [sscanf_julong s] is what
    [sscanf(s, JULONG_FORMAT, &limit)] converts: the [julong] assigned when
    the call returns 1, and [None] otherwise. *)
Definition limit_from_str (OSCONTAINER_ERROR : jlong)
  (sscanf_julong : list ascii -> option Z) (limit_str : option (list ascii))
  : jlong :=
  match limit_str with
  | None => OSCONTAINER_ERROR
  | Some s =>
      if strcmp (lit "max") s =? 0 then static_cast_jlong (-1)
      else match sscanf_julong s with
           | None => OSCONTAINER_ERROR
           | Some limit => static_cast_jlong limit
           end
  end.

(** ** determine_type *)

(** The indices of the controllers in [cg_infos]: "controller names have to
    match the *_IDX indices", the names being
    [{ "cpu", "cpuset", "cpuacct", "memory", "pids" }].  [CG_INFO_LENGTH]
    bounds the loops that index these five names and is the length of the
    array that [PIDS_IDX] indexes. *)
Definition CPU_IDX : Z := 0.
Definition CPUSET_IDX : Z := 1.
Definition CPUACCT_IDX : Z := 2.
Definition MEMORY_IDX : Z := 3.
Definition PIDS_IDX : Z := 4.
Definition CG_INFO_LENGTH : Z := 5.

(** The values that [determine_type] stores in [*flags], constants of
    cgroupSubsystem_linux.hpp taken as parameters. *)
Class CgroupTypeFlags : Type := {
  INVALID_CGROUPS_GENERIC : Z;
  INVALID_CGROUPS_NO_MOUNT : Z;
  INVALID_CGROUPS_V2 : Z;
  INVALID_CGROUPS_V1 : Z;
  CGROUPS_V1 : Z;
  CGROUPS_V2 : Z
}.

(** What the calls into the C library deliver, taken as parameters: for a
    line, the values that a [sscanf] assigns when it converts as many
    fields as the code asks for, and [None] otherwise; and [atoi].

    - [sscanf_cgroups]: ["%s %d %*d %d"], three fields;
    - [sscanf_cgroup2_mount]:
      ["%*d %*d %*d:%*d %s %s %s%*[^-]- %s %*s %*s"], four fields;
    - [sscanf_cgroup_mount]:
      ["%*d %*d %*d:%*d %s %s %s%*[^-]- %s %*s %s"], five fields. *)
Class Scanners : Type := {
  sscanf_cgroups : list ascii -> option (list ascii * Z * Z);
  atoi : list ascii -> Z;
  sscanf_cgroup2_mount :
    list ascii -> option (list ascii * list ascii * list ascii * list ascii);
  sscanf_cgroup_mount :
    list ascii ->
    option (list ascii * list ascii * list ascii * list ascii * list ascii)
}.

(** How a run of the code ends: with a value; in undefined behaviour (an
    access outside [cg_infos], [os::strdup] of a null pointer); or, for the
    model only, with the bound of a loop exhausted. *)
Inductive run (A : Type) : Type :=
| Done (a : A)
| Undefined
| OutOfFuel.
Arguments Done {A} a.
Arguments Undefined {A}.
Arguments OutOfFuel {A}.

Definition run_bind {A B : Type} (r : run A) (k : A -> run B) : run B :=
  match r with
  | Done a => k a
  | Undefined => Undefined
  | OutOfFuel => OutOfFuel
  end.

Notation "x <- r ;; k" := (run_bind r (fun x => k))
  (at level 100, r at next level, right associativity).

(** [returns r Q]: the run [r] ends with a value that satisfies [Q];
    [ensures r Q]: if it ends with a value, that value satisfies [Q]. *)
Definition returns {A : Type} (r : run A) (Q : A -> Prop) : Prop :=
  exists a, r = Done a /\ Q a.

Definition ensures {A : Type} (r : run A) (Q : A -> Prop) : Prop :=
  forall a, r = Done a -> Q a.

(** [cg_infos[i]], read and updated in place. *)
Definition info_at (cg_infos : list CgroupInfo.t) (i : Z)
  : run CgroupInfo.t :=
  if bool_decide (0 <= i) then
    match cg_infos !! Z.to_nat i with
    | Some info => Done info
    | None => Undefined
    end
  else Undefined.

Definition update_at (cg_infos : list CgroupInfo.t) (i : Z)
  (f : CgroupInfo.t -> CgroupInfo.t) : run (list CgroupInfo.t) :=
  info <- info_at cg_infos i ;;
  Done (<[Z.to_nat i := f info]> cg_infos).

(** The C string that the pointer [str] into [buf] points to; reading
    through a null pointer is undefined.  [os::strdup(str)] reads the
    string that it copies, and so does [atoi]. *)
Definition string_at (buf : list ascii) (str : option nat)
  : run (list ascii) :=
  match str with
  | Some p => Done (c_str (drop p buf))
  | None => Undefined
  end.

Definition os_strdup (buf : list ascii) (str : option nat)
  : run (list ascii) :=
  string_at buf str.

(** The chain
    [if (strcmp(name, "memory") == 0) ... else if (strcmp(name, "cpuset") == 0)
     ... "cpu" ... "cpuacct" ... "pids" ...]
    that the three loops share: the index of the branch taken. *)
Definition controller_index (name : list ascii) : option Z :=
  if strcmp name (lit "memory") =? 0 then Some MEMORY_IDX
  else if strcmp name (lit "cpuset") =? 0 then Some CPUSET_IDX
  else if strcmp name (lit "cpu") =? 0 then Some CPU_IDX
  else if strcmp name (lit "cpuacct") =? 0 then Some CPUACCT_IDX
  else if strcmp name (lit "pids") =? 0 then Some PIDS_IDX
  else None.

(** The loop [while ((token = strsep(&ptr, delim)) != nullptr) body], for a
    body that leaves the buffer and the pointer alone: the state after the
    loop and the buffer as [strsep] leaves it.  The body receives the
    buffer as it is then and the pointer [token] into it. *)
Fixpoint for_each_token {S : Type} (fuel : nat)
  (body : list ascii -> nat -> S -> run S) (buf : list ascii)
  (ptr : option nat) (delim : list ascii) (s : S) : run (S * list ascii) :=
  match fuel with
  | O => OutOfFuel
  | S fuel' =>
      match strsep buf ptr delim with
      | (None, buf', _) => Done (s, buf')
      | (Some token, buf', ptr') =>
          s' <- body buf' token s ;;
          for_each_token fuel' body buf' ptr' delim s'
      end
  end.

(** The loop [while ((p = fgets(buf, MAXPATHLEN, file)) != nullptr) body]
    over the lines that [fgets] delivers. *)
Fixpoint for_each_line {S : Type} (body : S -> list ascii -> run S) (s : S)
  (lines : list (list ascii)) : run S :=
  match lines with
  | [] => Done s
  | p :: rest => s' <- body s p ;; for_each_line body s' rest
  end.

(** *** Reading /proc/cgroups *)

(** [_name = os::strdup(name); _hierarchy_id = hierarchy_id;
     _enabled = (enabled == 1);] *)
Definition set_cgroups_entry (name : list ascii) (hierarchy_id enabled : Z)
  (info : CgroupInfo.t) : CgroupInfo.t :=
  CgroupInfo.mk (Some name) hierarchy_id (bool_decide (enabled = 1))
    (CgroupInfo._data_complete info) (CgroupInfo._cgroup_path info)
    (CgroupInfo._root_mount_path info) (CgroupInfo._mount_path info)
    (CgroupInfo._is_ro info).

(** The body of the loop over /proc/cgroups, for the line [p]. *)
Definition proc_cgroups_line `{Scanners} (cg_infos : list CgroupInfo.t)
  (p : list ascii) : run (list CgroupInfo.t) :=
  match sscanf_cgroups p with
  | None => Done cg_infos
  | Some (name, hierarchy_id, enabled) =>
      match controller_index name with
      | Some idx =>
          update_at cg_infos idx (set_cgroups_entry name hierarchy_id enabled)
      | None => Done cg_infos
      end
  end.

(** The loop over the controllers that sets [is_cgroupsV2] and
    [all_required_controllers_enabled]: [n] rounds from index [i] on. *)
Fixpoint required_controllers (n : nat) (i : Z) (cg_infos : list CgroupInfo.t)
  (is_cgroupsV2 all_required_controllers_enabled : bool)
  : run (bool * bool) :=
  match n with
  | O => Done (is_cgroupsV2, all_required_controllers_enabled)
  | S n' =>
      if negb (i =? PIDS_IDX) then
        info <- info_at cg_infos i ;;
        required_controllers n' (i + 1) cg_infos
          (is_cgroupsV2 && (CgroupInfo._hierarchy_id info =? 0))
          (all_required_controllers_enabled && CgroupInfo._enabled info)
      else
        required_controllers n' (i + 1) cg_infos is_cgroupsV2
          all_required_controllers_enabled
  end.

(** *** Reading /proc/self/cgroup *)

Definition set_cgroup_path (path : list ascii) (info : CgroupInfo.t)
  : CgroupInfo.t :=
  CgroupInfo.mk (CgroupInfo._name info) (CgroupInfo._hierarchy_id info)
    (CgroupInfo._enabled info) (CgroupInfo._data_complete info) (Some path)
    (CgroupInfo._root_mount_path info) (CgroupInfo._mount_path info)
    (CgroupInfo._is_ro info).

(** The body of the loop over the tokens of [controllers], for the token
    at [token] in [buf]:
    [cg_infos[idx]._cgroup_path = os::strdup(cgroup_path)] in the branch
    of the token.  The assertions of the source are those of a debug
    build and are left out. *)
Definition self_cgroup_token (cgroup_path : option nat) (buf : list ascii)
  (token : nat) (cg_infos : list CgroupInfo.t) : run (list CgroupInfo.t) :=
  match controller_index (c_str (drop token buf)) with
  | Some idx =>
      path <- os_strdup buf cgroup_path ;;
      update_at cg_infos idx (set_cgroup_path path)
  | None => Done cg_infos
  end.

(** [for (i ...) cg_infos[i]._cgroup_path = os::strdup(cgroup_path)]: [n]
    rounds from index [i] on. *)
Fixpoint set_cgroup_path_each (n : nat) (i : Z) (buf : list ascii)
  (cgroup_path : option nat) (cg_infos : list CgroupInfo.t)
  : run (list CgroupInfo.t) :=
  match n with
  | O => Done cg_infos
  | S n' =>
      path <- os_strdup buf cgroup_path ;;
      cg_infos' <- update_at cg_infos i (set_cgroup_path path) ;;
      set_cgroup_path_each n' (i + 1) buf cgroup_path cg_infos'
  end.

Definition newline : list ascii := [ascii_of_nat 10].

(** The body of the loop over /proc/self/cgroup, for the line in the
    buffer [buf]. *)
Definition proc_self_cgroup_line `{Scanners} (is_cgroupsV2 : bool)
  (cg_infos : list CgroupInfo.t) (buf : list ascii)
  : run (list CgroupInfo.t) :=
  let '(hierarchy_id_str, buf1, p1) := strsep buf (Some 0%nat) (lit ":") in
  hierarchy_id_text <- string_at buf1 hierarchy_id_str ;;
  let hierarchy_id := atoi hierarchy_id_text in
  let '(controllers, buf2, p2) := strsep buf1 p1 (lit ":") in
  let '(cgroup_path, buf3, _) := strsep buf2 p2 newline in
  match controllers with
  | None => Done cg_infos
  | Some _ =>
      after_tokens <-
        (if negb is_cgroupsV2 then
           for_each_token (length buf3 + 2)
             (self_cgroup_token cgroup_path) buf3 controllers (lit ",")
             cg_infos
         else Done (cg_infos, buf3)) ;;
      let '(cg_infos1, buf4) := after_tokens in
      if is_cgroupsV2 then
        if negb (hierarchy_id =? 0) then Done cg_infos1
        else set_cgroup_path_each (Z.to_nat CG_INFO_LENGTH) 0 buf4
               cgroup_path cg_infos1
      else Done cg_infos1
  end.

(** *** Reading /proc/self/mountinfo *)

(** A call of [set_controller_paths] from [determine_type]. *)
Definition call_set_controller_paths (cg_infos : list CgroupInfo.t)
  (controller : Z) (name mount_path root_path : list ascii)
  (is_read_only : bool) : run (list CgroupInfo.t) :=
  _ <- info_at cg_infos controller ;;
  Done (set_controller_paths cg_infos controller name mount_path root_path
          is_read_only).

(** A call of [find_ro_opt] from [determine_type]. *)
Definition call_find_ro_opt (mount_opts : list ascii)
  : run (bool * list ascii) :=
  match find_ro_opt mount_opts with
  | Some r => Done r
  | None => OutOfFuel
  end.

Definition set_data_complete (info : CgroupInfo.t) : CgroupInfo.t :=
  CgroupInfo.mk (CgroupInfo._name info) (CgroupInfo._hierarchy_id info)
    (CgroupInfo._enabled info) true (CgroupInfo._cgroup_path info)
    (CgroupInfo._root_mount_path info) (CgroupInfo._mount_path info)
    (CgroupInfo._is_ro info).

(** [for (i ...) set_controller_paths(cg_infos, i, "(cg2, unified)",
    tmpmount, tmproot, ro_opt)]: [n] rounds from index [i] on. *)
Fixpoint set_controller_paths_each (n : nat) (i : Z)
  (tmpmount tmproot : list ascii) (ro_opt : bool)
  (cg_infos : list CgroupInfo.t) : run (list CgroupInfo.t) :=
  match n with
  | O => Done cg_infos
  | S n' =>
      cg_infos' <- call_set_controller_paths cg_infos i
                     (lit "(cg2, unified)") tmpmount tmproot ro_opt ;;
      set_controller_paths_each n' (i + 1) tmpmount tmproot ro_opt cg_infos'
  end.

(** What the loop over the tokens of [tmpcgroups] changes: [cg_infos],
    [any_cgroup_mounts_found] and the buffer [mount_opts]. *)
Definition mount_state : Type := list CgroupInfo.t * bool * list ascii.

(** The body of that loop, the same in each branch but for the index:
    [any_cgroup_mounts_found = true;
     bool ro_opt = find_ro_opt(mount_opts);
     set_controller_paths(cg_infos, idx, token, tmpmount, tmproot, ro_opt);
     cg_infos[idx]._data_complete = true;] *)
Definition mountinfo_token (tmpmount tmproot : list ascii)
  (tmpcgroups : list ascii) (token : nat) (s : mount_state)
  : run mount_state :=
  let '(cg_infos, any_cgroup_mounts_found, mount_opts) := s in
  match controller_index (c_str (drop token tmpcgroups)) with
  | Some idx =>
      found <- call_find_ro_opt mount_opts ;;
      let '(ro_opt, mount_opts') := found in
      cg_infos1 <- call_set_controller_paths cg_infos idx
                     (c_str (drop token tmpcgroups)) tmpmount tmproot
                     ro_opt ;;
      cg_infos2 <- update_at cg_infos1 idx set_data_complete ;;
      Done (cg_infos2, true, mount_opts')
  | None => Done s
  end.

(** What the loop over /proc/self/mountinfo changes: [cg_infos],
    [cgroupv2_mount_point_found] and [any_cgroup_mounts_found]. *)
Definition mountinfo_state : Type := list CgroupInfo.t * bool * bool.

(** The body of the loop over /proc/self/mountinfo, for the line [p]. *)
Definition proc_self_mountinfo_line `{Scanners} (is_cgroupsV2 : bool)
  (s : mountinfo_state) (p : list ascii) : run mountinfo_state :=
  s1 <-
    (if is_cgroupsV2 then
       match sscanf_cgroup2_mount p with
       | Some (tmproot, tmpmount, mount_opts, tmp_fs_type) =>
           if strcmp (lit "cgroup2") tmp_fs_type =? 0 then
             found <- call_find_ro_opt mount_opts ;;
             cg_infos' <- set_controller_paths_each
                            (Z.to_nat CG_INFO_LENGTH) 0 tmpmount tmproot
                            found.1 s.1.1 ;;
             Done (cg_infos', true, true)
           else Done s
       | None => Done s
       end
     else Done s) ;;
  match sscanf_cgroup_mount p with
  | Some (tmproot, tmpmount, mount_opts, tmp_fs_type, tmpcgroups) =>
      if negb (strcmp (lit "cgroup") tmp_fs_type =? 0) then Done s1
      else
        after_tokens <-
          for_each_token (length tmpcgroups + 2)
            (mountinfo_token tmpmount tmproot) tmpcgroups (Some 0%nat)
            (lit ",") (s1.1.1, s1.2, mount_opts) ;;
        Done (after_tokens.1.1.1, s1.1.2, after_tokens.1.1.2)
  | None => Done s1
  end.

(** *** The verdict *)

(** What [determine_type] answers: [false] with the value stored in
    [*flags], after [cleanup] has freed the strings of [cg_infos]; or
    [true] with the value stored in [*flags] and the array [cg_infos]. *)
Inductive verdict : Type :=
| Invalid (flags : Z)
| Valid (flags : Z) (cg_infos : list CgroupInfo.t).

(** The checks on the v1 controllers at the end of [determine_type]. *)
Definition v1_verdict `{CgroupTypeFlags} (cg_infos : list CgroupInfo.t)
  : run verdict :=
  memory <- info_at cg_infos MEMORY_IDX ;;
  if negb (CgroupInfo._data_complete memory)
  then Done (Invalid INVALID_CGROUPS_V1) else
  cpuset <- info_at cg_infos CPUSET_IDX ;;
  if negb (CgroupInfo._data_complete cpuset)
  then Done (Invalid INVALID_CGROUPS_V1) else
  cpu <- info_at cg_infos CPU_IDX ;;
  if negb (CgroupInfo._data_complete cpu)
  then Done (Invalid INVALID_CGROUPS_V1) else
  cpuacct <- info_at cg_infos CPUACCT_IDX ;;
  if negb (CgroupInfo._data_complete cpuacct)
  then Done (Invalid INVALID_CGROUPS_V1) else
  Done (Valid CGROUPS_V1 cg_infos).

(** [CgroupSubsystemFactory::determine_type].  Each of the three files is
    given as the lines that [fgets] delivers when [os::fopen] opens it,
    and as [None] when it does not. *)
Definition determine_type `{CgroupTypeFlags} `{Scanners}
  (cg_infos : list CgroupInfo.t)
  (proc_cgroups proc_self_cgroup proc_self_mountinfo
     : option (list (list ascii))) : run verdict :=
  match proc_cgroups with
  | None => Done (Invalid INVALID_CGROUPS_GENERIC)
  | Some cgroups =>
      cg_infos1 <- for_each_line proc_cgroups_line cg_infos cgroups ;;
      required <- required_controllers (Z.to_nat CG_INFO_LENGTH) 0 cg_infos1
                    true true ;;
      let '(is_cgroupsV2, all_required_controllers_enabled) := required in
      if negb all_required_controllers_enabled
      then Done (Invalid INVALID_CGROUPS_GENERIC) else
      match proc_self_cgroup with
      | None => Done (Invalid INVALID_CGROUPS_GENERIC)
      | Some cgroup =>
          cg_infos2 <- for_each_line (proc_self_cgroup_line is_cgroupsV2)
                         cg_infos1 cgroup ;;
          match proc_self_mountinfo with
          | None => Done (Invalid INVALID_CGROUPS_GENERIC)
          | Some mntinfo =>
              after_mounts <- for_each_line
                                (proc_self_mountinfo_line is_cgroupsV2)
                                (cg_infos2, false, false) mntinfo ;;
              let '(cg_infos3, cgroupv2_mount_point_found,
                    any_cgroup_mounts_found) := after_mounts in
              if negb any_cgroup_mounts_found
              then Done (Invalid INVALID_CGROUPS_NO_MOUNT) else
              if is_cgroupsV2 then
                if negb cgroupv2_mount_point_found
                then Done (Invalid INVALID_CGROUPS_V2)
                else Done (Valid CGROUPS_V2 cg_infos3)
              else v1_verdict cg_infos3
          end
      end
  end.

(** *** Predicates on the result *)

(** The controllers that [determine_type] requires: all but pids. *)
Definition required_controller_indices : list Z :=
  [CPU_IDX; CPUSET_IDX; CPUACCT_IDX; MEMORY_IDX].

(** [cg_infos[idx]] satisfies [P]. *)
Definition controller_has (cg_infos : list CgroupInfo.t) (idx : Z)
  (P : CgroupInfo.t -> Prop) : Prop :=
  exists info, cg_infos !! Z.to_nat idx = Some info /\ P info.

(** A controller with a mount path and a root mount path. *)
Definition mounted (info : CgroupInfo.t) : Prop :=
  is_Some (CgroupInfo._mount_path info)
  /\ is_Some (CgroupInfo._root_mount_path info).

(** What holds of a controller that only [determine_type] has written to:
    the root mount path is set with the mount path, and the data is
    complete only with a mount path. *)
Definition paths_consistent (info : CgroupInfo.t) : Prop :=
  (is_Some (CgroupInfo._mount_path info) ->
   is_Some (CgroupInfo._root_mount_path info))
  /\ (CgroupInfo._data_complete info = true ->
      is_Some (CgroupInfo._mount_path info)).

(** What the loops over /proc/self/cgroup and /proc/self/mountinfo keep of
    a controller. *)
Definition evolves (a b : CgroupInfo.t) : Prop :=
  CgroupInfo._hierarchy_id a = CgroupInfo._hierarchy_id b
  /\ CgroupInfo._enabled a = CgroupInfo._enabled b
  /\ (mounted a -> mounted b)
  /\ (paths_consistent a -> paths_consistent b).

(** The number of colons in the line in [buf]. *)
Definition colons (buf : list ascii) : nat :=
  length (filter (fun c => c = ":"%char) (c_str buf)).

(** *** An example: a host with the v1 controllers *)

(** The values of the flags in cgroupSubsystem_linux.hpp. *)
Definition example_flags : CgroupTypeFlags := {|
  CGROUPS_V1 := 1;
  CGROUPS_V2 := 2;
  INVALID_CGROUPS_V2 := 3;
  INVALID_CGROUPS_V1 := 4;
  INVALID_CGROUPS_NO_MOUNT := 5;
  INVALID_CGROUPS_GENERIC := 6
|}.

Definition example_proc_cgroups : list (list ascii) :=
  [ lit "#subsys_name hierarchy num_cgroups enabled";
    lit "cpuset 2 1 1";
    lit "cpu 3 1 1";
    lit "cpuacct 3 1 1";
    lit "memory 4 1 1";
    lit "pids 5 1 1" ].

Definition example_proc_self_cgroup : list (list ascii) :=
  [ lit "5:pids:/" ++ newline;
    lit "4:memory:/" ++ newline;
    lit "3:cpu,cpuacct:/" ++ newline;
    lit "2:cpuset:/" ++ newline ].

Definition example_proc_self_mountinfo : list (list ascii) :=
  [ lit "22 1 8:1 / / rw,relatime - ext4 /dev/sda1 rw";
    lit ("34 28 0:29 / /sys/fs/cgroup/memory rw,nosuid"
         +:+ " - cgroup cgroup rw,memory");
    lit ("35 28 0:30 / /sys/fs/cgroup/cpu,cpuacct ro,nosuid"
         +:+ " - cgroup cgroup rw,cpu,cpuacct");
    lit ("36 28 0:31 / /sys/fs/cgroup/cpuset rw,nosuid"
         +:+ " - cgroup cgroup rw,cpuset") ].

(** The fields of a line after its first [skip] blank-separated ones. *)
Definition fields (skip : nat) (line : list ascii) : list (list ascii) :=
  drop skip (lit <$> String.words (string_of_list_ascii line)).

(** The numbers of the example, as [%d] reads them. *)
Definition example_number (s : list ascii) : Z :=
  if bool_decide (s = lit "1") then 1
  else if bool_decide (s = lit "2") then 2
  else if bool_decide (s = lit "3") then 3
  else if bool_decide (s = lit "4") then 4
  else if bool_decide (s = lit "5") then 5
  else 0.

(** What the scans deliver on the lines of the example. *)
Definition example_scanners : Scanners := {|
  sscanf_cgroups p :=
    match fields 0 p with
    | [name; hierarchy_id; _; enabled] =>
        if bool_decide (name = lit "#subsys_name") then None
        else Some (name, example_number hierarchy_id, example_number enabled)
    | _ => None
    end;
  atoi := example_number;
  sscanf_cgroup2_mount p :=
    match fields 3 p with
    | [tmproot; tmpmount; mount_opts; _; tmp_fs_type; _; _] =>
        Some (tmproot, tmpmount, mount_opts, tmp_fs_type)
    | _ => None
    end;
  sscanf_cgroup_mount p :=
    match fields 3 p with
    | [tmproot; tmpmount; mount_opts; _; tmp_fs_type; _; tmpcgroups] =>
        Some (tmproot, tmpmount, mount_opts, tmp_fs_type, tmpcgroups)
    | _ => None
    end
|}.

(** The array that the caller passes: nothing set. *)
Definition example_cg_infos : list CgroupInfo.t :=
  replicate 5 (CgroupInfo.mk None 0 false false None None None false).

(** The array after the run on the example. *)
Definition example_v1_infos : list CgroupInfo.t :=
  match @determine_type example_flags example_scanners example_cg_infos
          (Some example_proc_cgroups) (Some example_proc_self_cgroup)
          (Some example_proc_self_mountinfo)
  with
  | Done (Valid _ cg_infos) => cg_infos
  | _ => []
  end.

(** * The parallel mark bitmap (gc/parallel/parMarkBitMap.inline.hpp) *)

(** What the inline functions use of declarations that are not among the
    sources: [obj_granularity_shift()] of parMarkBitMap.hpp, [BitsPerWord]
    and [align_up] of the utilities. *)
Class BitMapGlobals : Type := {
  obj_granularity_shift : Z;
  BitsPerWord : Z;
  align_up : Z -> Z -> Z
}.

Module ParMarkBitMap.
(** [idx_t] is [size_t].  A [HeapWord*] is represented by the number of
    heap words between address zero and the word it points to, so that
    pointer arithmetic is integer arithmetic. *)
Abbreviation idx_t := Z.
Abbreviation HeapWord_ptr := Z.

(** The fields that the functions below read; [_beg_bits] enters through
    the searches it offers. *)
Record t : Type := mk {
  _region_start : HeapWord_ptr;
  _region_size : Z
}.

(** [bits << obj_granularity_shift()], on [size_t]. *)
Definition bits_to_words `{Globals} `{BitMapGlobals} (bits : idx_t) : Z :=
  Z.shiftl bits obj_granularity_shift mod 2 ^ size_t_bits.

(** [words >> obj_granularity_shift()] *)
Definition words_to_bits `{BitMapGlobals} (words : Z) : idx_t :=
  Z.shiftr words obj_granularity_shift.

Definition bits_required `{BitMapGlobals} (words : Z) : idx_t :=
  words_to_bits words.

Definition region_start (bm : t) : HeapWord_ptr := _region_start bm.

Definition region_size (bm : t) : Z := _region_size bm.

Definition region_end (bm : t) : HeapWord_ptr :=
  region_start bm + region_size bm.

(** [pointer_delta(left, right)], the number of heap words from [right] up
    to [left], which the callers keep from being negative. *)
Definition pointer_delta (left right : HeapWord_ptr) : Z := left - right.

Definition addr_to_bit `{BitMapGlobals} (bm : t) (addr : HeapWord_ptr)
  : idx_t :=
  words_to_bits (pointer_delta addr (region_start bm)).

Definition bit_to_addr `{Globals} `{BitMapGlobals} (bm : t) (bit : idx_t)
  : HeapWord_ptr :=
  region_start bm + bits_to_words bit.

Definition align_range_end `{BitMapGlobals} (range_end : idx_t) : idx_t :=
  align_up range_end BitsPerWord.

(** [find_obj_beg(HeapWord* beg, HeapWord* end)], over the search
    [_beg_bits.find_first_set_bit_aligned_right] of the bitmap. *)
Definition find_obj_beg `{Globals} `{BitMapGlobals}
  (find_first_set_bit_aligned_right : idx_t -> idx_t -> idx_t)
  (bm : t) (beg end_ : HeapWord_ptr) : HeapWord_ptr :=
  let beg_bit := addr_to_bit bm beg in
  let end_bit := addr_to_bit bm end_ in
  let search_end := align_range_end end_bit in
  let res_bit :=
    MIN2 (find_first_set_bit_aligned_right beg_bit search_end) end_bit in
  bit_to_addr bm res_bit.

(** [find_obj_beg_reverse(HeapWord* beg, HeapWord* end)], over the search
    [_beg_bits.find_last_set_bit_aligned_left]. *)
Definition find_obj_beg_reverse `{Globals} `{BitMapGlobals}
  (find_last_set_bit_aligned_left : idx_t -> idx_t -> idx_t)
  (bm : t) (beg end_ : HeapWord_ptr) : HeapWord_ptr :=
  let beg_bit := addr_to_bit bm beg in
  let end_bit := addr_to_bit bm end_ in
  let res_bit := find_last_set_bit_aligned_left beg_bit end_bit in
  bit_to_addr bm res_bit.
End ParMarkBitMap.

(** A bitmap with a granule of two heap words and 64-bit words, for
    concrete instances. *)
Definition example_bitmap_globals : BitMapGlobals := {|
  obj_granularity_shift := 1;
  BitsPerWord := 64;
  align_up := fun size alignment =>
    (size + alignment - 1) / alignment * alignment
|}.

(** * Properties *)

(** ** Attributions and interval states *)

Lemma StackIndex_equals_eq (a b : StackIndex.t) :
  StackIndex.equals a b = true <-> a = b.
Proof.
  unfold StackIndex.equals. rewrite Z.eqb_eq.
  destruct a, b; simpl. split; [intros -> | intros [= ->]]; reflexivity.
Qed.

(** C5.  Two attributions compare equal with [Metadata::equals] exactly when
    their flags are equal and their stack indices are equal. *)
Theorem Metadata_equals_iff (a b : Metadata.t) :
  Metadata.equals a b = true
  <-> Metadata.flag a = Metadata.flag b
      /\ Metadata.stack_idx a = Metadata.stack_idx b.
Proof.
  unfold Metadata.equals.
  rewrite andb_true_iff, Z.eqb_eq, StackIndex_equals_eq. reflexivity.
Qed.

Lemma Metadata_equals_eq (a b : Metadata.t) :
  Metadata.equals a b = true <-> a = b.
Proof.
  unfold Metadata.equals.
  rewrite andb_true_iff, Z.eqb_eq, StackIndex_equals_eq.
  destruct a, b; simpl. split.
  - intros [-> ->]. reflexivity.
  - intros [= -> ->]. auto.
Qed.

(** C1.  A change is a no-op exactly when both of its states are Released,
    whatever their attributions, or when the two states have the same type
    and equal metadata; so a change from Released under one attribution to
    Released under any other one is a no-op. *)
Theorem is_noop_iff :
  (forall c : IntervalChange.t,
      IntervalChange.is_noop c = true
      <-> (IntervalState.type (IntervalChange.in_ c) = StateType.Released
           /\ IntervalState.type (IntervalChange.out c) = StateType.Released)
          \/ (IntervalState.type (IntervalChange.in_ c)
                = IntervalState.type (IntervalChange.out c)
              /\ IntervalState.metadata (IntervalChange.in_ c)
                   = IntervalState.metadata (IntervalChange.out c)))
  /\ (forall m1 m2 : Metadata.t,
         IntervalChange.is_noop
           (IntervalChange.mk (IntervalState.make StateType.Released m1)
                              (IntervalState.make StateType.Released m2))
         = true).
Proof.
  split.
  - intros c. unfold IntervalChange.is_noop.
    rewrite orb_true_iff, !andb_true_iff, !Z.eqb_eq, Metadata_equals_eq.
    reflexivity.
  - intros m1 m2. unfold IntervalChange.is_noop. reflexivity.
Qed.

(** C8.  A default-constructed interval state has the type encoded by byte
    0, which is Reserved and not Released, and the flag of value 0. *)
Theorem IntervalState_default_is_Reserved `{Globals} :
  IntervalState.type IntervalState.default = StateType.Reserved
  /\ IntervalState.flag IntervalState.default = 0
  /\ IntervalState.type IntervalState.default <> StateType.Released.
Proof. repeat split. discriminate. Qed.

(** C10.  An interval state built from a state type and from metadata whose
    flag fits in one byte gives back that type, that flag and, through
    [metadata()], an attribution that [Metadata::equals] the given one.  The
    state type ranges over the values of its underlying type [uint8_t]. *)
Theorem IntervalState_round_trip (t : StateType.t) (m : Metadata.t) :
  0 <= t < 256 ->
  0 <= Metadata.flag m < 256 ->
  IntervalState.type (IntervalState.make t m) = t
  /\ IntervalState.flag (IntervalState.make t m) = Metadata.flag m
  /\ Metadata.equals (IntervalState.metadata (IntervalState.make t m)) m
     = true.
Proof.
  intros Ht Hm.
  unfold IntervalState.type, IntervalState.flag, IntervalState.metadata,
    IntervalState.make, static_cast_uint8_t; simpl.
  rewrite !Z.mod_small by lia.
  repeat split. apply Metadata_equals_eq. destruct m; reflexivity.
Qed.

Lemma IntervalState_round_trip_witness :
  IntervalState.type
    (IntervalState.make StateType.Committed
                        (Metadata.mk (StackIndex.mk 5) 7))
  = StateType.Committed
  /\ IntervalState.flag
       (IntervalState.make StateType.Committed
                           (Metadata.mk (StackIndex.mk 5) 7))
     = 7
  /\ Metadata.equals
       (IntervalState.metadata
          (IntervalState.make StateType.Committed
                              (Metadata.mk (StackIndex.mk 5) 7)))
       (Metadata.mk (StackIndex.mk 5) 7)
     = true.
Proof.
  apply (IntervalState_round_trip StateType.Committed
           (Metadata.mk (StackIndex.mk 5) 7)).
  - unfold StateType.Committed. lia.
  - simpl. lia.
Defined.

(** ** AddressComparator *)

(** C7.  [cmp] is a total three-way comparison: it returns -1, 0 or 1
    according to the order of its arguments, and never falls through to
    [ShouldNotReachHere]. *)
Theorem cmp_total (a b : position) :
  (a < b -> AddressComparator.cmp a b = Returned (-1))
  /\ (a = b -> AddressComparator.cmp a b = Returned 0)
  /\ (a > b -> AddressComparator.cmp a b = Returned 1)
  /\ AddressComparator.cmp a b <> ShouldNotReachHere.
Proof.
  unfold AddressComparator.cmp.
  destruct (Z.ltb_spec a b) as [Hlt | Hge].
  - repeat split; solve [reflexivity | lia | discriminate].
  - destruct (Z.eqb_spec a b) as [Heq | Hne].
    + repeat split; solve [reflexivity | lia | discriminate].
    + destruct (Z.gtb_spec a b) as [Hgt | Hle]; [| lia].
      repeat split; solve [reflexivity | lia | discriminate].
Qed.

(** ** SummaryDiff *)

Lemma ctor_loop_length bound fuel i flag :
  length (SummaryDiff.ctor_loop bound fuel i flag) = length flag.
Proof.
  revert i flag. induction fuel as [| fuel IH]; intros i flag; simpl.
  - reflexivity.
  - destruct (i <? bound); [| reflexivity].
    rewrite IH. apply length_insert.
Qed.

(** After the loop has run from index [i], every element from [i] up to the
    bound is zero and the elements before [i] are as they were. *)
Lemma ctor_loop_lookup bound fuel i flag (j : nat) :
  0 <= i ->
  bound - i <= Z.of_nat fuel ->
  (Z.to_nat bound <= length flag)%nat ->
  SummaryDiff.ctor_loop bound fuel i flag !! j
  = if bool_decide (i <= Z.of_nat j < bound)
    then Some (SingleDiff.mk 0 0) else flag !! j.
Proof.
  revert i flag. induction fuel as [| fuel IH]; intros i flag Hi Hfuel Hlen.
  - simpl. rewrite bool_decide_eq_false_2 by lia. reflexivity.
  - simpl. destruct (Z.ltb_spec i bound) as [Hlt | Hge].
    + rewrite IH by (rewrite ?length_insert; lia).
      destruct (decide (Z.of_nat j = i)) as [Hj | Hj].
      * rewrite bool_decide_eq_false_2 by lia.
        rewrite bool_decide_eq_true_2 by lia.
        subst i. rewrite Nat2Z.id. apply list_lookup_insert_eq. lia.
      * rewrite list_lookup_insert_ne by lia.
        destruct (decide (i + 1 <= Z.of_nat j < bound)).
        -- rewrite !bool_decide_eq_true_2 by lia. reflexivity.
        -- rewrite !bool_decide_eq_false_2 by lia. reflexivity.
    + rewrite bool_decide_eq_false_2 by lia. reflexivity.
Qed.

(** C6.  A newly constructed [SummaryDiff] is all zero: whatever the storage
    of the array held, after the constructor every category index below
    [mt_number_of_types] has a zero [reserve] and a zero [commit]. *)
Theorem SummaryDiff_ctor_zero `{Globals} (storage : list SingleDiff.t)
  (i : Z) :
  length storage = Z.to_nat mt_number_of_types ->
  0 <= i < mt_number_of_types ->
  exists d : SingleDiff.t,
    SummaryDiff.flag (SummaryDiff.ctor storage) !! Z.to_nat i = Some d
    /\ SingleDiff.reserve d = 0 /\ SingleDiff.commit d = 0.
Proof.
  intros Hlen Hi. exists (SingleDiff.mk 0 0). split; [| split; reflexivity].
  unfold SummaryDiff.ctor; simpl.
  rewrite ctor_loop_lookup by lia.
  rewrite bool_decide_eq_true_2 by lia. reflexivity.
Qed.

Lemma SummaryDiff_ctor_zero_witness :
  exists d : SingleDiff.t,
    SummaryDiff.flag
      (@SummaryDiff.ctor example_globals
         [SingleDiff.mk 1 2; SingleDiff.mk 3 4;
          SingleDiff.mk 5 6; SingleDiff.mk 7 8])
      !! Z.to_nat 2 = Some d
    /\ SingleDiff.reserve d = 0 /\ SingleDiff.commit d = 0.
Proof.
  apply (@SummaryDiff_ctor_zero example_globals).
  - reflexivity.
  - simpl. lia.
Defined.

(** The constructor leaves nothing of the storage it runs on. *)
Lemma SummaryDiff_ctor_replicate `{Globals} (storage : list SingleDiff.t) :
  length storage = Z.to_nat mt_number_of_types ->
  SummaryDiff.ctor storage
  = SummaryDiff.mk
      (replicate (Z.to_nat mt_number_of_types) (SingleDiff.mk 0 0)).
Proof.
  intros Hlen. unfold SummaryDiff.ctor. f_equal.
  apply list_eq. intros j.
  rewrite ctor_loop_lookup by lia.
  destruct (decide (j < Z.to_nat mt_number_of_types)%nat) as [Hj | Hj].
  - rewrite bool_decide_eq_true_2 by lia.
    symmetry. apply lookup_replicate_2. exact Hj.
  - rewrite bool_decide_eq_false_2 by lia.
    rewrite lookup_ge_None_2 by lia.
    symmetry. apply lookup_replicate_None. lia.
Qed.

(** ** The convenience wrappers *)

(** C4.  [release_mapping] discards attribution: whatever
    [register_mapping] does, [release_mapping(from, sz)] is the call
    [register_mapping(from, from + sz, Released, empty)] with the
    default-constructed metadata, whose flag is [mtNone] and whose stack
    index is the default one.  The sum is the one of [size_t], which is the
    sum of the integers whenever that fits.  The wrapper takes no
    attribution, so none of a caller's reaches the Released state. *)
Theorem release_mapping_discards_attribution `{Globals} {R : Type}
  (register_mapping : position -> position -> StateType.t -> Metadata.t -> R)
  (from sz : position) :
  VMATree.release_mapping register_mapping from sz
  = register_mapping from (size_t_add from sz) StateType.Released
      (Metadata.mk StackIndex_default mtNone)
  /\ (0 <= from -> 0 <= sz -> from + sz < 2 ^ size_t_bits ->
      VMATree.release_mapping register_mapping from sz
      = register_mapping from (from + sz) StateType.Released
          (Metadata.mk StackIndex_default mtNone)).
Proof.
  split; [reflexivity |].
  intros Hfrom Hsz Hfits. unfold VMATree.release_mapping, size_t_add.
  rewrite Z.mod_small by lia. reflexivity.
Qed.

(** C9.  The wrappers compute the end of the range with the wrap-around of
    [size_t]: each of them calls [register_mapping] with the end position
    [(from + sz) mod 2 ^ size_t_bits].  Whenever the sum of two positions
    overflows, that end lies strictly below the start, and such positions
    exist. *)
Theorem wrappers_wrap_around `{Globals} {R : Type}
  (register_mapping : position -> position -> StateType.t -> Metadata.t -> R) :
  0 < size_t_bits ->
  (forall (from sz : position) (metadata : Metadata.t),
      VMATree.reserve_mapping register_mapping from sz metadata
      = register_mapping from ((from + sz) mod 2 ^ size_t_bits)
          StateType.Reserved metadata
      /\ VMATree.commit_mapping register_mapping from sz metadata
         = register_mapping from ((from + sz) mod 2 ^ size_t_bits)
             StateType.Committed metadata
      /\ VMATree.release_mapping register_mapping from sz
         = register_mapping from ((from + sz) mod 2 ^ size_t_bits)
             StateType.Released Metadata.default)
  /\ (forall from sz : position,
         0 <= from < 2 ^ size_t_bits ->
         0 <= sz < 2 ^ size_t_bits ->
         2 ^ size_t_bits <= from + sz ->
         (from + sz) mod 2 ^ size_t_bits < from)
  /\ (exists from sz : position,
         0 <= from < 2 ^ size_t_bits
         /\ 0 <= sz < 2 ^ size_t_bits
         /\ (from + sz) mod 2 ^ size_t_bits < from).
Proof.
  intros Hbits.
  assert (Hpow : 2 <= 2 ^ size_t_bits).
  { change 2 with (2 ^ 1) at 1. apply Z.pow_le_mono_r; lia. }
  assert (Hover : forall from sz : position,
             0 <= from < 2 ^ size_t_bits ->
             0 <= sz < 2 ^ size_t_bits ->
             2 ^ size_t_bits <= from + sz ->
             (from + sz) mod 2 ^ size_t_bits < from).
  { intros from sz Hfrom Hsz Hsum.
    replace (from + sz) with (from + sz - 2 ^ size_t_bits
                              + 1 * 2 ^ size_t_bits) by lia.
    rewrite Z.mod_add by lia. rewrite Z.mod_small by lia. lia. }
  split; [| split].
  - intros from sz metadata. repeat split.
  - exact Hover.
  - exists (2 ^ size_t_bits - 1), 1.
    split; [lia |]. split; [lia |]. apply Hover; lia.
Qed.

(** ** The ordered map *)

Section ordered_map.
Context {V : Type}.
Implicit Types (m : gmap position V) (key k : position) (v : V).

(** What [find_closest_leq] finds: a node of the map at or before the key
    with no node of the map between it and the key; or nothing, when every
    node lies after the key. *)
Lemma find_closest_leq_spec key m :
  match Treap.find_closest_leq key m with
  | Some (k, v) =>
      m !! k = Some v /\ k <= key
      /\ forall j, is_Some (m !! j) -> j <= key -> j <= k
  | None => forall j, is_Some (m !! j) -> key < j
  end.
Proof.
  unfold Treap.find_closest_leq.
  apply (map_fold_weak_ind (fun r m =>
    match r with
    | Some (k, v) =>
        m !! k = Some v /\ k <= key
        /\ forall j, is_Some (m !! j) -> j <= key -> j <= k
    | None => forall j, is_Some (m !! j) -> key < j
    end)); clear m.
  - intros j [x Hx]. rewrite lookup_empty in Hx. discriminate.
  - intros i x m r Hfresh IH. unfold Treap.closer.
    assert (Hins : forall j, is_Some (<[i:=x]> m !! j) ->
                             j = i \/ is_Some (m !! j)).
    { intros j Hj. destruct (decide (j = i)) as [| Hne]; [left; assumption |].
      right. rewrite lookup_insert_ne in Hj by lia. exact Hj. }
    case_bool_decide as Hle.
    + destruct r as [[k v] |].
      * destruct IH as (Hk & Hkle & Hmax).
        assert (k <> i) by (intros ->; congruence).
        case_bool_decide as Hlt.
        -- split; [apply lookup_insert_eq |]. split; [exact Hle |].
           intros j Hj Hjle. destruct (Hins j Hj) as [-> | Hj']; [lia |].
           specialize (Hmax j Hj' Hjle). lia.
        -- split; [rewrite lookup_insert_ne by lia; exact Hk |].
           split; [exact Hkle |].
           intros j Hj Hjle. destruct (Hins j Hj) as [-> | Hj']; [lia |].
           apply Hmax; assumption.
      * split; [apply lookup_insert_eq |]. split; [exact Hle |].
        intros j Hj Hjle. destruct (Hins j Hj) as [-> | Hj']; [lia |].
        specialize (IH j Hj'). lia.
    + destruct r as [[k v] |].
      * destruct IH as (Hk & Hkle & Hmax).
        assert (k <> i) by (intros ->; congruence).
        split; [rewrite lookup_insert_ne by lia; exact Hk |].
        split; [exact Hkle |].
        intros j Hj Hjle. destruct (Hins j Hj) as [-> | Hj']; [lia |].
        apply Hmax; assumption.
      * intros j Hj. destruct (Hins j Hj) as [-> | Hj']; [lia |].
        apply IH; assumption.
Qed.

Lemma find_closest_leq_Some key m k v :
  m !! k = Some v -> k <= key ->
  (forall j, is_Some (m !! j) -> j <= key -> j <= k) ->
  Treap.find_closest_leq key m = Some (k, v).
Proof.
  intros Hk Hle Hmax. pose proof (find_closest_leq_spec key m) as Hspec.
  destruct (Treap.find_closest_leq key m) as [[k' v'] |].
  - destruct Hspec as (Hk' & Hle' & Hmax').
    assert (k' = k).
    { apply Z.le_antisymm; [apply Hmax | apply Hmax']; eauto. }
    subst k'. congruence.
  - specialize (Hspec k (ex_intro _ v Hk)). lia.
Qed.

Lemma find_closest_leq_None key m :
  (forall j, is_Some (m !! j) -> key < j) ->
  Treap.find_closest_leq key m = None.
Proof.
  intros Hnone. pose proof (find_closest_leq_spec key m) as Hspec.
  destruct (Treap.find_closest_leq key m) as [[k' v'] |]; [| reflexivity].
  destruct Hspec as (Hk' & Hle' & _).
  specialize (Hnone k' (ex_intro _ v' Hk')). lia.
Qed.

(** The search only looks at the nodes at or before the key. *)
Lemma find_closest_leq_ext key m1 m2 :
  (forall j, j <= key -> m1 !! j = m2 !! j) ->
  Treap.find_closest_leq key m1 = Treap.find_closest_leq key m2.
Proof.
  intros Hagree. pose proof (find_closest_leq_spec key m1) as Hspec.
  destruct (Treap.find_closest_leq key m1) as [[k v] |]; symmetry.
  - destruct Hspec as (Hk & Hle & Hmax).
    apply find_closest_leq_Some; [rewrite <- Hagree by lia; exact Hk | exact Hle |].
    intros j Hj Hjle. apply Hmax; [| exact Hjle].
    rewrite Hagree by exact Hjle. exact Hj.
  - apply find_closest_leq_None. intros j Hj.
    destruct (decide (j <= key)) as [Hjle | ]; [| lia].
    apply Hspec. rewrite Hagree by exact Hjle. exact Hj.
Qed.

(** A stretch without nodes does not change what the search finds. *)
Lemma find_closest_leq_gap key1 key2 m :
  key1 <= key2 ->
  (forall j, key1 < j <= key2 -> m !! j = None) ->
  Treap.find_closest_leq key2 m = Treap.find_closest_leq key1 m.
Proof.
  intros Hle Hgap. pose proof (find_closest_leq_spec key1 m) as Hspec.
  destruct (Treap.find_closest_leq key1 m) as [[k v] |].
  - destruct Hspec as (Hk & Hkle & Hmax).
    apply find_closest_leq_Some; [exact Hk | lia |].
    intros j Hj Hjle. destruct (decide (j <= key1)) as [Hj1 | Hj1].
    + apply Hmax; assumption.
    + rewrite Hgap in Hj by lia. destruct Hj as [? [=]].
  - apply find_closest_leq_None. intros j Hj.
    destruct (decide (j <= key1)) as [Hj1 | Hj1].
    + specialize (Hspec j Hj). lia.
    + destruct (decide (j <= key2)) as [Hj2 | ]; [| lia].
      rewrite Hgap in Hj by lia. destruct Hj as [? [=]].
Qed.

#[local] Instance key_le_total : Total (@Treap.key_le V).
Proof. intros a b. unfold Treap.key_le. lia. Qed.

(** The visit is in ascending order of the keys. *)
Lemma visit_in_order_sorted m : Sorted Treap.key_le (Treap.visit_in_order m).
Proof. apply Sorted_merge_sort. apply _. Qed.

Lemma elem_of_visit_in_order m k v :
  (k, v) ∈ Treap.visit_in_order m <-> m !! k = Some v.
Proof.
  unfold Treap.visit_in_order.
  rewrite merge_sort_Permutation. apply elem_of_map_to_list.
Qed.
End ordered_map.

(** ** States that are the same in effect *)

Section tree_facts.
Context `{Globals}.
Import VMATree.
Implicit Types (tree : VMATreap) (A B p : position).
Implicit Types (c : IntervalChange.t) (s target : IntervalState.t).

Lemma is_noop_true c :
  IntervalChange.is_noop c = true
  <-> (IntervalState.type (IntervalChange.in_ c) = StateType.Released
       /\ IntervalState.type (IntervalChange.out c) = StateType.Released)
      \/ (IntervalState.type (IntervalChange.in_ c)
            = IntervalState.type (IntervalChange.out c)
          /\ IntervalState.metadata (IntervalChange.in_ c)
               = IntervalState.metadata (IntervalChange.out c)).
Proof.
  unfold IntervalChange.is_noop.
  rewrite orb_true_iff, !andb_true_iff, !Z.eqb_eq, Metadata_equals_eq.
  reflexivity.
Qed.

Lemma same_state_refl s : same_state s s.
Proof. unfold same_state. rewrite is_noop_true. simpl. auto. Qed.

Lemma same_state_sym s1 s2 : same_state s1 s2 -> same_state s2 s1.
Proof.
  unfold same_state. rewrite !is_noop_true. simpl.
  intros [[H1 H2] | [H1 H2]]; [left | right]; auto.
Qed.

Lemma same_state_trans s1 s2 s3 :
  same_state s1 s2 -> same_state s2 s3 -> same_state s1 s3.
Proof.
  unfold same_state. rewrite !is_noop_true. simpl.
  intros [[H1 H2] | [H1 H2]] [[H3 H4] | [H3 H4]].
  - left; auto.
  - left. split; congruence.
  - left. split; congruence.
  - right. split; congruence.
Qed.

Lemma kept_None c : kept c = None <-> IntervalChange.is_noop c = true.
Proof. unfold kept. destruct (IntervalChange.is_noop c); split; congruence. Qed.

Lemma kept_Some c c' :
  kept c = Some c' <-> IntervalChange.is_noop c = false /\ c' = c.
Proof.
  unfold kept. destruct (IntervalChange.is_noop c); split;
    try intros [? ?]; try intros [= ?]; subst; auto; congruence.
Qed.

(** ** Accounting *)

Lemma list_alter_alter {X : Type} (f g : X -> X) (i : nat) (l : list X) :
  alter f i (alter g i l) = alter (fun x => f (g x)) i l.
Proof.
  revert i. induction l as [| x l IH]; intros [| i]; simpl;
    try reflexivity.
  f_equal. apply IH.
Qed.

(** Taking a byte count from a state and giving it to a state that is the
    same in effect changes no counter. *)
Lemma contribute_cancel (bytes : Z) s1 s2 (diff : SummaryDiff.t) :
  same_state s1 s2 ->
  contribute bytes s2 (contribute (- bytes) s1 diff) = diff.
Proof.
  unfold same_state. rewrite is_noop_true. simpl.
  assert (Hid : forall (f : SingleDiff.t -> SingleDiff.t) i,
             (forall d, f d = d) ->
             SummaryDiff.mk (alter f i (SummaryDiff.flag diff)) = diff).
  { intros f i Hf. rewrite list_alter_id by exact Hf. destruct diff; reflexivity. }
  intros [[H1 H2] | [H1 H2]]; unfold contribute.
  - rewrite H1, H2. reflexivity.
  - rewrite <- H1.
    assert (Hflag : IntervalState.flag s2 = IntervalState.flag s1).
    { unfold IntervalState.metadata in H2. congruence. }
    rewrite Hflag.
    destruct (IntervalState.type s1 =? StateType.Committed); simpl.
    + rewrite list_alter_alter. apply Hid.
      intros [r c]; simpl. f_equal; lia.
    + destruct (IntervalState.type s1 =? StateType.Reserved); simpl.
      * rewrite list_alter_alter. apply Hid.
        intros [r c]; simpl. f_equal; lia.
      * reflexivity.
Qed.

(** ** The state at a position *)

Lemma state_at_ext p tree1 tree2 :
  (forall j, j <= p -> tree1 !! j = tree2 !! j) ->
  state_at p tree1 = state_at p tree2.
Proof.
  intros Hagree. unfold state_at.
  rewrite (find_closest_leq_ext p tree1 tree2 Hagree). reflexivity.
Qed.

Lemma state_at_gap p1 p2 tree :
  p1 <= p2 ->
  (forall j, p1 < j <= p2 -> tree !! j = None) ->
  state_at p2 tree = state_at p1 tree.
Proof.
  intros Hle Hgap. unfold state_at.
  rewrite (find_closest_leq_gap p1 p2 tree Hle Hgap). reflexivity.
Qed.

Lemma state_at_here p tree c :
  tree !! p = Some c -> state_at p tree = IntervalChange.out c.
Proof.
  intros Hp. unfold state_at.
  rewrite (find_closest_leq_Some p tree p c); [reflexivity | exact Hp | lia |].
  intros j _ Hj. exact Hj.
Qed.

Lemma state_before_absent p tree :
  tree !! p = None -> state_before p tree = state_at p tree.
Proof.
  intros Hp. unfold state_before, Treap.remove.
  rewrite delete_id by exact Hp. reflexivity.
Qed.

(** The state before a position only depends on the nodes strictly before
    it. *)
Lemma state_before_ext p tree1 tree2 :
  (forall j, j < p -> tree1 !! j = tree2 !! j) ->
  state_before p tree1 = state_before p tree2.
Proof.
  intros Hagree. unfold state_before, Treap.remove.
  apply state_at_ext. intros j Hj.
  destruct (decide (j = p)) as [-> | Hne].
  - rewrite !lookup_delete_eq. reflexivity.
  - rewrite !lookup_delete_ne by lia. apply Hagree. lia.
Qed.
End tree_facts.

(** ** The steps of register_mapping *)

Section steps.
Context `{Globals}.
Import VMATree.
Implicit Types (tree : VMATreap) (A B p : position).
Implicit Types (c : IntervalChange.t) (s target : IntervalState.t).

Lemma elem_of_interior A B tree p c :
  (p, c) ∈ interior A B tree <-> A < p < B /\ tree !! p = Some c.
Proof.
  unfold interior. rewrite list_elem_of_filter, elem_of_visit_in_order.
  reflexivity.
Qed.

Lemma interior_nil A B tree :
  (forall j, A < j < B -> tree !! j = None) -> interior A B tree = [].
Proof.
  intros Hnone. destruct (interior A B tree) as [| [p c] l] eqn:Hint.
  - reflexivity.
  - assert (Hin : (p, c) ∈ interior A B tree).
    { rewrite Hint. apply list_elem_of_here. }
    apply elem_of_interior in Hin as [Hp Hc].
    rewrite Hnone in Hc by exact Hp. discriminate.
Qed.

Lemma lookup_clear (nodes : list (position * IntervalChange.t)) tree j :
  clear nodes tree !! j
  = if bool_decide (j ∈ nodes.*1) then None else tree !! j.
Proof.
  induction nodes as [| [p c] nodes IH].
  - reflexivity.
  - change (clear ((p, c) :: nodes) tree)
      with (Treap.remove p (clear nodes tree)).
    rewrite fmap_cons. unfold Treap.remove.
    destruct (decide (j = p)) as [-> | Hne].
    + rewrite lookup_delete_eq.
      rewrite bool_decide_eq_true_2; [reflexivity | apply list_elem_of_here].
    + rewrite lookup_delete_ne by lia. rewrite IH.
      destruct (decide (j ∈ nodes.*1)) as [Hin | Hin].
      * rewrite !bool_decide_eq_true_2;
          [reflexivity | apply list_elem_of_further; exact Hin | exact Hin].
      * rewrite !bool_decide_eq_false_2; [reflexivity | | exact Hin].
        rewrite elem_of_cons. simpl. intros [? | ?]; [lia | contradiction].
Qed.

(** Clearing the interior of the tree [tree] in a tree that has the same
    interior nodes leaves no node strictly inside the range and touches no
    other node. *)
Lemma lookup_clear_interior A B tree tree' j :
  (forall p, A < p < B -> tree' !! p = tree !! p) ->
  clear (interior A B tree) tree' !! j
  = if bool_decide (A < j < B) then None else tree' !! j.
Proof.
  intros Hsame. rewrite lookup_clear.
  destruct (decide (j ∈ (interior A B tree).*1)) as [Hin | Hin].
  - rewrite bool_decide_eq_true_2 by exact Hin.
    apply list_elem_of_fmap in Hin as ([p c] & -> & Hin).
    apply elem_of_interior in Hin as [Hp _]. simpl.
    rewrite bool_decide_eq_true_2 by exact Hp. reflexivity.
  - rewrite bool_decide_eq_false_2 by exact Hin.
    case_bool_decide as Hj; [| reflexivity].
    destruct (tree !! j) as [c |] eqn:Hc.
    + exfalso. apply Hin. apply list_elem_of_fmap. exists (j, c).
      split; [reflexivity |]. apply elem_of_interior. auto.
    + rewrite Hsame by exact Hj. exact Hc.
Qed.

Lemma lookup_collapse p tree j :
  collapse p tree !! j
  = if bool_decide (j = p) then tree !! p ≫= kept else tree !! j.
Proof.
  unfold collapse, Treap.find, Treap.remove, kept.
  destruct (tree !! p) as [c |] eqn:Hc; simpl.
  - destruct (IntervalChange.is_noop c).
    + case_bool_decide as Hj.
      * subst j. apply lookup_delete_eq.
      * apply lookup_delete_ne. lia.
    + case_bool_decide as Hj; [subst j; exact Hc | reflexivity].
  - case_bool_decide as Hj; [subst j; exact Hc | reflexivity].
Qed.

Lemma collapse_id p tree : no_noop tree -> collapse p tree = tree.
Proof.
  intros Hno. unfold collapse, Treap.find.
  destruct (tree !! p) as [c |] eqn:Hc; [| reflexivity].
  rewrite (Hno p c Hc). reflexivity.
Qed.

Lemma collapse_neighbor_id (n : option (position * IntervalChange.t)) tree :
  no_noop tree -> collapse_neighbor n tree = tree.
Proof.
  intros Hno. destruct n as [[k c] |]; simpl; [| reflexivity].
  apply collapse_id. exact Hno.
Qed.

(** The nodes of the tree after steps 1, 2, 3 and the check of the two
    boundaries in step 5: the boundaries [stA] and [stB] unless they are
    no-ops, nothing strictly between them, and elsewhere the nodes of the
    tree before. *)
Lemma lookup_written A B (stA stB : IntervalChange.t) tree j :
  A < B ->
  collapse B (collapse A
    (clear (interior A B tree)
       (Treap.insert_or_update B stB (Treap.insert_or_update A stA tree))))
  !! j
  = if bool_decide (j = A) then kept stA
    else if bool_decide (j = B) then kept stB
    else if bool_decide (A < j < B) then None
    else tree !! j.
Proof.
  intros HAB. unfold Treap.insert_or_update.
  assert (Hsame : forall p, A < p < B ->
             <[B:=stB]> (<[A:=stA]> tree) !! p = tree !! p).
  { intros p Hp. rewrite !lookup_insert_ne by lia. reflexivity. }
  rewrite !lookup_collapse, !lookup_clear_interior by exact Hsame.
  rewrite (bool_decide_eq_false_2 (B = A)) by lia.
  rewrite (bool_decide_eq_false_2 (A < B < B)) by lia.
  rewrite (bool_decide_eq_false_2 (A < A < B)) by lia.
  rewrite lookup_insert_eq.
  rewrite lookup_insert_ne, lookup_insert_eq by lia. simpl.
  destruct (decide (j = A)) as [-> | HjA].
  - rewrite bool_decide_eq_false_2 by lia.
    rewrite bool_decide_eq_true_2 by lia. reflexivity.
  - rewrite (bool_decide_eq_false_2 (j = A)) by lia.
    case_bool_decide as HjB; [reflexivity |].
    case_bool_decide as Hj; [reflexivity |].
    rewrite !lookup_insert_ne by lia. reflexivity.
Qed.

(** On a tree without no-ops, [register_mapping] leaves the two boundaries
    it resolved unless they are no-ops, no node strictly between them, and
    every other node as it was. *)
Lemma lookup_register_mapping A B state metadata tree j :
  A < B -> no_noop tree ->
  (register_mapping A B state metadata tree).1 !! j
  = if bool_decide (j = A)
    then kept (left_boundary A (target_state state metadata) tree)
    else if bool_decide (j = B)
    then kept (right_boundary B (target_state state metadata) tree)
    else if bool_decide (A < j < B) then None
    else tree !! j.
Proof.
  intros HAB Hno. unfold register_mapping.
  rewrite bool_decide_eq_true_2 by exact HAB. cbv zeta. simpl.
  set (target := target_state state metadata).
  set (tree4 := collapse B (collapse A _)).
  assert (Hno4 : no_noop tree4).
  { intros p c. unfold tree4. rewrite lookup_written by exact HAB.
    repeat case_bool_decide.
    - intros [Hc ->]%kept_Some. exact Hc.
    - intros [Hc ->]%kept_Some. exact Hc.
    - discriminate.
    - apply Hno. }
  rewrite (collapse_neighbor_id (left_neighbor A tree4) tree4 Hno4).
  rewrite (collapse_neighbor_id (right_neighbor B tree4) tree4 Hno4).
  unfold tree4. apply lookup_written. exact HAB.
Qed.
End steps.

(** ** The tree after a call *)

Section after_a_call.
Context `{Globals}.
Import VMATree.
Variables (A B : position) (state : StateType.t) (metadata : Metadata.t).
Variable tree : VMATreap.
Hypothesis HAB : A < B.
Hypothesis Hwf : wf tree.

Local Abbreviation target := (target_state state metadata).
Local Abbreviation stA := (left_boundary A (target_state state metadata) tree).
Local Abbreviation stB := (right_boundary B (target_state state metadata) tree).
Local Abbreviation after := (register_mapping A B state metadata tree).1.

Lemma lookup_after j :
  after !! j
  = if bool_decide (j = A) then kept stA
    else if bool_decide (j = B) then kept stB
    else if bool_decide (A < j < B) then None
    else tree !! j.
Proof. apply lookup_register_mapping; [exact HAB | apply Hwf]. Qed.

Lemma lookup_after_start : after !! A = kept stA.
Proof. rewrite lookup_after. rewrite bool_decide_eq_true_2; reflexivity. Qed.

Lemma lookup_after_end : after !! B = kept stB.
Proof.
  rewrite lookup_after. rewrite bool_decide_eq_false_2 by lia.
  rewrite bool_decide_eq_true_2; reflexivity.
Qed.

Lemma lookup_after_interior j : A < j < B -> after !! j = None.
Proof.
  intros Hj. rewrite lookup_after. rewrite !bool_decide_eq_false_2 by lia.
  rewrite bool_decide_eq_true_2; [reflexivity | exact Hj].
Qed.

Lemma lookup_after_outside j : j < A \/ B < j -> after !! j = tree !! j.
Proof.
  intros Hj. rewrite lookup_after. rewrite !bool_decide_eq_false_2 by lia.
  reflexivity.
Qed.

Lemma no_noop_after : no_noop after.
Proof.
  intros p c. rewrite lookup_after. repeat case_bool_decide.
  - intros [Hc ->]%kept_Some. exact Hc.
  - intros [Hc ->]%kept_Some. exact Hc.
  - discriminate.
  - apply Hwf.
Qed.

Lemma out_left_boundary : IntervalChange.out stA = target.
Proof. unfold left_boundary. destruct (Treap.find A tree); reflexivity. Qed.

(** The left boundary has as [in] the state that reaches A from the left. *)
Lemma in_left_boundary :
  same_state (state_before A tree) (IntervalChange.in_ stA).
Proof.
  unfold left_boundary, Treap.find.
  destruct (tree !! A) as [c |] eqn:Hc; simpl.
  - destruct Hwf as [_ Hcons]. exact (Hcons A c Hc).
  - rewrite state_before_absent by exact Hc. apply same_state_refl.
Qed.

Lemma state_before_after_start :
  state_before A after = state_before A tree.
Proof.
  apply state_before_ext. intros j Hj. apply lookup_after_outside. lia.
Qed.

(** After the call the state at A is the target state, in effect. *)
Lemma state_at_after_start : same_state (state_at A after) target.
Proof.
  pose proof lookup_after_start as HA.
  destruct (kept stA) as [c |] eqn:Hkept.
  - apply kept_Some in Hkept as [_ ->].
    rewrite (state_at_here A after stA HA), out_left_boundary.
    apply same_state_refl.
  - rewrite <- (state_before_absent A after HA), state_before_after_start.
    apply same_state_trans with (IntervalChange.in_ stA).
    + apply in_left_boundary.
    + apply kept_None in Hkept. pose proof out_left_boundary as Hout.
      destruct stA as [i o]. simpl in *. rewrite <- Hout. exact Hkept.
Qed.

Lemma state_at_after_end_kept :
  IntervalChange.is_noop stB = false -> state_at B after = state_at B tree.
Proof.
  intros Hkept. pose proof lookup_after_end as HB.
  unfold kept in HB. rewrite Hkept in HB.
  rewrite (state_at_here B after stB HB). reflexivity.
Qed.

Lemma state_at_after_end_dropped :
  IntervalChange.is_noop stB = true -> state_at B after = state_at A after.
Proof.
  intros Hdrop. pose proof lookup_after_end as HB.
  unfold kept in HB. rewrite Hdrop in HB.
  apply state_at_gap; [lia |]. intros j Hj.
  destruct (decide (j = B)) as [-> | Hne]; [exact HB |].
  apply lookup_after_interior. lia.
Qed.

(** After the call the state at B is, in effect, what it was before. *)
Lemma state_at_after_end : same_state (state_at B after) (state_at B tree).
Proof.
  destruct (IntervalChange.is_noop stB) eqn:HstB.
  - rewrite (state_at_after_end_dropped HstB).
    apply same_state_trans with target.
    + apply state_at_after_start.
    + exact HstB.
  - rewrite (state_at_after_end_kept HstB). apply same_state_refl.
Qed.

(** *** Resolving the same boundaries again *)

Lemma left_boundary_again : kept (left_boundary A target after) = kept stA.
Proof.
  pose proof lookup_after_start as HA.
  unfold left_boundary at 1, Treap.find. rewrite HA.
  destruct (kept stA) as [c |] eqn:Hkept.
  - apply kept_Some in Hkept as [Hno ->].
    rewrite <- out_left_boundary at 2.
    replace (IntervalChange.mk (IntervalChange.in_ stA)
                               (IntervalChange.out stA)) with stA
      by (destruct stA; reflexivity).
    apply kept_Some. auto.
  - apply kept_None. apply state_at_after_start.
Qed.

Lemma right_boundary_again : kept (right_boundary B target after) = kept stB.
Proof.
  unfold right_boundary at 1.
  destruct (IntervalChange.is_noop stB) eqn:HstB.
  - rewrite (state_at_after_end_dropped HstB).
    transitivity (@None IntervalChange.t).
    + apply kept_None. apply same_state_sym, state_at_after_start.
    + symmetry. apply kept_None. exact HstB.
  - rewrite (state_at_after_end_kept HstB). reflexivity.
Qed.

(** A second identical call leaves the tree as the first one left it. *)
Lemma register_mapping_again_tree :
  (register_mapping A B state metadata after).1 = after.
Proof.
  apply map_eq. intros j.
  rewrite (lookup_register_mapping A B state metadata after j HAB no_noop_after).
  rewrite left_boundary_again, right_boundary_again.
  rewrite (lookup_after j).
  repeat case_bool_decide; reflexivity.
Qed.

(** A second identical call finds the range already in the target state:
    what it subtracts is what it adds. *)
Lemma accounting_again : accounting A B target after = zero_diff.
Proof.
  unfold accounting.
  rewrite (interior_nil A B after lookup_after_interior). simpl.
  apply contribute_cancel, state_at_after_start.
Qed.

Lemma register_mapping_again_diff :
  (register_mapping A B state metadata after).2 = Ok zero_diff.
Proof.
  unfold register_mapping at 1.
  rewrite bool_decide_eq_true_2 by exact HAB. cbv zeta. simpl.
  rewrite accounting_again. reflexivity.
Qed.
(** *** The invariant after the call *)

Lemma state_before_gap (t : VMATreap) (p0 p : position) :
  p0 < p ->
  (forall j, p0 < j < p -> t !! j = None) ->
  state_before p t = state_at p0 t.
Proof.
  intros Hlt Hgap. unfold state_before, Treap.remove.
  rewrite (state_at_gap p0 p (delete p t)); [| lia |].
  - apply state_at_ext. intros j Hj. apply lookup_delete_ne. lia.
  - intros j Hj. destruct (decide (j = p)) as [-> | Hne].
    + apply lookup_delete_eq.
    + rewrite lookup_delete_ne by lia. apply Hgap. lia.
Qed.

Lemma state_before_after_end : state_before B after = state_at A after.
Proof.
  apply state_before_gap; [exact HAB |]. apply lookup_after_interior.
Qed.

(** Right of the range, every position is reached by the state that
    reached it before, in effect. *)
Lemma state_before_after_beyond p :
  B < p -> same_state (state_before p after) (state_before p tree).
Proof.
  intros Hp.
  assert (Hgap : (forall j, B < j < p -> tree !! j = None) ->
                 same_state (state_before p after) (state_before p tree)).
  { intros Hnone.
    rewrite (state_before_gap tree B p Hp Hnone).
    rewrite (state_before_gap after B p Hp).
    - apply state_at_after_end.
    - intros j Hj. rewrite lookup_after_outside by lia. apply Hnone, Hj. }
  pose proof (find_closest_leq_spec p (delete p tree)) as Hspec.
  destruct (Treap.find_closest_leq p (delete p tree)) as [[q cq] |] eqn:Hq.
  - destruct Hspec as (Hlook & Hle & Hmax).
    assert (Hqp : q <> p).
    { intros ->. rewrite lookup_delete_eq in Hlook. discriminate. }
    rewrite lookup_delete_ne in Hlook by lia.
    destruct (decide (B < q)) as [HBq | HBq].
    + assert (Hq' : Treap.find_closest_leq p (delete p after) = Some (q, cq)).
      { apply find_closest_leq_Some.
        - rewrite lookup_delete_ne by lia.
          rewrite lookup_after_outside by lia. exact Hlook.
        - exact Hle.
        - intros j Hj Hjp. destruct (decide (B < j)) as [HBj | HBj]; [| lia].
          apply Hmax; [| exact Hjp].
          destruct (decide (j = p)) as [-> | Hne].
          + rewrite lookup_delete_eq in Hj. destruct Hj as [? [=]].
          + rewrite lookup_delete_ne in Hj by lia.
            rewrite lookup_after_outside in Hj by lia.
            rewrite lookup_delete_ne by lia. exact Hj. }
      unfold state_before, state_at, Treap.remove. rewrite Hq', Hq.
      apply same_state_refl.
    + apply Hgap. intros j Hj.
      destruct (tree !! j) as [cj |] eqn:Hcj; [exfalso | reflexivity].
      assert (j <= q); [| lia].
      apply Hmax; [| lia]. rewrite lookup_delete_ne by lia.
      rewrite Hcj. eauto.
  - apply Hgap. intros j Hj.
    destruct (tree !! j) as [cj |] eqn:Hcj; [exfalso | reflexivity].
    assert (p < j); [| lia].
    apply Hspec. rewrite lookup_delete_ne by lia. rewrite Hcj. eauto.
Qed.

Lemma consistent_after : consistent after.
Proof.
  intros p c. rewrite lookup_after. repeat case_bool_decide.
  - subst p. intros [_ ->]%kept_Some.
    rewrite state_before_after_start. apply in_left_boundary.
  - subst p. intros [_ ->]%kept_Some.
    rewrite state_before_after_end. apply state_at_after_start.
  - discriminate.
  - intros Hc. destruct Hwf as [_ Hcons]. specialize (Hcons p c Hc).
    simpl in Hcons.
    destruct (decide (p < A)) as [HpA | HpA].
    + rewrite (state_before_ext p after tree); [exact Hcons |].
      intros j Hj. apply lookup_after_outside. lia.
    + apply same_state_trans with (state_before p tree); [| exact Hcons].
      apply state_before_after_beyond. lia.
Qed.

Lemma wf_after : wf after.
Proof. split; [apply no_noop_after | apply consistent_after]. Qed.
End after_a_call.

(** ** Idempotence and rejected ranges *)

Lemma wf_empty `{Globals} : VMATree.wf ∅.
Proof. split; apply map_Forall_empty. Qed.

(** Every call of [register_mapping] preserves the tree invariant. *)
Lemma register_mapping_wf `{Globals} (A B : position) (state : StateType.t)
  (metadata : Metadata.t) (tree : VMATree.VMATreap) :
  VMATree.wf tree ->
  VMATree.wf (VMATree.register_mapping A B state metadata tree).1.
Proof.
  intros Hwf. destruct (decide (A < B)) as [HAB | HAB].
  - apply wf_after; assumption.
  - unfold VMATree.register_mapping.
    rewrite bool_decide_eq_false_2 by exact HAB. exact Hwf.
Qed.

(** Every tree that calls of [register_mapping] build from the empty tree
    satisfies the invariant. *)
Lemma reachable_wf `{Globals} (tree : VMATree.VMATreap) :
  VMATree.reachable tree -> VMATree.wf tree.
Proof.
  induction 1 as [| A B state metadata tree _ IH].
  - apply wf_empty.
  - apply register_mapping_wf, IH.
Qed.

Lemma zero_diff_zero `{Globals} :
  length (SummaryDiff.flag VMATree.zero_diff) = Z.to_nat mt_number_of_types
  /\ Forall (fun d => SingleDiff.reserve d = 0 /\ SingleDiff.commit d = 0)
            (SummaryDiff.flag VMATree.zero_diff).
Proof.
  unfold VMATree.zero_diff.
  rewrite SummaryDiff_ctor_replicate by apply length_replicate. simpl.
  split; [apply length_replicate |].
  apply Forall_replicate. split; reflexivity.
Qed.

(** C2.  [register_mapping] is idempotent.  On every tree that satisfies the
    tree invariant, which every tree built by calls of [register_mapping]
    does ([reachable_wf]), and for every range [A, B) with [A < B], every
    state type and every metadata, the second of two identical calls in a
    row returns a [SummaryDiff] with one entry per category, all of whose
    [reserve] and [commit] are zero, and leaves the tree with the keys and
    values it had after the first call. *)
Theorem register_mapping_idempotent `{Globals} (A B : position)
  (state : StateType.t) (metadata : Metadata.t) (tree : VMATree.VMATreap) :
  VMATree.wf tree ->
  A < B ->
  let first := VMATree.register_mapping A B state metadata tree in
  let second := VMATree.register_mapping A B state metadata first.1 in
  (exists diff : SummaryDiff.t,
      second.2 = VMATree.Ok diff
      /\ length (SummaryDiff.flag diff) = Z.to_nat mt_number_of_types
      /\ Forall (fun d => SingleDiff.reserve d = 0 /\ SingleDiff.commit d = 0)
                (SummaryDiff.flag diff))
  /\ second.1 = first.1.
Proof.
  intros Hwf HAB first second. subst first second. split.
  - exists VMATree.zero_diff. split.
    + apply register_mapping_again_diff; assumption.
    + apply zero_diff_zero.
  - apply register_mapping_again_tree; assumption.
Qed.

(** C3.  A call of [register_mapping] whose range is empty or reversed,
    [range_start >= range_end], fails with [InvalidRange]: it leaves the
    tree unchanged and produces no [SummaryDiff]. *)
Theorem register_mapping_invalid_range `{Globals} (A B : position)
  (state : StateType.t) (metadata : Metadata.t) (tree : VMATree.VMATreap) :
  A >= B ->
  VMATree.register_mapping A B state metadata tree
  = (tree, VMATree.Err VMATree.InvalidRange).
Proof.
  intros HAB. unfold VMATree.register_mapping.
  rewrite bool_decide_eq_false_2 by lia. reflexivity.
Qed.

(** ** Concrete instances *)

Lemma register_mapping_idempotent_witness :
  let tree :=
    (@VMATree.register_mapping example_globals 0 100 StateType.Reserved
       example_A ∅).1 in
  let first :=
    @VMATree.register_mapping example_globals 40 60 StateType.Committed
      example_B tree in
  let second :=
    @VMATree.register_mapping example_globals 40 60 StateType.Committed
      example_B first.1 in
  (exists diff : SummaryDiff.t,
      second.2 = VMATree.Ok diff
      /\ length (SummaryDiff.flag diff) = 4%nat
      /\ Forall (fun d => SingleDiff.reserve d = 0 /\ SingleDiff.commit d = 0)
                (SummaryDiff.flag diff))
  /\ second.1 = first.1.
Proof.
  intros tree.
  apply (@register_mapping_idempotent example_globals 40 60
           StateType.Committed example_B tree).
  - apply (@bool_decide_unpack _ (VMATree.wf_dec tree)). vm_compute. exact I.
  - lia.
Defined.

Lemma register_mapping_invalid_range_witness :
  @VMATree.register_mapping example_globals 50 50 StateType.Reserved
    example_A ∅
  = (∅, VMATree.Err VMATree.InvalidRange)
  /\ @VMATree.register_mapping example_globals 50 10 StateType.Reserved
       example_A ∅
     = (∅, VMATree.Err VMATree.InvalidRange).
Proof.
  split; apply (@register_mapping_invalid_range example_globals); lia.
Defined.

Lemma wrappers_wrap_around_witness :
  (forall (from sz : position) (metadata : Metadata.t),
      @VMATree.reserve_mapping example_globals _ record_call from sz metadata
      = (from, (from + sz) mod 2 ^ 64, StateType.Reserved, metadata)
      /\ @VMATree.commit_mapping example_globals _ record_call from sz metadata
         = (from, (from + sz) mod 2 ^ 64, StateType.Committed, metadata)
      /\ @VMATree.release_mapping example_globals _ record_call from sz
         = (from, (from + sz) mod 2 ^ 64, StateType.Released,
            @Metadata.default example_globals))
  /\ (forall from sz : position,
         0 <= from < 2 ^ 64 ->
         0 <= sz < 2 ^ 64 ->
         2 ^ 64 <= from + sz ->
         (from + sz) mod 2 ^ 64 < from)
  /\ (exists from sz : position,
         0 <= from < 2 ^ 64
         /\ 0 <= sz < 2 ^ 64
         /\ (from + sz) mod 2 ^ 64 < from).
Proof.
  apply (@wrappers_wrap_around example_globals _ record_call).
  simpl. lia.
Defined.

(** At the top of a 64-bit address space, a request of two bytes reaches
    [register_mapping] with an end position below its start, which
    [register_mapping] rejects. *)
Example reserve_mapping_wraps :
  @VMATree.reserve_mapping example_globals _ record_call
    (2 ^ 64 - 1) 2 example_A
  = (2 ^ 64 - 1, 1, StateType.Reserved, example_A)
  /\ @VMATree.reserve_mapping example_globals _
       (@VMATree.register_mapping example_globals)
       (2 ^ 64 - 1) 2 example_A ∅
     = (∅, VMATree.Err VMATree.InvalidRange).
Proof. split; reflexivity. Qed.

(** ** The scenarios of the spec on the model *)

Section scenarios.
#[local] Existing Instance example_globals.
Import VMATree.

(** "Overwrite correctness": committing [40, 60) under B inside [0, 100)
    reserved under A leaves three segments, takes 20 bytes from A's reserved
    counter and gives 20 bytes to both counters of B. *)
Example overwrite_scenario :
  let tree := (register_mapping 0 100 StateType.Reserved example_A ∅).1 in
  let second := register_mapping 40 60 StateType.Committed example_B tree in
  Treap.visit_in_order second.1
  = [ (0, IntervalChange.mk released_empty reserved_A);
      (40, IntervalChange.mk reserved_A committed_B);
      (60, IntervalChange.mk committed_B reserved_A);
      (100, IntervalChange.mk reserved_A released_empty) ]
  /\ second.2
     = Ok (SummaryDiff.mk [ SingleDiff.mk (-20) 0; SingleDiff.mk 20 20;
                            SingleDiff.mk 0 0; SingleDiff.mk 0 0 ]).
Proof. split; vm_compute; reflexivity. Qed.

(** "Boundary abutment": two reservations under the same attribution that
    abut at 50 leave no node at 50. *)
Example abutment_scenario :
  let tree := (register_mapping 0 50 StateType.Reserved example_A ∅).1 in
  let second := register_mapping 50 100 StateType.Reserved example_A tree in
  Treap.visit_in_order second.1
  = [ (0, IntervalChange.mk released_empty reserved_A);
      (100, IntervalChange.mk reserved_A released_empty) ]
  /\ second.2
     = Ok (SummaryDiff.mk [ SingleDiff.mk 50 0; SingleDiff.mk 0 0;
                            SingleDiff.mk 0 0; SingleDiff.mk 0 0 ]).
Proof. split; vm_compute; reflexivity. Qed.

(** "Partial overlap at edges": committing [15, 25) under B over [10, 20)
    reserved under A takes 5 bytes from A and gives 10 bytes to B. *)
Example partial_overlap_scenario :
  let tree := (register_mapping 10 20 StateType.Reserved example_A ∅).1 in
  let second := register_mapping 15 25 StateType.Committed example_B tree in
  Treap.visit_in_order second.1
  = [ (10, IntervalChange.mk released_empty reserved_A);
      (15, IntervalChange.mk reserved_A committed_B);
      (25, IntervalChange.mk committed_B released_empty) ]
  /\ second.2
     = Ok (SummaryDiff.mk [ SingleDiff.mk (-5) 0; SingleDiff.mk 10 10;
                            SingleDiff.mk 0 0; SingleDiff.mk 0 0 ]).
Proof. split; vm_compute; reflexivity. Qed.
End scenarios.
(** * Properties of the cgroup probe *)

(** ** C strings *)

Lemma nat_of_ascii_zero (c : ascii) : nat_of_ascii c = 0%nat -> c = NUL.
Proof.
  intros Hc. rewrite <- (ascii_nat_embedding c), Hc. reflexivity.
Qed.

Lemma c_str_id (s : list ascii) : NUL ∉ s -> c_str s = s.
Proof.
  induction s as [| c s IH]; intros Hs; simpl; [reflexivity |].
  apply not_elem_of_cons in Hs as [Hc Hs].
  rewrite bool_decide_eq_false_2 by congruence. rewrite IH by exact Hs.
  reflexivity.
Qed.

Lemma c_str_app_NUL (s rest : list ascii) :
  NUL ∉ s -> c_str (s ++ NUL :: rest) = s.
Proof.
  induction s as [| c s IH]; intros Hs; simpl.
  - reflexivity.
  - apply not_elem_of_cons in Hs as [Hc Hs].
    rewrite bool_decide_eq_false_2 by congruence. rewrite IH by exact Hs.
    reflexivity.
Qed.

(** [strcmp] returns zero exactly on equal strings. *)
Lemma strcmp_eq (a b : list ascii) :
  NUL ∉ a -> NUL ∉ b -> (strcmp a b = 0 <-> a = b).
Proof.
  revert b. induction a as [| c a IH]; intros [| d b] Ha Hb; simpl.
  - tauto.
  - apply not_elem_of_cons in Hb as [Hd _]. split; [| discriminate].
    intros Hz. exfalso. apply Hd. symmetry. apply nat_of_ascii_zero. lia.
  - apply not_elem_of_cons in Ha as [Hc _]. split; [| discriminate].
    intros Hz. exfalso. apply Hc. symmetry. apply nat_of_ascii_zero. lia.
  - apply not_elem_of_cons in Ha as [_ Ha].
    apply not_elem_of_cons in Hb as [_ Hb].
    case_bool_decide as Hcd.
    + subst d. rewrite IH by assumption. split; congruence.
    + split; [| intros [= Hc _]; contradiction].
      intros Hz. exfalso. apply Hcd.
      rewrite <- (ascii_nat_embedding c), <- (ascii_nat_embedding d).
      f_equal. lia.
Qed.

Lemma elem_of_lit_comma (c : ascii) : c ∈ lit "," <-> c = ","%char.
Proof. unfold lit; simpl. apply list_elem_of_singleton. Qed.

(** A string without NUL splits at its first comma: the part before it has
    no comma, and the rest is empty or starts with that comma. *)
Lemma strcspn_split (s : list ascii) :
  NUL ∉ s ->
  (","%char ∉ first_option s)
  /\ (s = first_option s
      \/ exists rest, s = first_option s ++ ","%char :: rest).
Proof.
  unfold first_option.
  induction s as [| c s IH]; intros Hs; simpl.
  - split; [apply not_elem_of_nil | left; reflexivity].
  - apply not_elem_of_cons in Hs as [Hc Hs].
    rewrite (bool_decide_eq_false_2 (c = NUL)) by congruence. simpl.
    case_bool_decide as Hcomma; simpl.
    + apply elem_of_lit_comma in Hcomma. subst c.
      split; [apply not_elem_of_nil | right; eauto].
    + rewrite elem_of_lit_comma in Hcomma.
      destruct (IH Hs) as [Hno Hsplit]. split.
      * apply not_elem_of_cons. split; [congruence | exact Hno].
      * destruct Hsplit as [Heq | [rest Heq]].
        -- left. f_equal. exact Heq.
        -- right. exists rest. simpl. f_equal. exact Heq.
Qed.

Lemma strcspn_no_delim (s rest : list ascii) :
  NUL ∉ s -> ","%char ∉ s ->
  strcspn (s ++ rest) (lit ",") = (length s + strcspn rest (lit ","))%nat.
Proof.
  induction s as [| c s IH]; intros Hnul Hcomma; [reflexivity |].
  cbn [app strcspn length].
  apply not_elem_of_cons in Hnul as [Hc Hnul].
  apply not_elem_of_cons in Hcomma as [Hc' Hcomma].
  rewrite (bool_decide_eq_false_2 (c = NUL)) by congruence.
  rewrite (bool_decide_eq_false_2 (c ∈ lit ","))
    by (rewrite elem_of_lit_comma; congruence).
  cbn [orb]. rewrite IH by assumption. reflexivity.
Qed.

(** ** Comma-separated options *)

(** Where the first comma of a string is, is determined by the string. *)
Lemma first_comma_unique (x y tok r : list ascii) :
  ","%char ∉ tok ->
  x ++ ","%char :: y = tok ++ ","%char :: r ->
  (x = tok /\ y = r)
  \/ exists x', x = tok ++ ","%char :: x' /\ r = x' ++ ","%char :: y.
Proof.
  revert x. induction tok as [| c tok IH]; intros x Htok Heq.
  - destruct x as [| d x]; simpl in Heq.
    + left. split; congruence.
    + right. injection Heq as -> Heq. exists x. split; [reflexivity | auto].
  - apply not_elem_of_cons in Htok as [Hc Htok].
    destruct x as [| d x]; simpl in Heq.
    + injection Heq as Hd _. congruence.
    + injection Heq as -> Heq.
      destruct (IH x Htok Heq) as [[-> ->] | (x' & -> & ->)].
      * left. auto.
      * right. exists x'. auto.
Qed.

Lemma option_of_single (t tok : list ascii) :
  ","%char ∉ tok ->
  comma_separated_option t tok <-> t = tok.
Proof.
  intros Htok. split.
  - intros (pre & post & Heq & Hpre & Hpost).
    assert (Hin : forall c, c ∈ pre ++ t ++ post -> c <> ","%char).
    { intros c Hc. rewrite <- Heq in Hc. congruence. }
    destruct Hpre as [-> | [pre' ->]].
    + destruct Hpost as [-> | [post' ->]].
      * rewrite app_nil_r in Heq. simpl in Heq. congruence.
      * exfalso. apply (Hin ","%char); [| reflexivity].
        simpl. rewrite elem_of_app. right. apply list_elem_of_here.
    + exfalso. apply (Hin ","%char); [| reflexivity].
      unfold lit; simpl. rewrite <- app_assoc, elem_of_app. right.
      apply list_elem_of_here.
  - intros ->. exists [], []. rewrite app_nil_r. auto.
Qed.

Lemma option_of_cons (t tok rest : list ascii) :
  ","%char ∉ tok -> ","%char ∉ t ->
  comma_separated_option t (tok ++ ","%char :: rest)
  <-> t = tok \/ comma_separated_option t rest.
Proof.
  intros Htok Ht. split.
  - intros (pre & post & Heq & Hpre & Hpost).
    destruct Hpre as [-> | [pre' ->]].
    + simpl in Heq. destruct Hpost as [-> | [post' ->]].
      * exfalso. rewrite app_nil_r in Heq. apply Ht. rewrite <- Heq.
        apply elem_of_app. right. apply list_elem_of_here.
      * simpl in Heq. symmetry in Heq.
        destruct (first_comma_unique _ _ _ _ Htok Heq)
          as [[-> _] | (x' & -> & _)].
        -- left. reflexivity.
        -- exfalso. apply Ht. apply elem_of_app. right.
           apply list_elem_of_here.
    + unfold lit in Heq; simpl in Heq. rewrite <- app_assoc in Heq.
      simpl in Heq. symmetry in Heq.
      destruct (first_comma_unique _ _ _ _ Htok Heq)
        as [[-> Hr] | (x' & -> & Hr)].
      * right. exists [], post. rewrite Hr. auto.
      * right. exists (x' ++ lit ","), post. rewrite Hr.
        unfold lit; simpl. rewrite <- app_assoc. simpl.
        split; [reflexivity |]. split; [right; eauto | exact Hpost].
  - intros [-> | (pre & post & -> & Hpre & Hpost)].
    + exists [], (","%char :: rest). split; [reflexivity |].
      split; [left; reflexivity | right; exists rest; reflexivity].
    + exists (tok ++ ","%char :: pre), post.
      split; [rewrite <- app_assoc; reflexivity |].
      split; [| exact Hpost]. right.
      destruct Hpre as [-> | [pre' ->]].
      * exists tok. reflexivity.
      * exists (tok ++ ","%char :: pre'). rewrite <- app_assoc. reflexivity.
Qed.

(** ** find_ro_opt *)

Lemma strsep_NULL (buf delim : list ascii) :
  strsep buf None delim = (None, buf, None).
Proof. reflexivity. Qed.

(** [strsep] on the last token: no delimiter follows, the buffer is left as
    it is and [*stringp] becomes NULL. *)
Lemma strsep_last (pre tok : list ascii) :
  NUL ∉ tok -> ","%char ∉ tok ->
  strsep (pre ++ tok) (Some (length pre)) (lit ",")
  = (Some (length pre), pre ++ tok, None).
Proof.
  intros Hnul Hcomma. unfold strsep.
  rewrite drop_app_length.
  replace tok with (tok ++ []) at 1 by apply app_nil_r.
  rewrite strcspn_no_delim by assumption. cbn [strcspn].
  rewrite lookup_ge_None_2; [reflexivity |].
  rewrite length_app. lia.
Qed.

(** [strsep] on a token that a comma follows: the comma is overwritten with
    NUL and [*stringp] points past it. *)
Lemma strsep_comma (pre tok rest : list ascii) :
  NUL ∉ tok -> ","%char ∉ tok ->
  strsep (pre ++ tok ++ ","%char :: rest) (Some (length pre)) (lit ",")
  = (Some (length pre), pre ++ tok ++ NUL :: rest,
     Some (S (length pre + length tok))).
Proof.
  intros Hnul Hcomma. unfold strsep.
  rewrite drop_app_length.
  rewrite strcspn_no_delim by assumption. cbn [strcspn].
  rewrite (bool_decide_eq_false_2 (","%char = NUL)) by discriminate.
  rewrite (bool_decide_eq_true_2 (","%char ∈ lit ","))
    by (apply elem_of_lit_comma; reflexivity).
  cbn [orb]. rewrite Nat.add_0_r.
  rewrite lookup_app_r by lia.
  replace (length pre + length tok - length pre)%nat with (length tok) by lia.
  rewrite lookup_app_r by lia. rewrite Nat.sub_diag. cbn [lookup list_lookup].
  rewrite (bool_decide_eq_false_2 (","%char = NUL)) by discriminate.
  rewrite (insert_app_r pre (tok ++ ","%char :: rest) (length tok) NUL).
  replace (length tok) with (length tok + 0)%nat at 1 by lia.
  rewrite (insert_app_r tok (","%char :: rest) 0 NUL). reflexivity.
Qed.

Lemma comma_not_in_ro : ","%char ∉ lit "ro".
Proof.
  unfold lit; simpl. intros Hin.
  apply elem_of_cons in Hin as [Hin | Hin]; [discriminate |].
  apply elem_of_cons in Hin as [Hin | Hin]; [discriminate |].
  apply not_elem_of_nil in Hin. exact Hin.
Qed.

Lemma NUL_not_in_ro : NUL ∉ lit "ro".
Proof.
  unfold lit; simpl. intros Hin.
  apply elem_of_cons in Hin as [Hin | Hin]; [discriminate |].
  apply elem_of_cons in Hin as [Hin | Hin]; [discriminate |].
  apply not_elem_of_nil in Hin. exact Hin.
Qed.

(** The loop, started at the end of [pre] on the unread options [rest]:
    with a bound of two more than the bytes left it returns, the bytes
    before the start are untouched, the C string at the start is the first
    option, and the result tells whether "ro" is among the options. *)
Lemma find_ro_opt_loop_spec (fuel : nat) (pre rest : list ascii) :
  NUL ∉ rest ->
  (length rest + 2 <= fuel)%nat ->
  exists (b : bool) (rest' : list ascii),
    find_ro_opt_loop fuel (pre ++ rest) (Some (length pre))
    = Some (b, pre ++ rest')
    /\ length rest' = length rest
    /\ c_str rest' = first_option rest
    /\ (b = true <-> comma_separated_option (lit "ro") rest).
Proof.
  revert pre rest.
  induction fuel as [| fuel IH]; intros pre rest Hnul Hfuel; [lia |].
  destruct (strcspn_split rest Hnul) as [Hcomma Hsplit].
  remember (first_option rest) as tok eqn:Htok.
  assert (Hnul_tok : NUL ∉ tok).
  { intros Hin. apply Hnul. subst tok. unfold first_option in Hin.
    apply (subseteq_take _ _ _ Hin). }
  clear Htok. cbn [find_ro_opt_loop].
  destruct Hsplit as [-> | [r ->]].
  - (* the last option *)
    rewrite strsep_last by assumption.
    rewrite drop_app_length, (c_str_id tok Hnul_tok).
    destruct (Z.eqb_spec (strcmp tok (lit "ro")) 0) as [Hro | Hro].
    + apply strcmp_eq in Hro; [| exact Hnul_tok | exact NUL_not_in_ro].
      exists true, tok. split; [reflexivity |].
      split; [reflexivity |]. split; [apply c_str_id, Hnul_tok |].
      split; [intros _ | reflexivity].
      apply option_of_single; [exact Hcomma | congruence].
    + rewrite strcmp_eq in Hro by (exact Hnul_tok || exact NUL_not_in_ro).
      destruct fuel as [| fuel]; [lia |]. cbn [find_ro_opt_loop].
      rewrite strsep_NULL.
      exists false, tok. split; [reflexivity |].
      split; [reflexivity |]. split; [apply c_str_id, Hnul_tok |].
      split; [discriminate |].
      intros Hopt%option_of_single; [congruence | exact Hcomma].
  - (* an option that a comma follows *)
    assert (Hnul_r : NUL ∉ r).
    { intros Hin. apply Hnul. apply elem_of_app. right.
      apply list_elem_of_further, Hin. }
    rewrite strsep_comma by assumption.
    rewrite drop_app_length, (c_str_app_NUL tok r Hnul_tok).
    destruct (Z.eqb_spec (strcmp tok (lit "ro")) 0) as [Hro | Hro].
    + apply strcmp_eq in Hro; [| exact Hnul_tok | exact NUL_not_in_ro].
      exists true, (tok ++ NUL :: r). split; [reflexivity |].
      split; [rewrite !length_app; reflexivity |].
      split; [apply c_str_app_NUL, Hnul_tok |].
      split; [intros _ | reflexivity].
      apply option_of_cons;
        [exact Hcomma | exact comma_not_in_ro | left; congruence].
    + rewrite strcmp_eq in Hro by (exact Hnul_tok || exact NUL_not_in_ro).
      rewrite length_app in Hfuel. cbn [length] in Hfuel.
      destruct (IH (pre ++ tok ++ [NUL]) r Hnul_r)
        as (b & r' & Hloop & Hlen' & _ & Hb); [lia |].
      rewrite !length_app in Hloop. cbn [length] in Hloop.
      replace (length pre + (length tok + 1))%nat
        with (S (length pre + length tok)) in Hloop by lia.
      rewrite <- !app_assoc in Hloop. cbn [app] in Hloop.
      exists b, (tok ++ NUL :: r'). split; [exact Hloop |].
      split; [rewrite !length_app; simpl; lia |].
      split; [apply c_str_app_NUL, Hnul_tok |].
      rewrite Hb.
      rewrite (option_of_cons (lit "ro") tok r Hcomma comma_not_in_ro).
      split; [auto | intros [? | ?]; [congruence | assumption]].
Qed.

Lemma c_str_no_NUL (buf : list ascii) : NUL ∉ c_str buf.
Proof.
  induction buf as [| c buf IH]; simpl; [apply not_elem_of_nil |].
  case_bool_decide as Hc; [apply not_elem_of_nil |].
  apply not_elem_of_cons. split; [congruence | exact IH].
Qed.

(** A buffer is its C string, followed by nothing or by a NUL and more. *)
Lemma c_str_split (buf : list ascii) :
  buf = c_str buf \/ exists rest, buf = c_str buf ++ NUL :: rest.
Proof.
  induction buf as [| c buf IH]; simpl; [left; reflexivity |].
  case_bool_decide as Hc.
  - subst c. right. exists buf. reflexivity.
  - destruct IH as [IH | [rest IH]].
    + left. f_equal. exact IH.
    + right. exists rest. simpl. f_equal. exact IH.
Qed.

(** On a buffer whose string has no comma, [find_ro_opt] compares that
    string with "ro" and leaves the buffer as it is. *)
Lemma strsep_before_NUL (tok rest : list ascii) :
  NUL ∉ tok -> ","%char ∉ tok ->
  strsep (tok ++ NUL :: rest) (Some 0%nat) (lit ",")
  = (Some 0%nat, tok ++ NUL :: rest, None).
Proof.
  intros Hnul Hcomma. unfold strsep. rewrite drop_0.
  rewrite strcspn_no_delim by assumption. cbn [strcspn].
  rewrite bool_decide_eq_true_2 by reflexivity. cbn [orb].
  rewrite Nat.add_0_l, Nat.add_0_r.
  rewrite lookup_app_r by lia. rewrite Nat.sub_diag.
  cbn [lookup list_lookup].
  rewrite bool_decide_eq_true_2 by reflexivity. reflexivity.
Qed.

Lemma find_ro_opt_single (buf : list ascii) :
  ","%char ∉ c_str buf ->
  find_ro_opt buf = Some (bool_decide (c_str buf = lit "ro"), buf).
Proof.
  intros Hcomma. pose proof (c_str_no_NUL buf) as Hnul.
  unfold find_ro_opt.
  replace (length buf + 2)%nat with (S (S (length buf))) by lia.
  cbn [find_ro_opt_loop].
  assert (Hsep : strsep buf (Some 0%nat) (lit ",")
                 = (Some 0%nat, buf, None)).
  { pose proof (c_str_split buf) as Hsplit.
    remember (c_str buf) as tok eqn:Htok. clear Htok.
    destruct Hsplit as [-> | [rest ->]].
    - apply (strsep_last [] tok Hnul Hcomma).
    - apply strsep_before_NUL; assumption. }
  rewrite Hsep, drop_0, strsep_NULL.
  destruct (Z.eqb_spec (strcmp (c_str buf) (lit "ro")) 0) as [Hro | Hro].
  - apply strcmp_eq in Hro; [| exact Hnul | exact NUL_not_in_ro].
    rewrite bool_decide_eq_true_2 by exact Hro. reflexivity.
  - rewrite strcmp_eq in Hro by (exact Hnul || exact NUL_not_in_ro).
    rewrite bool_decide_eq_false_2 by exact Hro. reflexivity.
Qed.

(** X1.  On mount options without NUL, [find_ro_opt] returns, and returns
    true exactly when "ro" is one of the comma-separated options: a mere
    occurrence of the letters inside another option does not count. *)
Theorem find_ro_opt_iff (s : list ascii) :
  NUL ∉ s ->
  exists (b : bool) (buf' : list ascii),
    find_ro_opt s = Some (b, buf')
    /\ (b = true <-> comma_separated_option (lit "ro") s).
Proof.
  intros Hnul.
  destruct (find_ro_opt_loop_spec (length s + 2) [] s Hnul)
    as (b & rest' & Hloop & _ & _ & Hb); [lia |].
  exists b, rest'. split; [exact Hloop | exact Hb].
Qed.

Lemma find_ro_opt_iff_witness :
  exists (b : bool) (buf' : list ascii),
    find_ro_opt (lit "rw,nosuid,ro") = Some (b, buf')
    /\ (b = true <-> comma_separated_option (lit "ro") (lit "rw,nosuid,ro")).
Proof.
  apply (find_ro_opt_iff (lit "rw,nosuid,ro")).
  apply (bool_decide_unpack _). vm_compute. exact I.
Defined.

(** X2.  [find_ro_opt] cuts the buffer it searches: after a call on mount
    options without NUL the buffer, of unchanged length, holds as its
    string only the first option, so a second call on the same buffer
    returns true exactly when the first option is "ro". *)
Theorem find_ro_opt_cuts_buffer (s : list ascii) :
  NUL ∉ s ->
  exists (b : bool) (buf' : list ascii),
    find_ro_opt s = Some (b, buf')
    /\ length buf' = length s
    /\ c_str buf' = first_option s
    /\ find_ro_opt buf'
       = Some (bool_decide (first_option s = lit "ro"), buf').
Proof.
  intros Hnul.
  destruct (find_ro_opt_loop_spec (length s + 2) [] s Hnul)
    as (b & rest' & Hloop & Hlen & Hstr & _); [lia |].
  exists b, rest'. split; [exact Hloop |]. split; [exact Hlen |].
  split; [exact Hstr |].
  rewrite <- Hstr. apply find_ro_opt_single.
  rewrite Hstr. apply (strcspn_split s Hnul).
Qed.

Lemma find_ro_opt_cuts_buffer_witness :
  exists (b : bool) (buf' : list ascii),
    find_ro_opt (lit "rw,nosuid,ro") = Some (b, buf')
    /\ length buf' = length (lit "rw,nosuid,ro")
    /\ c_str buf' = first_option (lit "rw,nosuid,ro")
    /\ find_ro_opt buf'
       = Some (bool_decide (first_option (lit "rw,nosuid,ro") = lit "ro"),
               buf').
Proof.
  apply (find_ro_opt_cuts_buffer (lit "rw,nosuid,ro")).
  apply (bool_decide_unpack _). vm_compute. exact I.
Defined.

(** ** set_controller_paths *)

(** [strstr] returns its first argument exactly when the needle starts the
    haystack. *)
Lemma strstr_start (haystack needle : list ascii) :
  strstr haystack needle = Some 0%nat <-> needle `prefix_of` haystack.
Proof.
  destruct haystack as [| c rest]; simpl.
  - case_bool_decide as Hp; [tauto |]. split; [discriminate | contradiction].
  - case_bool_decide as Hp; [tauto |]. split; [| contradiction].
    destruct (strstr rest needle); discriminate.
Qed.

(** X3.  [set_controller_paths] on a controller inside the array touches
    nothing but the mount of that controller: the array keeps its length,
    every other controller and the other fields of this one stay as they
    were, and afterwards the controller has a mount path, its mount being
    either the one it had or the one passed in. *)
Theorem set_controller_paths_frame (cg_infos : list CgroupInfo.t)
  (controller : Z) (name mount_path root_path : list ascii)
  (is_read_only : bool) (info : CgroupInfo.t) :
  0 <= controller ->
  cg_infos !! Z.to_nat controller = Some info ->
  let after :=
    set_controller_paths cg_infos controller name mount_path root_path
      is_read_only in
  length after = length cg_infos
  /\ (forall i : nat, i <> Z.to_nat controller -> after !! i = cg_infos !! i)
  /\ exists info' : CgroupInfo.t,
       after !! Z.to_nat controller = Some info'
       /\ CgroupInfo._name info' = CgroupInfo._name info
       /\ CgroupInfo._hierarchy_id info' = CgroupInfo._hierarchy_id info
       /\ CgroupInfo._enabled info' = CgroupInfo._enabled info
       /\ CgroupInfo._data_complete info' = CgroupInfo._data_complete info
       /\ CgroupInfo._cgroup_path info' = CgroupInfo._cgroup_path info
       /\ is_Some (CgroupInfo._mount_path info')
       /\ (CgroupInfo.mount_of info' = CgroupInfo.mount_of info
           \/ CgroupInfo.mount_of info'
              = (Some mount_path, Some root_path, is_read_only)).
Proof.
  intros Hpos Hinfo after. subst after. unfold set_controller_paths.
  rewrite Hinfo.
  assert (Hlt : (Z.to_nat controller < length cg_infos)%nat)
    by (eapply lookup_lt_Some; exact Hinfo).
  assert (Hnew : forall l : list CgroupInfo.t,
    l = <[Z.to_nat controller :=
            CgroupInfo.assign_paths info mount_path root_path is_read_only]>
          cg_infos ->
    length l = length cg_infos
    /\ (forall i : nat, i <> Z.to_nat controller -> l !! i = cg_infos !! i)
    /\ exists info' : CgroupInfo.t,
         l !! Z.to_nat controller = Some info'
         /\ CgroupInfo._name info' = CgroupInfo._name info
         /\ CgroupInfo._hierarchy_id info' = CgroupInfo._hierarchy_id info
         /\ CgroupInfo._enabled info' = CgroupInfo._enabled info
         /\ CgroupInfo._data_complete info' = CgroupInfo._data_complete info
         /\ CgroupInfo._cgroup_path info' = CgroupInfo._cgroup_path info
         /\ is_Some (CgroupInfo._mount_path info')
         /\ (CgroupInfo.mount_of info' = CgroupInfo.mount_of info
             \/ CgroupInfo.mount_of info'
                = (Some mount_path, Some root_path, is_read_only))).
  { intros l ->. split; [apply length_insert |]. split.
    - intros i Hi. apply list_lookup_insert_ne. congruence.
    - eexists. split; [apply list_lookup_insert_eq, Hlt |].
      simpl. repeat split; eauto. }
  destruct (CgroupInfo._mount_path info) as [existing |] eqn:Hmount.
  - case_bool_decide as Hstr.
    + apply Hnew. reflexivity.
    + split; [reflexivity |]. split; [reflexivity |].
      exists info. rewrite Hmount. repeat split; eauto.
  - apply Hnew. reflexivity.
Qed.

Lemma set_controller_paths_frame_witness :
  let cg_infos :=
    [CgroupInfo.mk None 0 false false None None None false;
     CgroupInfo.mk None 0 false false None None (Some (lit "/mnt/cg")) true] in
  let after :=
    set_controller_paths cg_infos 1 (lit "cpuset") (lit "/sys/fs/cgroup/cpuset")
      (lit "/") false in
  length after = length cg_infos
  /\ (forall i : nat, i <> Z.to_nat 1 -> after !! i = cg_infos !! i)
  /\ exists info' : CgroupInfo.t,
       after !! Z.to_nat 1 = Some info'
       /\ CgroupInfo._name info' = None
       /\ CgroupInfo._hierarchy_id info' = 0
       /\ CgroupInfo._enabled info' = false
       /\ CgroupInfo._data_complete info' = false
       /\ CgroupInfo._cgroup_path info' = None
       /\ is_Some (CgroupInfo._mount_path info')
       /\ (CgroupInfo.mount_of info'
           = (Some (lit "/mnt/cg"), None, true)
           \/ CgroupInfo.mount_of info'
              = (Some (lit "/sys/fs/cgroup/cpuset"), Some (lit "/"), false)).
Proof.
  intros cg_infos.
  apply (set_controller_paths_frame cg_infos 1 (lit "cpuset")
           (lit "/sys/fs/cgroup/cpuset") (lit "/") false
           (CgroupInfo.mk None 0 false false None None
              (Some (lit "/mnt/cg")) true)).
  - lia.
  - reflexivity.
Defined.

Lemma set_controller_paths_keeps_prefix (cg_infos : list CgroupInfo.t)
  (controller : Z) (name mount_path root_path : list ascii)
  (is_read_only : bool) (info : CgroupInfo.t) (existing : list ascii) :
  cg_infos !! Z.to_nat controller = Some info ->
  CgroupInfo._mount_path info = Some existing ->
  lit "/sys/fs/cgroup" `prefix_of` existing ->
  set_controller_paths cg_infos controller name mount_path root_path
    is_read_only
  = cg_infos.
Proof.
  intros Hinfo Hmount Hprefix. unfold set_controller_paths.
  rewrite Hinfo, Hmount.
  rewrite bool_decide_eq_false_2; [reflexivity |].
  intros Hne. apply Hne. apply strstr_start. exact Hprefix.
Qed.

(** X4.  A controller whose mount path starts with "/sys/fs/cgroup" keeps
    its mount: a further call of [set_controller_paths] for it changes
    nothing in the array, whatever mount is passed. *)
Theorem set_controller_paths_keeps_sys_fs_cgroup
  (cg_infos : list CgroupInfo.t) (controller : Z)
  (name mount_path root_path : list ascii) (is_read_only : bool)
  (info : CgroupInfo.t) (existing : list ascii) :
  0 <= controller ->
  cg_infos !! Z.to_nat controller = Some info ->
  CgroupInfo._mount_path info = Some existing ->
  lit "/sys/fs/cgroup" `prefix_of` existing ->
  set_controller_paths cg_infos controller name mount_path root_path
    is_read_only
  = cg_infos.
Proof.
  intros _ Hinfo Hmount Hprefix.
  eapply set_controller_paths_keeps_prefix; eassumption.
Qed.

Lemma set_controller_paths_keeps_sys_fs_cgroup_witness :
  set_controller_paths
    [CgroupInfo.mk None 0 false false None (Some (lit "/"))
       (Some (lit "/sys/fs/cgroup/memory")) false]
    0 (lit "memory") (lit "/mnt/cgroup/memory") (lit "/docker") true
  = [CgroupInfo.mk None 0 false false None (Some (lit "/"))
       (Some (lit "/sys/fs/cgroup/memory")) false].
Proof.
  apply (set_controller_paths_keeps_sys_fs_cgroup _ 0 _ _ _ _
           (CgroupInfo.mk None 0 false false None (Some (lit "/"))
              (Some (lit "/sys/fs/cgroup/memory")) false)
           (lit "/sys/fs/cgroup/memory")).
  - lia.
  - reflexivity.
  - reflexivity.
  - apply (bool_decide_unpack _). vm_compute. exact I.
Defined.

Lemma chosen_skip (current : mount_line) (lines : list mount_line) :
  ~ under_sys_fs_cgroup current ->
  lines <> [] ->
  match list_find under_sys_fs_cgroup (current :: lines) with
  | Some (_, found) => Some found
  | None => last (current :: lines)
  end
  = match list_find under_sys_fs_cgroup lines with
    | Some (_, found) => Some found
    | None => last lines
    end.
Proof.
  intros Hunder Hlines. cbn [list_find]. rewrite decide_False by exact Hunder.
  destruct (list_find under_sys_fs_cgroup lines) as [[i found] |];
    [reflexivity |].
  destruct lines; [contradiction | reflexivity].
Qed.

(** The mount that a sequence of mount lines leaves, the controller having
    the mount of [current] before them. *)
Lemma set_controller_paths_all_from (lines : list mount_line) :
  forall (cg_infos : list CgroupInfo.t) (controller : Z) (name : list ascii)
         (info : CgroupInfo.t) (current : mount_line),
    cg_infos !! Z.to_nat controller = Some info ->
    CgroupInfo.mount_of info
    = (Some current.1.1, Some current.1.2, current.2) ->
    exists (line : mount_line) (info' : CgroupInfo.t),
      match list_find under_sys_fs_cgroup (current :: lines) with
      | Some (_, found) => Some found
      | None => last (current :: lines)
      end = Some line
      /\ set_controller_paths_all cg_infos controller name lines
         !! Z.to_nat controller = Some info'
      /\ CgroupInfo.mount_of info' = (Some line.1.1, Some line.1.2, line.2).
Proof.
  induction lines as [| next lines IH];
    intros cg_infos controller name info current Hinfo Hmount.
  - exists current, info. split; [| split; [exact Hinfo | exact Hmount]].
    cbn. case_decide; reflexivity.
  - destruct next as [[mount_path root_path] is_read_only].
    cbn [set_controller_paths_all foldl].
    change (foldl _ ?infos lines)
      with (set_controller_paths_all infos controller name lines).
    assert (Hexisting : CgroupInfo._mount_path info = Some current.1.1).
    { unfold CgroupInfo.mount_of in Hmount. congruence. }
    destruct (decide (under_sys_fs_cgroup current)) as [Hunder | Hunder].
    + (* the current mount stays *)
      rewrite (set_controller_paths_keeps_prefix cg_infos controller name
                 mount_path root_path is_read_only info current.1.1
                 Hinfo Hexisting Hunder).
      destruct (IH cg_infos controller name info current Hinfo Hmount)
        as (line & info' & Hline & Hlookup & Hmount').
      exists line, info'. split; [| split; assumption].
      cbn in Hline |- *. rewrite decide_True in Hline |- * by exact Hunder.
      exact Hline.
    + (* the current mount is replaced *)
      assert (Hlt : (Z.to_nat controller < length cg_infos)%nat)
        by (eapply lookup_lt_Some; exact Hinfo).
      assert (Hstep :
        set_controller_paths cg_infos controller name mount_path root_path
          is_read_only
        = <[Z.to_nat controller :=
              CgroupInfo.assign_paths info mount_path root_path is_read_only]>
            cg_infos).
      { unfold set_controller_paths. rewrite Hinfo, Hexisting.
        rewrite bool_decide_eq_true_2; [reflexivity |].
        rewrite strstr_start. exact Hunder. }
      rewrite Hstep.
      destruct (IH (<[Z.to_nat controller :=
                         CgroupInfo.assign_paths info mount_path root_path
                           is_read_only]> cg_infos)
                  controller name
                  (CgroupInfo.assign_paths info mount_path root_path
                     is_read_only)
                  (mount_path, root_path, is_read_only))
        as (line & info' & Hline & Hlookup & Hmount').
      * apply list_lookup_insert_eq, Hlt.
      * reflexivity.
      * exists line, info'. split; [| split; assumption].
        rewrite chosen_skip by (exact Hunder || discriminate). exact Hline.
Qed.

(** X5.  Of the mount lines passed for a controller that has no mount path
    yet, [set_controller_paths] keeps the first one whose mount path starts
    with "/sys/fs/cgroup" and, when there is none, the last one; mount
    path, root path and read-only flag all come from that one line. *)
Theorem set_controller_paths_all_picks (cg_infos : list CgroupInfo.t)
  (controller : Z) (name : list ascii) (info : CgroupInfo.t)
  (lines : list mount_line) :
  0 <= controller ->
  cg_infos !! Z.to_nat controller = Some info ->
  CgroupInfo._mount_path info = None ->
  lines <> [] ->
  exists (line : mount_line) (info' : CgroupInfo.t),
    match list_find under_sys_fs_cgroup lines with
    | Some (_, found) => Some found
    | None => last lines
    end = Some line
    /\ set_controller_paths_all cg_infos controller name lines
       !! Z.to_nat controller = Some info'
    /\ CgroupInfo.mount_of info' = (Some line.1.1, Some line.1.2, line.2).
Proof.
  intros _ Hinfo Hnull Hlines.
  destruct lines as [| [[mount_path root_path] is_read_only] lines];
    [congruence |].
  cbn [set_controller_paths_all foldl].
  change (foldl _ ?infos lines)
    with (set_controller_paths_all infos controller name lines).
  assert (Hlt : (Z.to_nat controller < length cg_infos)%nat)
    by (eapply lookup_lt_Some; exact Hinfo).
  assert (Hstep :
    set_controller_paths cg_infos controller name mount_path root_path
      is_read_only
    = <[Z.to_nat controller :=
          CgroupInfo.assign_paths info mount_path root_path is_read_only]>
        cg_infos).
  { unfold set_controller_paths. rewrite Hinfo, Hnull. reflexivity. }
  rewrite Hstep.
  apply (set_controller_paths_all_from lines
           (<[Z.to_nat controller :=
                CgroupInfo.assign_paths info mount_path root_path
                  is_read_only]> cg_infos)
           controller name
           (CgroupInfo.assign_paths info mount_path root_path is_read_only)
           (mount_path, root_path, is_read_only)).
  - apply list_lookup_insert_eq, Hlt.
  - reflexivity.
Qed.

Lemma set_controller_paths_all_picks_witness :
  exists (line : mount_line) (info' : CgroupInfo.t),
    match
      list_find under_sys_fs_cgroup
        [(lit "/mnt/memory", lit "/a", true);
         (lit "/sys/fs/cgroup/memory", lit "/", false);
         (lit "/run/memory", lit "/b", true)]
    with
    | Some (_, found) => Some found
    | None =>
        last [(lit "/mnt/memory", lit "/a", true);
              (lit "/sys/fs/cgroup/memory", lit "/", false);
              (lit "/run/memory", lit "/b", true)]
    end = Some line
    /\ set_controller_paths_all
         [CgroupInfo.mk None 0 false false None None None false]
         0 (lit "memory")
         [(lit "/mnt/memory", lit "/a", true);
          (lit "/sys/fs/cgroup/memory", lit "/", false);
          (lit "/run/memory", lit "/b", true)]
       !! Z.to_nat 0 = Some info'
    /\ CgroupInfo.mount_of info' = (Some line.1.1, Some line.1.2, line.2).
Proof.
  apply (set_controller_paths_all_picks
           [CgroupInfo.mk None 0 false false None None None false]
           0 (lit "memory")
           (CgroupInfo.mk None 0 false false None None None false)).
  - lia.
  - reflexivity.
  - reflexivity.
  - discriminate.
Defined.

(** ** Limits *)

Lemma MIN2_le_l (a b : Z) : MIN2 a b <= a.
Proof. unfold MIN2. destruct (Z.ltb_spec a b); lia. Qed.

Lemma MIN2_cases (a b : Z) : MIN2 a b = a \/ MIN2 a b = b.
Proof. unfold MIN2. destruct (a <? b); auto. Qed.

(** X6.  When the cached metric is due for a check,
    [active_processor_count] never returns more than the number of
    processors the OS reports, whatever the quota computes to; without a
    quota (a quota below zero, a period that is not positive, or a quota
    count of zero) it returns that number; and the value returned is the
    one stored in the cache. *)
Theorem active_processor_count_bounded (quota_over_period : Z -> Z -> Z)
  (cpu_limit : CachedMetric.t) (os_active_processor_count quota period : Z) :
  CachedMetric.should_check_metric cpu_limit = true ->
  let result :=
    active_processor_count quota_over_period cpu_limit
      os_active_processor_count quota period in
  result.1 <= os_active_processor_count
  /\ (result.1 = os_active_processor_count
      \/ result.1 = quota_over_period quota period)
  /\ (quota < 0 \/ period <= 0 \/ quota_over_period quota period = 0 ->
      result.1 = os_active_processor_count)
  /\ result.2 = Some result.1.
Proof.
  intros Hcheck result. subst result. unfold active_processor_count.
  rewrite Hcheck. cbn [negb fst snd].
  split; [apply MIN2_le_l |]. split; [| split; [| reflexivity]].
  - assert (Hself : MIN2 os_active_processor_count os_active_processor_count
                    = os_active_processor_count).
    { unfold MIN2. rewrite Z.ltb_irrefl. reflexivity. }
    destruct ((quota >? -1) && (period >? 0)).
    + destruct (quota_over_period quota period =? 0); cbn [negb];
        [left; exact Hself | apply MIN2_cases].
    + left. exact Hself.
  - intros Hno.
    assert (Hself : MIN2 os_active_processor_count os_active_processor_count
                    = os_active_processor_count).
    { unfold MIN2. rewrite Z.ltb_irrefl. reflexivity. }
    destruct (Z.gtb_spec quota (-1)) as [Hq | Hq]; cbn [andb];
      [| exact Hself].
    destruct (Z.gtb_spec period 0) as [Hp | Hp]; [| exact Hself].
    destruct Hno as [Hno | [Hno | Hno]]; [lia | lia |].
    rewrite Hno. exact Hself.
Qed.

Lemma active_processor_count_bounded_witness :
  let result :=
    active_processor_count (fun quota period => (quota + period - 1) / period)
      (CachedMetric.mk true 0) 8 250000 100000 in
  result.1 <= 8
  /\ (result.1 = 8 \/ result.1 = (250000 + 100000 - 1) / 100000)
  /\ (250000 < 0 \/ 100000 <= 0 \/ (250000 + 100000 - 1) / 100000 = 0 ->
      result.1 = 8)
  /\ result.2 = Some result.1.
Proof.
  apply (active_processor_count_bounded
           (fun quota period => (quota + period - 1) / period)
           (CachedMetric.mk true 0) 8 250000 100000).
  reflexivity.
Defined.

(** X7.  When the cached metric is due for a check,
    [memory_limit_in_bytes] returns either -1 or the limit it read, and the
    latter only when that lies below the physical memory: a limit at or
    above the physical memory comes back as -1, a positive limit below it
    comes back as it is, and the value returned is the one stored in the
    cache. *)
Theorem memory_limit_in_bytes_below_physical (memory_limit : CachedMetric.t)
  (phys_mem read_memory_limit : jlong) :
  CachedMetric.should_check_metric memory_limit = true ->
  let result :=
    memory_limit_in_bytes memory_limit phys_mem read_memory_limit in
  (result.1 = -1 \/ (result.1 = read_memory_limit /\ result.1 < phys_mem))
  /\ (phys_mem <= read_memory_limit -> result.1 = -1)
  /\ (read_memory_limit < phys_mem -> result.1 = read_memory_limit)
  /\ result.2 = Some result.1.
Proof.
  intros Hcheck result. subst result. unfold memory_limit_in_bytes.
  rewrite Hcheck. cbn [negb fst snd].
  destruct (Z.leb_spec read_memory_limit 0) as [H0 | H0];
    destruct (Z.geb_spec read_memory_limit phys_mem) as [Hp | Hp];
    cbn [orb]; repeat split; try lia; auto; right; lia.
Qed.

Lemma memory_limit_in_bytes_below_physical_witness :
  let result := memory_limit_in_bytes (CachedMetric.mk true 0) 1000 5000 in
  (result.1 = -1 \/ (result.1 = 5000 /\ result.1 < 1000))
  /\ (1000 <= 5000 -> result.1 = -1)
  /\ (5000 < 1000 -> result.1 = 5000)
  /\ result.2 = Some result.1.
Proof.
  apply (memory_limit_in_bytes_below_physical (CachedMetric.mk true 0)
           1000 5000).
  reflexivity.
Defined.

(** X8.  [limit_from_str] converts the number it scans to [jlong]: a limit
    below 2^63 comes back as it is, and a limit from 2^63 on comes back
    negative, as the limit minus 2^64; so the largest [julong] comes back
    as -1, the value that the string "max" gives. *)
Theorem limit_from_str_wraps (OSCONTAINER_ERROR : jlong)
  (sscanf_julong : list ascii -> option Z) (s : list ascii) (limit : Z) :
  NUL ∉ s ->
  s <> lit "max" ->
  sscanf_julong s = Some limit ->
  0 <= limit < 2 ^ 64 ->
  let result := limit_from_str OSCONTAINER_ERROR sscanf_julong (Some s) in
  (limit < 2 ^ 63 -> result = limit)
  /\ (2 ^ 63 <= limit -> result = limit - 2 ^ 64 /\ result < 0)
  /\ (limit = 2 ^ 64 - 1 ->
      result
      = limit_from_str OSCONTAINER_ERROR sscanf_julong (Some (lit "max"))).
Proof.
  intros Hnul Hmax Hscan Hrange result. subst result. unfold limit_from_str.
  assert (Hcmp : (strcmp (lit "max") s =? 0) = false).
  { apply Z.eqb_neq. intros Hz. apply Hmax. symmetry.
    apply strcmp_eq; [| exact Hnul | exact Hz].
    apply (bool_decide_unpack _). vm_compute. exact I. }
  rewrite Hcmp, Hscan. unfold static_cast_jlong.
  split; [| split].
  - intros Hlt. rewrite Z.mod_small by lia. lia.
  - intros Hge.
    replace (limit + 2 ^ 63) with (limit - 2 ^ 63 + 1 * 2 ^ 64) by lia.
    rewrite Z.mod_add by lia. rewrite Z.mod_small by lia. lia.
  - intros ->. reflexivity.
Qed.

Lemma limit_from_str_wraps_witness :
  let result :=
    limit_from_str (-2)
      (fun s => if bool_decide (s = lit "18446744073709551615")
                then Some (2 ^ 64 - 1) else None)
      (Some (lit "18446744073709551615")) in
  (2 ^ 64 - 1 < 2 ^ 63 -> result = 2 ^ 64 - 1)
  /\ (2 ^ 63 <= 2 ^ 64 - 1 -> result = 2 ^ 64 - 1 - 2 ^ 64 /\ result < 0)
  /\ (2 ^ 64 - 1 = 2 ^ 64 - 1 ->
      result
      = limit_from_str (-2)
          (fun s => if bool_decide (s = lit "18446744073709551615")
                    then Some (2 ^ 64 - 1) else None)
          (Some (lit "max"))).
Proof.
  apply (limit_from_str_wraps (-2)
           (fun s => if bool_decide (s = lit "18446744073709551615")
                     then Some (2 ^ 64 - 1) else None)
           (lit "18446744073709551615") (2 ^ 64 - 1)).
  - apply (bool_decide_unpack _). vm_compute. exact I.
  - discriminate.
  - reflexivity.
  - lia.
Defined.

(** ** determine_type *)

Lemma returns_Done {A : Type} (a : A) (Q : A -> Prop) :
  Q a -> returns (Done a) Q.
Proof. intros HQ. exists a. split; [reflexivity | exact HQ]. Qed.

Lemma returns_bind {A B : Type} (r : run A) (k : A -> run B)
  (P : A -> Prop) (Q : B -> Prop) :
  returns r P -> (forall a, P a -> returns (k a) Q) ->
  returns (run_bind r k) Q.
Proof.
  intros (a & -> & HP) Hk. simpl. apply Hk. exact HP.
Qed.

Lemma returns_weaken {A : Type} (r : run A) (P Q : A -> Prop) :
  returns r P -> (forall a, P a -> Q a) -> returns r Q.
Proof. intros (a & -> & HP) HPQ. exists a. split; [reflexivity | auto]. Qed.

Lemma returns_ensures {A : Type} (r : run A) (Q : A -> Prop) :
  returns r Q -> ensures r Q.
Proof. intros (a & -> & HQ) a' [= <-]. exact HQ. Qed.

Lemma ensures_Done {A : Type} (a : A) (Q : A -> Prop) :
  Q a -> ensures (Done a) Q.
Proof. intros HQ a' [= <-]. exact HQ. Qed.

Lemma ensures_bind {A B : Type} (r : run A) (k : A -> run B)
  (P : A -> Prop) (Q : B -> Prop) :
  ensures r P -> (forall a, P a -> ensures (k a) Q) ->
  ensures (run_bind r k) Q.
Proof.
  intros Hr Hk b. destruct r as [a | |]; simpl; try discriminate.
  apply Hk, Hr. reflexivity.
Qed.

Lemma ensures_weaken {A : Type} (r : run A) (P Q : A -> Prop) :
  ensures r P -> (forall a, P a -> Q a) -> ensures r Q.
Proof. intros Hr HPQ a Ha. apply HPQ, Hr, Ha. Qed.

Lemma for_each_line_returns {S : Type} (body : S -> list ascii -> run S)
  (I : S -> Prop) (lines : list (list ascii)) (s : S) :
  (forall s p, p ∈ lines -> I s -> returns (body s p) I) ->
  I s -> returns (for_each_line body s lines) I.
Proof.
  revert s. induction lines as [| p rest IH]; intros s Hbody HI; simpl.
  - apply returns_Done, HI.
  - apply (returns_bind _ _ I).
    + apply Hbody; [apply list_elem_of_here | exact HI].
    + intros s' HI'. apply IH; [| exact HI'].
      intros s0 p0 Hp0. apply Hbody. apply list_elem_of_further, Hp0.
Qed.

Lemma for_each_line_ensures {S : Type} (body : S -> list ascii -> run S)
  (I : S -> Prop) (lines : list (list ascii)) (s : S) :
  (forall s p, p ∈ lines -> I s -> ensures (body s p) I) ->
  I s -> ensures (for_each_line body s lines) I.
Proof.
  revert s. induction lines as [| p rest IH]; intros s Hbody HI; simpl.
  - apply ensures_Done, HI.
  - apply (ensures_bind _ _ I).
    + apply Hbody; [apply list_elem_of_here | exact HI].
    + intros s' HI'. apply IH; [| exact HI'].
      intros s0 p0 Hp0. apply Hbody. apply list_elem_of_further, Hp0.
Qed.

(** [strsep] keeps the length of the buffer, and a pointer that it
    advances stays within the buffer. *)
Lemma strsep_shape (buf : list ascii) (p : nat) (delim : list ascii) :
  exists buf' q,
    strsep buf (Some p) delim = (Some p, buf', q)
    /\ length buf' = length buf
    /\ (q = None
        \/ exists e, q = Some (S e) /\ (p <= e < length buf)%nat
                     /\ buf' = <[e := NUL]> buf).
Proof.
  unfold strsep.
  destruct (buf !! (p + strcspn (drop p buf) delim)%nat) as [c |] eqn:Hc.
  - case_bool_decide.
    + exists buf, None. auto.
    + eexists _, _. split; [reflexivity |]. split; [apply length_insert |].
      right. eexists. split; [reflexivity |].
      apply lookup_lt_Some in Hc. split; [lia | reflexivity].
  - exists buf, None. auto.
Qed.

(** When the fuel covers what is left of the buffer, the loop over the
    tokens ends as soon as its body does. *)
Lemma for_each_token_returns {S : Type}
  (body : list ascii -> nat -> S -> run S) (I : S -> Prop)
  (delim : list ascii) (fuel : nat) (buf : list ascii) (ptr : option nat)
  (s : S) :
  (forall buf token s, I s -> returns (body buf token s) I) ->
  match ptr with
  | Some p => (p <= length buf /\ length buf + 2 <= fuel + p)%nat
  | None => (1 <= fuel)%nat
  end ->
  I s ->
  returns (for_each_token fuel body buf ptr delim s)
    (fun r => I r.1 /\ length r.2 = length buf).
Proof.
  intros Hbody. revert buf ptr s.
  induction fuel as [| fuel IH]; intros buf ptr s Hfuel HI.
  - destruct ptr; lia.
  - destruct ptr as [p |]; cbn [for_each_token].
    + destruct (strsep_shape buf p delim) as (buf' & q & -> & Hlen & Hq).
      apply (returns_bind _ _ I); [apply Hbody, HI |].
      intros s' HI'. rewrite <- Hlen. apply IH; [| exact HI'].
      destruct Hq as [-> | (e & -> & He & _)]; lia.
    + apply returns_Done. auto.
Qed.

Lemma for_each_token_ensures {S : Type}
  (body : list ascii -> nat -> S -> run S) (I : S -> Prop)
  (delim : list ascii) (fuel : nat) (buf : list ascii) (ptr : option nat)
  (s : S) :
  (forall buf token s, I s -> ensures (body buf token s) I) ->
  I s ->
  ensures (for_each_token fuel body buf ptr delim s) (fun r => I r.1).
Proof.
  intros Hbody. revert buf ptr s.
  induction fuel as [| fuel IH]; intros buf ptr s HI; [discriminate |].
  cbn [for_each_token].
  destruct (strsep buf ptr delim) as [[[token |] buf'] ptr'].
  - apply (ensures_bind _ _ I); [apply Hbody, HI |].
    intros s' HI'. apply IH, HI'.
  - apply ensures_Done, HI.
Qed.

(** [find_ro_opt] ends on every buffer. *)
Lemma find_ro_opt_loop_returns (fuel : nat) (buf : list ascii)
  (p : nat) :
  (p <= length buf)%nat -> (length buf + 2 <= fuel + p)%nat ->
  exists r, find_ro_opt_loop fuel buf (Some p) = Some r.
Proof.
  revert buf p. induction fuel as [| fuel IH]; intros buf p Hp Hfuel; [lia |].
  cbn [find_ro_opt_loop].
  destruct (strsep_shape buf p (lit ",")) as (buf' & q & -> & Hlen & Hq).
  destruct (strcmp _ _ =? 0); [eauto |].
  destruct Hq as [-> | (e & -> & He & _)].
  - destruct fuel; [lia |]. simpl. eauto.
  - apply IH; lia.
Qed.

Lemma call_find_ro_opt_returns (mount_opts : list ascii) :
  returns (call_find_ro_opt mount_opts) (fun _ => True).
Proof.
  unfold call_find_ro_opt, find_ro_opt.
  destruct (find_ro_opt_loop_returns (length mount_opts + 2) mount_opts 0)
    as [r ->]; [lia | lia |].
  apply returns_Done. exact I.
Qed.

(** Accesses to [cg_infos] within the array. *)
Lemma info_at_returns (cg_infos : list CgroupInfo.t) (i : Z) :
  0 <= i < Z.of_nat (length cg_infos) ->
  returns (info_at cg_infos i)
    (fun info => cg_infos !! Z.to_nat i = Some info).
Proof.
  intros Hi. unfold info_at.
  rewrite bool_decide_eq_true_2 by lia.
  destruct (lookup_lt_is_Some_2 cg_infos (Z.to_nat i)) as [info Hinfo];
    [lia |].
  rewrite Hinfo. apply returns_Done. reflexivity.
Qed.

Lemma info_at_ensures (cg_infos : list CgroupInfo.t) (i : Z) :
  ensures (info_at cg_infos i)
    (fun info => cg_infos !! Z.to_nat i = Some info).
Proof.
  unfold info_at. intros info. case_bool_decide; [| discriminate].
  destruct (cg_infos !! Z.to_nat i); [| discriminate].
  intros [= <-]. reflexivity.
Qed.

Lemma update_at_returns (cg_infos : list CgroupInfo.t) (i : Z)
  (f : CgroupInfo.t -> CgroupInfo.t) :
  0 <= i < Z.of_nat (length cg_infos) ->
  returns (update_at cg_infos i f)
    (fun out => exists info, cg_infos !! Z.to_nat i = Some info
                             /\ out = <[Z.to_nat i := f info]> cg_infos).
Proof.
  intros Hi. unfold update_at.
  apply (returns_bind _ _ _ _ (info_at_returns _ _ Hi)).
  intros info Hinfo. apply returns_Done. eauto.
Qed.

Lemma update_at_ensures (cg_infos : list CgroupInfo.t) (i : Z)
  (f : CgroupInfo.t -> CgroupInfo.t) :
  ensures (update_at cg_infos i f)
    (fun out => exists info, cg_infos !! Z.to_nat i = Some info
                             /\ out = <[Z.to_nat i := f info]> cg_infos).
Proof.
  unfold update_at.
  apply (ensures_bind _ _ _ _ (info_at_ensures _ _)).
  intros info Hinfo. apply ensures_Done. eauto.
Qed.

Lemma controller_index_range (name : list ascii) (idx : Z) :
  controller_index name = Some idx -> 0 <= idx < CG_INFO_LENGTH.
Proof.
  unfold controller_index, CG_INFO_LENGTH, MEMORY_IDX, CPUSET_IDX, CPU_IDX,
    CPUACCT_IDX, PIDS_IDX.
  repeat destruct (strcmp _ _ =? 0); intros [= <-]; lia.
Qed.

Section determine_type_properties.
Context `{CgroupTypeFlags} `{Scanners}.

(** The loop over the controllers, on an array of five. *)
Lemma required_controllers_five (a b c d e : CgroupInfo.t) :
  required_controllers (Z.to_nat CG_INFO_LENGTH) 0 [a; b; c; d; e] true true
  = Done ((CgroupInfo._hierarchy_id a =? 0)
          && (CgroupInfo._hierarchy_id b =? 0)
          && (CgroupInfo._hierarchy_id c =? 0)
          && (CgroupInfo._hierarchy_id d =? 0),
          CgroupInfo._enabled a && CgroupInfo._enabled b
          && CgroupInfo._enabled c && CgroupInfo._enabled d).
Proof. reflexivity. Qed.

Lemma five_elements {A : Type} (l : list A) :
  length l = 5%nat -> exists a b c d e, l = [a; b; c; d; e].
Proof.
  destruct l as [| a [| b [| c [| d [| e [| f l]]]]]]; try discriminate.
  eauto 6.
Qed.

Lemma required_index (idx : Z) :
  idx ∈ required_controller_indices ->
  idx = 0 \/ idx = 1 \/ idx = 2 \/ idx = 3.
Proof.
  unfold required_controller_indices, CPU_IDX, CPUSET_IDX, CPUACCT_IDX,
    MEMORY_IDX.
  rewrite !elem_of_cons, elem_of_nil. tauto.
Qed.

(** A line of /proc/cgroups leaves a controller disabled that it does not
    name with [enabled] at 1. *)
Lemma proc_cgroups_line_disabled (cg_infos : list CgroupInfo.t)
  (p : list ascii) (idx : Z) :
  length cg_infos = 5%nat -> 0 <= idx ->
  controller_has cg_infos idx (fun info => CgroupInfo._enabled info = false) ->
  (forall name hierarchy_id,
     sscanf_cgroups p = Some (name, hierarchy_id, 1) ->
     controller_index name <> Some idx) ->
  returns (proc_cgroups_line cg_infos p)
    (fun out =>
       length out = 5%nat
       /\ controller_has out idx
            (fun info => CgroupInfo._enabled info = false)).
Proof.
  intros Hlen Hidx (info & Hinfo & Hoff) Hline. unfold proc_cgroups_line.
  destruct (sscanf_cgroups p) as [[[name hierarchy_id] enabled] |] eqn:Hscan;
    [| apply returns_Done; split; [exact Hlen | exists info; auto]].
  destruct (controller_index name) as [i |] eqn:Hi;
    [| apply returns_Done; split; [exact Hlen | exists info; auto]].
  pose proof (controller_index_range _ _ Hi) as Hrange.
  unfold CG_INFO_LENGTH in Hrange.
  eapply returns_weaken; [apply update_at_returns; lia |].
  intros out (old & Hold & ->). rewrite length_insert.
  split; [exact Hlen |].
  destruct (decide (i = idx)) as [-> | Hne].
  - eexists. split; [apply list_lookup_insert_eq; lia |].
    simpl. apply bool_decide_eq_false_2. intros ->.
    exact (Hline _ _ eq_refl Hi).
  - exists info. split; [| exact Hoff].
    rewrite list_lookup_insert_ne by lia. exact Hinfo.
Qed.

(** X16. A required controller (cpu, cpuset, cpuacct or memory) that is
    not enabled in the array passed in, and that no line of /proc/cgroups
    names with [enabled] at 1, makes [determine_type] answer [false] with
    INVALID_CGROUPS_GENERIC, whatever the other two files hold. *)
Theorem determine_type_requires_enabled (cg_infos : list CgroupInfo.t)
  (cgroups : list (list ascii))
  (proc_self_cgroup proc_self_mountinfo : option (list (list ascii)))
  (idx : Z) :
  length cg_infos = 5%nat ->
  idx ∈ required_controller_indices ->
  controller_has cg_infos idx (fun info => CgroupInfo._enabled info = false) ->
  (forall p name hierarchy_id,
     p ∈ cgroups ->
     sscanf_cgroups p = Some (name, hierarchy_id, 1) ->
     controller_index name <> Some idx) ->
  determine_type cg_infos (Some cgroups) proc_self_cgroup proc_self_mountinfo
  = Done (Invalid INVALID_CGROUPS_GENERIC).
Proof.
  intros Hlen Hidx Hoff Hlines. unfold determine_type.
  pose proof (required_index idx Hidx) as Hcases.
  destruct (for_each_line_returns proc_cgroups_line
              (fun out => length out = 5%nat
                 /\ controller_has out idx
                      (fun info => CgroupInfo._enabled info = false))
              cgroups cg_infos) as (out & -> & Hout & info & Hinfo & Hdis).
  - intros s p Hp [Hs Hs']. apply proc_cgroups_line_disabled; try assumption.
    + lia.
    + intros name hierarchy_id. apply Hlines, Hp.
  - split; assumption.
  - cbn [run_bind].
    destruct (five_elements out Hout) as (a & b & c & d & e & ->).
    rewrite required_controllers_five. cbn [run_bind].
    assert (CgroupInfo._enabled a && CgroupInfo._enabled b
            && CgroupInfo._enabled c && CgroupInfo._enabled d = false)
      as ->; [| reflexivity].
    destruct Hcases as [-> | [-> | [-> | ->]]]; simpl in Hinfo;
      injection Hinfo as <-; rewrite Hdis;
      repeat (rewrite ?andb_false_r, ?andb_false_l); reflexivity.
Qed.

(** *** The run ends *)

Lemma colon_not_NUL : ":"%char <> NUL.
Proof. discriminate. Qed.

(** Where [strcspn] stops when the string has a byte of [c0]. *)
Lemma strcspn_found (s : list ascii) (c0 : ascii) :
  c0 <> NUL -> c0 ∈ c_str s ->
  s !! strcspn s [c0] = Some c0
  /\ filter (fun c => c = c0) (c_str s)
     = c0 :: filter (fun c => c = c0) (c_str (drop (S (strcspn s [c0])) s)).
Proof.
  intros Hc0. induction s as [| c s IH]; intros Hin.
  - apply elem_of_nil in Hin as [].
  - cbn [c_str strcspn] in *.
    destruct (decide (c = NUL)) as [Hnul | Hnul].
    { rewrite bool_decide_eq_true_2 in Hin by exact Hnul.
      apply elem_of_nil in Hin as []. }
    rewrite (bool_decide_eq_false_2 (c = NUL)) in Hin by exact Hnul.
    rewrite (bool_decide_eq_false_2 (c = NUL)) by exact Hnul.
    cbn [orb].
    destruct (decide (c = c0)) as [-> | Hne].
    + rewrite bool_decide_eq_true_2 by apply list_elem_of_here.
      split; [reflexivity |].
      rewrite filter_cons_True by reflexivity. reflexivity.
    + rewrite bool_decide_eq_false_2
        by (rewrite list_elem_of_singleton; exact Hne).
      apply elem_of_cons in Hin as [-> | Hin]; [congruence |].
      destruct (IH Hin) as [Hlook Hfilter]. split; [exact Hlook |].
      rewrite filter_cons_False by exact Hne. exact Hfilter.
Qed.

Lemma colons_positive (buf : list ascii) :
  (1 <= colons buf)%nat -> ":"%char ∈ c_str buf.
Proof.
  unfold colons. intros Hn.
  destruct (filter (fun c => c = ":"%char) (c_str buf)) as [| c l] eqn:Hf;
    [simpl in Hn; lia |].
  assert (c ∈ filter (fun c => c = ":"%char) (c_str buf)) as Hc
    by (rewrite Hf; apply list_elem_of_here).
  apply list_elem_of_filter in Hc as [-> Hc]. exact Hc.
Qed.

(** [strsep] at a colon: the colon becomes a NUL, the pointer moves past
    it, and what follows has one colon less. *)
Lemma strsep_colon (buf : list ascii) (p : nat) :
  (1 <= colons (drop p buf))%nat ->
  exists e,
    strsep buf (Some p) (lit ":") = (Some p, <[e := NUL]> buf, Some (S e))
    /\ (p <= e < length buf)%nat
    /\ colons (drop p buf) = S (colons (drop (S e) (<[e := NUL]> buf))).
Proof.
  intros Hn.
  destruct (strcspn_found (drop p buf) ":"%char colon_not_NUL
              (colons_positive _ Hn)) as [Hlook Hfilter].
  exists (p + strcspn (drop p buf) [":"%char])%nat.
  rewrite lookup_drop in Hlook.
  unfold strsep. change (lit ":") with [":"%char]. rewrite Hlook.
  rewrite bool_decide_eq_false_2 by exact colon_not_NUL.
  split; [reflexivity |].
  split; [apply lookup_lt_Some in Hlook; lia |].
  rewrite drop_insert_lt by lia.
  unfold colons. rewrite Hfilter. cbn [length].
  rewrite drop_drop.
  replace (S (p + strcspn (drop p buf) [":"%char]))
    with (p + S (strcspn (drop p buf) [":"%char]))%nat by lia.
  reflexivity.
Qed.

Lemma set_controller_paths_length (cg_infos : list CgroupInfo.t)
  (controller : Z) (name mount_path root_path : list ascii)
  (is_read_only : bool) :
  length (set_controller_paths cg_infos controller name mount_path root_path
            is_read_only)
  = length cg_infos.
Proof.
  unfold set_controller_paths.
  destruct (cg_infos !! Z.to_nat controller) as [info |]; [| reflexivity].
  destruct (CgroupInfo._mount_path info); [case_bool_decide |];
    rewrite ?length_insert; reflexivity.
Qed.

Lemma proc_cgroups_line_returns (cg_infos : list CgroupInfo.t)
  (p : list ascii) :
  length cg_infos = 5%nat ->
  returns (proc_cgroups_line cg_infos p) (fun out => length out = 5%nat).
Proof.
  intros Hlen. unfold proc_cgroups_line.
  destruct (sscanf_cgroups p) as [[[name hierarchy_id] enabled] |];
    [| apply returns_Done, Hlen].
  destruct (controller_index name) as [i |] eqn:Hi;
    [| apply returns_Done, Hlen].
  pose proof (controller_index_range _ _ Hi) as Hrange.
  unfold CG_INFO_LENGTH in Hrange.
  eapply returns_weaken; [apply update_at_returns; lia |].
  intros out (old & _ & ->). rewrite length_insert. exact Hlen.
Qed.

Lemma self_cgroup_token_returns (cgroup_path : nat) (buf : list ascii)
  (token : nat) (cg_infos : list CgroupInfo.t) :
  length cg_infos = 5%nat ->
  returns (self_cgroup_token (Some cgroup_path) buf token cg_infos)
    (fun out => length out = 5%nat).
Proof.
  intros Hlen. unfold self_cgroup_token.
  destruct (controller_index _) as [i |] eqn:Hi;
    [| apply returns_Done, Hlen].
  pose proof (controller_index_range _ _ Hi) as Hrange.
  unfold CG_INFO_LENGTH in Hrange. cbn [os_strdup string_at run_bind].
  eapply returns_weaken; [apply update_at_returns; lia |].
  intros out (old & _ & ->). rewrite length_insert. exact Hlen.
Qed.

Lemma set_cgroup_path_each_returns (n : nat) (i : Z) (buf : list ascii)
  (cgroup_path : nat) (cg_infos : list CgroupInfo.t) :
  0 <= i -> i + Z.of_nat n <= 5 -> length cg_infos = 5%nat ->
  returns (set_cgroup_path_each n i buf (Some cgroup_path) cg_infos)
    (fun out => length out = 5%nat).
Proof.
  revert i cg_infos. induction n as [| n IH]; intros i cg_infos Hi Hn Hlen.
  - apply returns_Done, Hlen.
  - cbn [set_cgroup_path_each os_strdup string_at run_bind].
    eapply returns_bind; [apply update_at_returns; lia |].
    intros out (old & _ & ->). apply IH; [lia | lia |].
    rewrite length_insert. exact Hlen.
Qed.

(** A line of /proc/self/cgroup with two colons is read without a null
    pointer. *)
Lemma proc_self_cgroup_line_returns (is_cgroupsV2 : bool)
  (cg_infos : list CgroupInfo.t) (buf : list ascii) :
  length cg_infos = 5%nat -> (2 <= colons buf)%nat ->
  returns (proc_self_cgroup_line is_cgroupsV2 cg_infos buf)
    (fun out => length out = 5%nat).
Proof.
  intros Hlen Hcolons. unfold proc_self_cgroup_line.
  destruct (strsep_colon buf 0) as (e1 & -> & He1 & Hc1);
    [rewrite drop_0; lia |].
  rewrite drop_0 in Hc1. cbn [string_at run_bind].
  destruct (strsep_colon (<[e1 := NUL]> buf) (S e1)) as (e2 & -> & He2 & Hc2);
    [lia |].
  rewrite length_insert in He2.
  destruct (strsep_shape (<[e2 := NUL]> (<[e1 := NUL]> buf)) (S e2) newline)
    as (buf3 & q & -> & Hlen3 & _).
  rewrite !length_insert in Hlen3.
  destruct is_cgroupsV2; cbn [negb run_bind].
  - destruct (negb (atoi _ =? 0)); [apply returns_Done, Hlen |].
    apply set_cgroup_path_each_returns; [lia | reflexivity | exact Hlen].
  - eapply returns_bind.
    + apply (for_each_token_returns _ (fun out => length out = 5%nat)).
      * intros buf' token s. apply self_cgroup_token_returns.
      * lia.
      * exact Hlen.
    + intros [out buf4] [Hout _]. apply returns_Done, Hout.
Qed.

Lemma call_set_controller_paths_returns (cg_infos : list CgroupInfo.t)
  (controller : Z) (name mount_path root_path : list ascii)
  (is_read_only : bool) :
  length cg_infos = 5%nat -> 0 <= controller < 5 ->
  returns (call_set_controller_paths cg_infos controller name mount_path
             root_path is_read_only)
    (fun out => length out = 5%nat).
Proof.
  intros Hlen Hc. unfold call_set_controller_paths.
  eapply returns_bind; [apply info_at_returns; lia |].
  intros info _. apply returns_Done.
  rewrite set_controller_paths_length. exact Hlen.
Qed.

Lemma set_controller_paths_each_returns (n : nat) (i : Z)
  (tmpmount tmproot : list ascii) (ro_opt : bool)
  (cg_infos : list CgroupInfo.t) :
  0 <= i -> i + Z.of_nat n <= 5 -> length cg_infos = 5%nat ->
  returns (set_controller_paths_each n i tmpmount tmproot ro_opt cg_infos)
    (fun out => length out = 5%nat).
Proof.
  revert i cg_infos. induction n as [| n IH]; intros i cg_infos Hi Hn Hlen.
  - apply returns_Done, Hlen.
  - cbn [set_controller_paths_each].
    eapply returns_bind;
      [apply call_set_controller_paths_returns; [exact Hlen | lia] |].
    intros out Hout. apply IH; [lia | lia | exact Hout].
Qed.

Lemma mountinfo_token_returns (tmpmount tmproot tmpcgroups : list ascii)
  (token : nat) (s : mount_state) :
  length s.1.1 = 5%nat ->
  returns (mountinfo_token tmpmount tmproot tmpcgroups token s)
    (fun s' => length s'.1.1 = 5%nat).
Proof.
  destruct s as [[cg_infos any] mount_opts]. cbn [fst]. intros Hlen.
  unfold mountinfo_token.
  destruct (controller_index _) as [i |] eqn:Hi;
    [| apply returns_Done, Hlen].
  pose proof (controller_index_range _ _ Hi) as Hrange.
  unfold CG_INFO_LENGTH in Hrange.
  eapply returns_bind; [apply call_find_ro_opt_returns |].
  intros [ro_opt mount_opts'] _.
  eapply returns_bind;
    [apply call_set_controller_paths_returns; [exact Hlen | lia] |].
  intros out Hout. cbv beta in Hout.
  eapply returns_bind; [apply update_at_returns; lia |].
  intros out' (old & _ & ->). apply returns_Done. cbn [fst].
  rewrite length_insert. exact Hout.
Qed.

Lemma proc_self_mountinfo_line_returns (is_cgroupsV2 : bool)
  (s : mountinfo_state) (p : list ascii) :
  length s.1.1 = 5%nat ->
  returns (proc_self_mountinfo_line is_cgroupsV2 s p)
    (fun s' => length s'.1.1 = 5%nat).
Proof.
  intros Hlen. unfold proc_self_mountinfo_line.
  eapply (returns_bind _ _ (fun s' => length s'.1.1 = 5%nat)).
  - destruct is_cgroupsV2; [| apply returns_Done, Hlen].
    destruct (sscanf_cgroup2_mount p)
      as [[[[tmproot tmpmount] mount_opts] tmp_fs_type] |];
      [| apply returns_Done, Hlen].
    destruct (strcmp _ _ =? 0); [| apply returns_Done, Hlen].
    eapply returns_bind; [apply call_find_ro_opt_returns |].
    intros found _.
    eapply returns_bind;
      [apply set_controller_paths_each_returns;
       [lia | reflexivity | exact Hlen] |].
    intros out Hout. apply returns_Done, Hout.
  - intros s1 Hlen1.
    destruct (sscanf_cgroup_mount p)
      as [[[[[tmproot tmpmount] mount_opts] tmp_fs_type] tmpcgroups] |];
      [| apply returns_Done, Hlen1].
    destruct (negb _); [apply returns_Done, Hlen1 |].
    eapply returns_bind.
    + apply (for_each_token_returns _ (fun s' => length s'.1.1 = 5%nat)).
      * intros buf token s0. apply mountinfo_token_returns.
      * lia.
      * exact Hlen1.
    + intros [s' buf'] [Hs' _]. apply returns_Done, Hs'.
Qed.

Lemma v1_verdict_returns (cg_infos : list CgroupInfo.t) :
  length cg_infos = 5%nat -> exists v, v1_verdict cg_infos = Done v.
Proof.
  intros Hlen. destruct (five_elements _ Hlen) as (a & b & c & d & e & ->).
  unfold v1_verdict. cbn [info_at run_bind]. simpl.
  repeat (destruct (negb _); [eauto |]). eauto.
Qed.

(** X17. On an array of five controllers, [determine_type] ends with an
    answer, without reading outside the array or through a null pointer,
    when every line of /proc/self/cgroup has two colons. *)
Theorem determine_type_returns (cg_infos : list CgroupInfo.t)
  (proc_cgroups proc_self_cgroup proc_self_mountinfo
     : option (list (list ascii))) :
  length cg_infos = 5%nat ->
  (forall lines p,
     proc_self_cgroup = Some lines -> p ∈ lines -> (2 <= colons p)%nat) ->
  exists v,
    determine_type cg_infos proc_cgroups proc_self_cgroup proc_self_mountinfo
    = Done v.
Proof.
  intros Hlen Hcolons. unfold determine_type.
  destruct proc_cgroups as [cgroups |]; [| eauto].
  destruct (for_each_line_returns proc_cgroups_line
              (fun out => length out = 5%nat) cgroups cg_infos)
    as (cg1 & -> & Hlen1).
  { intros s p _. apply proc_cgroups_line_returns. }
  { exact Hlen. }
  cbn [run_bind].
  destruct (five_elements _ Hlen1) as (a & b & c & d & e & ->).
  rewrite required_controllers_five. cbn [run_bind].
  destruct (negb _); [eauto |].
  destruct proc_self_cgroup as [cgroup |]; [| eauto].
  destruct (for_each_line_returns
              (proc_self_cgroup_line
                 ((CgroupInfo._hierarchy_id a =? 0)
                  && (CgroupInfo._hierarchy_id b =? 0)
                  && (CgroupInfo._hierarchy_id c =? 0)
                  && (CgroupInfo._hierarchy_id d =? 0)))
              (fun out => length out = 5%nat) cgroup [a; b; c; d; e])
    as (cg2 & -> & Hlen2).
  { intros s p Hp Hs. apply proc_self_cgroup_line_returns; [exact Hs |].
    exact (Hcolons _ _ eq_refl Hp). }
  { reflexivity. }
  cbn [run_bind].
  destruct proc_self_mountinfo as [mntinfo |]; [| eauto].
  destruct (for_each_line_returns
              (proc_self_mountinfo_line
                 ((CgroupInfo._hierarchy_id a =? 0)
                  && (CgroupInfo._hierarchy_id b =? 0)
                  && (CgroupInfo._hierarchy_id c =? 0)
                  && (CgroupInfo._hierarchy_id d =? 0)))
              (fun s => length s.1.1 = 5%nat) mntinfo (cg2, false, false))
    as ([[cg3 found] any] & -> & Hlen3).
  { intros s p _. apply proc_self_mountinfo_line_returns. }
  { exact Hlen2. }
  cbn [run_bind]. cbn [fst] in Hlen3.
  destruct (negb any); [eauto |].
  destruct (_ && _); [destruct (negb found); eauto |].
  apply v1_verdict_returns, Hlen3.
Qed.

(** *** What a successful run leaves in the array *)

Lemma evolves_refl (a : CgroupInfo.t) : evolves a a.
Proof. unfold evolves. tauto. Qed.

Lemma evolves_trans (a b c : CgroupInfo.t) :
  evolves a b -> evolves b c -> evolves a c.
Proof.
  unfold evolves. intros (-> & -> & ? & ?) (-> & -> & ? & ?). tauto.
Qed.

Lemma evolves_all_refl (l : list CgroupInfo.t) : Forall2 evolves l l.
Proof. induction l; constructor; [apply evolves_refl | assumption]. Qed.

Lemma evolves_all_trans (l k m : list CgroupInfo.t) :
  Forall2 evolves l k -> Forall2 evolves k m -> Forall2 evolves l m.
Proof.
  intros Hlk. revert m. induction Hlk as [| a b l k Hab Hlk IH]; intros m Hkm.
  - inversion Hkm. constructor.
  - inversion Hkm as [| b' c k' m' Hbc Hkm']; subst.
    constructor; [exact (evolves_trans _ _ _ Hab Hbc) | apply IH, Hkm'].
Qed.

Lemma evolves_insert (cg_infos : list CgroupInfo.t) (i : nat)
  (info x : CgroupInfo.t) :
  cg_infos !! i = Some info -> evolves info x ->
  Forall2 evolves cg_infos (<[i := x]> cg_infos).
Proof.
  revert i. induction cg_infos as [| a l IH]; intros [| i] Hi Hx;
    try discriminate; simpl in *.
  - injection Hi as ->. constructor; [exact Hx | apply evolves_all_refl].
  - constructor; [apply evolves_refl | apply IH; assumption].
Qed.

Lemma evolves_all_mounted (l k : list CgroupInfo.t) :
  Forall2 evolves l k -> Forall mounted l -> Forall mounted k.
Proof.
  induction 1 as [| a b l k Hab Hlk IH]; intros Hl; [constructor |].
  apply Forall_cons in Hl as [Ha Hl].
  constructor; [apply Hab, Ha | apply IH, Hl].
Qed.

Lemma evolves_all_consistent (l k : list CgroupInfo.t) :
  Forall2 evolves l k -> Forall paths_consistent l ->
  Forall paths_consistent k.
Proof.
  induction 1 as [| a b l k Hab Hlk IH]; intros Hl; [constructor |].
  apply Forall_cons in Hl as [Ha Hl].
  constructor; [apply Hab, Ha | apply IH, Hl].
Qed.

Lemma evolves_all_lookup (l k : list CgroupInfo.t) (i : nat)
  (a : CgroupInfo.t) :
  Forall2 evolves l k -> l !! i = Some a ->
  exists b, k !! i = Some b /\ evolves a b.
Proof. intros Hlk Ha. exact (Forall2_lookup_l _ _ _ _ _ Hlk Ha). Qed.

Lemma update_at_evolves (cg_infos : list CgroupInfo.t) (i : Z)
  (f : CgroupInfo.t -> CgroupInfo.t) :
  (forall info, cg_infos !! Z.to_nat i = Some info -> evolves info (f info)) ->
  ensures (update_at cg_infos i f) (Forall2 evolves cg_infos).
Proof.
  intros Hf. eapply ensures_weaken; [apply update_at_ensures |].
  intros out (info & Hinfo & ->).
  apply (evolves_insert _ _ info); [exact Hinfo | apply Hf, Hinfo].
Qed.

Lemma set_cgroup_path_evolves (path : list ascii) (info : CgroupInfo.t) :
  evolves info (set_cgroup_path path info).
Proof. unfold evolves, mounted, paths_consistent. simpl. tauto. Qed.

Lemma proc_cgroups_line_consistent (cg_infos : list CgroupInfo.t)
  (p : list ascii) :
  length cg_infos = 5%nat /\ Forall paths_consistent cg_infos ->
  returns (proc_cgroups_line cg_infos p)
    (fun out => length out = 5%nat /\ Forall paths_consistent out).
Proof.
  intros [Hlen Hcons]. unfold proc_cgroups_line.
  destruct (sscanf_cgroups p) as [[[name hierarchy_id] enabled] |];
    [| apply returns_Done; auto].
  destruct (controller_index name) as [i |] eqn:Hi;
    [| apply returns_Done; auto].
  pose proof (controller_index_range _ _ Hi) as Hrange.
  unfold CG_INFO_LENGTH in Hrange.
  eapply returns_weaken; [apply update_at_returns; lia |].
  intros out (old & Hold & ->). rewrite length_insert.
  split; [exact Hlen |]. apply Forall_insert; [exact Hcons |].
  exact (proj1 (Forall_lookup _ _) Hcons _ _ Hold).
Qed.

Lemma self_cgroup_token_evolves (cgroup_path : option nat)
  (buf : list ascii) (token : nat) (cg_infos : list CgroupInfo.t) :
  ensures (self_cgroup_token cgroup_path buf token cg_infos)
    (Forall2 evolves cg_infos).
Proof.
  unfold self_cgroup_token.
  destruct (controller_index _) as [i |];
    [| apply ensures_Done, evolves_all_refl].
  eapply ensures_bind; [intros path _; exact I |].
  intros path _. apply update_at_evolves.
  intros info _. apply set_cgroup_path_evolves.
Qed.

Lemma set_cgroup_path_each_evolves (n : nat) (i : Z) (buf : list ascii)
  (cgroup_path : option nat) (cg_infos : list CgroupInfo.t) :
  ensures (set_cgroup_path_each n i buf cgroup_path cg_infos)
    (Forall2 evolves cg_infos).
Proof.
  revert i cg_infos. induction n as [| n IH]; intros i cg_infos.
  - apply ensures_Done, evolves_all_refl.
  - cbn [set_cgroup_path_each].
    eapply ensures_bind; [intros path _; exact I |].
    intros path _.
    eapply ensures_bind;
      [apply update_at_evolves; intros info _;
       apply set_cgroup_path_evolves |].
    intros out Hout. eapply ensures_weaken; [apply IH |].
    intros out' Hout'. exact (evolves_all_trans _ _ _ Hout Hout').
Qed.

Lemma proc_self_cgroup_line_evolves (is_cgroupsV2 : bool)
  (cg_infos : list CgroupInfo.t) (buf : list ascii) :
  ensures (proc_self_cgroup_line is_cgroupsV2 cg_infos buf)
    (Forall2 evolves cg_infos).
Proof.
  unfold proc_self_cgroup_line.
  destruct (strsep buf _ _) as [[hierarchy_id_str buf1] p1].
  eapply ensures_bind; [intros text _; exact I |].
  intros text _.
  destruct (strsep buf1 _ _) as [[controllers buf2] p2].
  destruct (strsep buf2 _ _) as [[cgroup_path buf3] p3].
  destruct controllers as [controllers |];
    [| apply ensures_Done, evolves_all_refl].
  eapply (ensures_bind _ _ (fun r => Forall2 evolves cg_infos r.1)).
  - destruct is_cgroupsV2; cbn [negb];
      [apply ensures_Done, evolves_all_refl |].
    apply (for_each_token_ensures _ (Forall2 evolves cg_infos));
      [| apply evolves_all_refl].
    intros buf' token s Hs.
    eapply ensures_weaken; [apply self_cgroup_token_evolves |].
    intros out Hout. exact (evolves_all_trans _ _ _ Hs Hout).
  - intros [cg_infos1 buf4] Hstep. cbn [fst] in Hstep.
    destruct is_cgroupsV2; [| apply ensures_Done, Hstep].
    destruct (negb _); [apply ensures_Done, Hstep |].
    eapply ensures_weaken; [apply set_cgroup_path_each_evolves |].
    intros out Hout. exact (evolves_all_trans _ _ _ Hstep Hout).
Qed.

(** After [set_controller_paths] the controller is mounted. *)
Lemma set_controller_paths_mounts (cg_infos : list CgroupInfo.t)
  (controller : Z) (name mount_path root_path : list ascii)
  (is_read_only : bool) (info : CgroupInfo.t) :
  cg_infos !! Z.to_nat controller = Some info ->
  paths_consistent info ->
  Forall2 evolves cg_infos
    (set_controller_paths cg_infos controller name mount_path root_path
       is_read_only)
  /\ controller_has
       (set_controller_paths cg_infos controller name mount_path root_path
          is_read_only)
       controller mounted.
Proof.
  intros Hinfo Hcons. unfold set_controller_paths. rewrite Hinfo.
  assert (evolves info
            (CgroupInfo.assign_paths info mount_path root_path is_read_only)
          /\ mounted
               (CgroupInfo.assign_paths info mount_path root_path
                  is_read_only)) as [Hassign Hmounted].
  { unfold evolves, mounted, paths_consistent. simpl. eauto 10. }
  assert (Z.to_nat controller < length cg_infos)%nat as Hlt
    by (apply lookup_lt_Some in Hinfo; exact Hinfo).
  destruct (CgroupInfo._mount_path info) as [existing |] eqn:Hexisting.
  - case_bool_decide.
    + split; [exact (evolves_insert _ _ _ _ Hinfo Hassign) |].
      eexists. split; [apply list_lookup_insert_eq, Hlt | exact Hmounted].
    + split; [apply evolves_all_refl |].
      exists info. split; [exact Hinfo |]. unfold mounted.
      rewrite Hexisting. split; [eauto |].
      apply Hcons. rewrite Hexisting. eauto.
  - split; [exact (evolves_insert _ _ _ _ Hinfo Hassign) |].
    eexists. split; [apply list_lookup_insert_eq, Hlt | exact Hmounted].
Qed.

Lemma call_set_controller_paths_mounts (cg_infos : list CgroupInfo.t)
  (controller : Z) (name mount_path root_path : list ascii)
  (is_read_only : bool) :
  Forall paths_consistent cg_infos ->
  ensures (call_set_controller_paths cg_infos controller name mount_path
             root_path is_read_only)
    (fun out => Forall2 evolves cg_infos out
                /\ controller_has out controller mounted).
Proof.
  intros Hcons. unfold call_set_controller_paths.
  eapply ensures_bind; [apply info_at_ensures |].
  intros info Hinfo. apply ensures_Done.
  apply set_controller_paths_mounts with (info := info); [exact Hinfo |].
  exact (proj1 (Forall_lookup _ _) Hcons _ _ Hinfo).
Qed.

Lemma set_controller_paths_each_mounts (n : nat) (i : Z)
  (tmpmount tmproot : list ascii) (ro_opt : bool)
  (cg_infos : list CgroupInfo.t) :
  0 <= i -> Forall paths_consistent cg_infos ->
  ensures (set_controller_paths_each n i tmpmount tmproot ro_opt cg_infos)
    (fun out =>
       Forall2 evolves cg_infos out
       /\ forall j info, (Z.to_nat i <= j < Z.to_nat i + n)%nat ->
                         out !! j = Some info -> mounted info).
Proof.
  revert i cg_infos. induction n as [| n IH]; intros i cg_infos Hi Hcons.
  - apply ensures_Done. split; [apply evolves_all_refl | intros; lia].
  - cbn [set_controller_paths_each].
    eapply ensures_bind; [apply call_set_controller_paths_mounts, Hcons |].
    intros out [Hout (info & Hinfo & Hmounted)].
    eapply ensures_weaken;
      [apply IH; [lia | exact (evolves_all_consistent _ _ Hout Hcons)] |].
    intros out' [Hout' Hrest].
    split; [exact (evolves_all_trans _ _ _ Hout Hout') |].
    intros j info' Hj Hinfo'.
    destruct (decide (j = Z.to_nat i)) as [-> | Hne].
    + destruct (evolves_all_lookup _ _ _ _ Hout' Hinfo)
        as (info2 & Hinfo2 & Hev).
      rewrite Hinfo' in Hinfo2. injection Hinfo2 as <-.
      apply Hev, Hmounted.
    + apply (Hrest j); [lia | exact Hinfo'].
Qed.

Lemma set_data_complete_evolves (info : CgroupInfo.t) :
  mounted info -> evolves info (set_data_complete info).
Proof.
  unfold evolves, mounted, paths_consistent. simpl. tauto.
Qed.

Lemma mountinfo_token_evolves (tmpmount tmproot tmpcgroups : list ascii)
  (token : nat) (s : mount_state) :
  Forall paths_consistent s.1.1 ->
  ensures (mountinfo_token tmpmount tmproot tmpcgroups token s)
    (fun s' => Forall2 evolves s.1.1 s'.1.1).
Proof.
  destruct s as [[cg_infos any] mount_opts]. cbn [fst]. intros Hcons.
  unfold mountinfo_token.
  destruct (controller_index _) as [i |];
    [| apply ensures_Done, evolves_all_refl].
  eapply ensures_bind; [intros found _; exact I |].
  intros [ro_opt mount_opts'] _.
  eapply ensures_bind; [apply call_set_controller_paths_mounts, Hcons |].
  intros out [Hout (info & Hinfo & Hmounted)].
  eapply ensures_bind.
  - apply update_at_evolves. intros info' Hinfo'.
    rewrite Hinfo in Hinfo'. injection Hinfo' as <-.
    apply set_data_complete_evolves, Hmounted.
  - intros out' Hout'. apply ensures_Done. cbn [fst].
    exact (evolves_all_trans _ _ _ Hout Hout').
Qed.

(** A line of /proc/self/mountinfo: the controllers evolve, and all are
    mounted once the cgroup2 mount point is found. *)
Lemma proc_self_mountinfo_line_evolves (is_cgroupsV2 : bool)
  (s : mountinfo_state) (p : list ascii) :
  length s.1.1 = 5%nat ->
  Forall paths_consistent s.1.1 ->
  (s.1.2 = true -> Forall mounted s.1.1) ->
  ensures (proc_self_mountinfo_line is_cgroupsV2 s p)
    (fun s' => Forall2 evolves s.1.1 s'.1.1
               /\ (s'.1.2 = true -> Forall mounted s'.1.1)).
Proof.
  intros Hlen Hcons Hfound. unfold proc_self_mountinfo_line.
  eapply (ensures_bind _ _
            (fun s1 => Forall2 evolves s.1.1 s1.1.1
                       /\ (s1.1.2 = true -> Forall mounted s1.1.1))).
  - assert (ensures (Done s)
              (fun s1 => Forall2 evolves s.1.1 s1.1.1
                         /\ (s1.1.2 = true -> Forall mounted s1.1.1)))
      as Hsame.
    { apply ensures_Done. split; [apply evolves_all_refl | exact Hfound]. }
    destruct is_cgroupsV2; [| exact Hsame].
    destruct (sscanf_cgroup2_mount p)
      as [[[[tmproot tmpmount] mount_opts] tmp_fs_type] |]; [| exact Hsame].
    destruct (strcmp _ _ =? 0); [| exact Hsame].
    eapply ensures_bind; [intros found _; exact I |].
    intros found _.
    eapply ensures_bind;
      [apply set_controller_paths_each_mounts; [lia | exact Hcons] |].
    intros out [Hout Hall]. apply ensures_Done. cbn [fst snd].
    split; [exact Hout |]. intros _.
    apply Forall_lookup. intros j info Hinfo.
    apply (Hall j info); [| exact Hinfo].
    apply lookup_lt_Some in Hinfo.
    rewrite <- (Forall2_length _ _ _ Hout), Hlen in Hinfo.
    unfold CG_INFO_LENGTH. lia.
  - intros s1 [Hstep Hfound1].
    pose proof (evolves_all_consistent _ _ Hstep Hcons) as Hcons1.
    destruct (sscanf_cgroup_mount p)
      as [[[[[tmproot tmpmount] mount_opts] tmp_fs_type] tmpcgroups] |];
      [| apply ensures_Done; auto].
    destruct (negb _); [apply ensures_Done; auto |].
    eapply ensures_bind.
    + apply (for_each_token_ensures _
               (fun t : mount_state => Forall2 evolves s1.1.1 t.1.1)).
      * intros buf token t Ht.
        eapply ensures_weaken;
          [apply mountinfo_token_evolves;
           exact (evolves_all_consistent _ _ Ht Hcons1) |].
        intros t' Ht'. exact (evolves_all_trans _ _ _ Ht Ht').
      * apply evolves_all_refl.
    + intros [t buf'] Ht. cbn [fst] in Ht. apply ensures_Done. cbn [fst snd].
      split; [exact (evolves_all_trans _ _ _ Hstep Ht) |].
      intros Hf. exact (evolves_all_mounted _ _ Ht (Hfound1 Hf)).
Qed.

Lemma v1_verdict_Valid (a b c d e : CgroupInfo.t) (flags : Z)
  (out : list CgroupInfo.t) :
  v1_verdict [a; b; c; d; e] = Done (Valid flags out) ->
  flags = CGROUPS_V1 /\ out = [a; b; c; d; e]
  /\ CgroupInfo._data_complete a = true
  /\ CgroupInfo._data_complete b = true
  /\ CgroupInfo._data_complete c = true
  /\ CgroupInfo._data_complete d = true.
Proof.
  unfold v1_verdict. cbn [info_at run_bind]. simpl.
  destruct (CgroupInfo._data_complete d); [| discriminate].
  destruct (CgroupInfo._data_complete b); [| discriminate].
  destruct (CgroupInfo._data_complete a); [| discriminate].
  destruct (CgroupInfo._data_complete c); [| discriminate].
  simpl. intros [= <- <-]. auto 10.
Qed.

Lemma consistent_complete_mounted (info : CgroupInfo.t) :
  paths_consistent info -> CgroupInfo._data_complete info = true ->
  mounted info.
Proof. unfold paths_consistent, mounted. tauto. Qed.

(** X18. When [determine_type] answers [true] on an array of five
    controllers in which the paths are consistent, the array it leaves has
    the four required controllers enabled and mounted, and either the
    flags are CGROUPS_V2, the four have hierarchy id 0 and all five are
    mounted, or the flags are CGROUPS_V1, one of the four has a hierarchy
    id other than 0 and the data of the four is complete. *)
Theorem determine_type_valid (cg_infos : list CgroupInfo.t)
  (proc_cgroups proc_self_cgroup proc_self_mountinfo
     : option (list (list ascii)))
  (flags : Z) (out : list CgroupInfo.t) :
  length cg_infos = 5%nat ->
  Forall paths_consistent cg_infos ->
  determine_type cg_infos proc_cgroups proc_self_cgroup proc_self_mountinfo
  = Done (Valid flags out) ->
  length out = 5%nat
  /\ (forall idx, idx ∈ required_controller_indices ->
        controller_has out idx
          (fun info => CgroupInfo._enabled info = true /\ mounted info))
  /\ ((flags = CGROUPS_V2
       /\ Forall mounted out
       /\ forall idx, idx ∈ required_controller_indices ->
            controller_has out idx
              (fun info => CgroupInfo._hierarchy_id info = 0))
      \/ (flags = CGROUPS_V1
          /\ (exists idx, idx ∈ required_controller_indices
                /\ controller_has out idx
                     (fun info => CgroupInfo._hierarchy_id info <> 0))
          /\ forall idx, idx ∈ required_controller_indices ->
               controller_has out idx
                 (fun info => CgroupInfo._data_complete info = true))).
Proof.
  intros Hlen Hcons. unfold determine_type.
  destruct proc_cgroups as [cgroups |]; [| discriminate].
  destruct (for_each_line_returns proc_cgroups_line
              (fun out => length out = 5%nat /\ Forall paths_consistent out)
              cgroups cg_infos)
    as (cg1 & -> & Hlen1 & Hcons1).
  { intros s p _. apply proc_cgroups_line_consistent. }
  { split; assumption. }
  cbn [run_bind].
  destruct (five_elements _ Hlen1) as (a & b & c & d & e & ->).
  rewrite required_controllers_five. cbn [run_bind].
  destruct (CgroupInfo._enabled a && CgroupInfo._enabled b
            && CgroupInfo._enabled c && CgroupInfo._enabled d) eqn:Henabled;
    [| discriminate].
  cbn [negb]. apply andb_prop in Henabled as [Henabled Hd].
  apply andb_prop in Henabled as [Henabled Hc].
  apply andb_prop in Henabled as [Ha Hb].
  remember ((CgroupInfo._hierarchy_id a =? 0)
            && (CgroupInfo._hierarchy_id b =? 0)
            && (CgroupInfo._hierarchy_id c =? 0)
            && (CgroupInfo._hierarchy_id d =? 0)) as is_cgroupsV2 eqn:Hv2.
  destruct proc_self_cgroup as [cgroup |]; [| discriminate].
  destruct (for_each_line (proc_self_cgroup_line is_cgroupsV2)
              [a; b; c; d; e] cgroup) as [cg2 | |] eqn:Hloop2;
    [| discriminate | discriminate].
  assert (Forall2 evolves [a; b; c; d; e] cg2) as Hcg2.
  { refine (for_each_line_ensures _ (Forall2 evolves [a; b; c; d; e]) _ _ _
              (evolves_all_refl _) _ Hloop2).
    intros s p _ Hs.
    eapply ensures_weaken; [apply proc_self_cgroup_line_evolves |].
    intros s' Hs'. exact (evolves_all_trans _ _ _ Hs Hs'). }
  cbn [run_bind].
  destruct proc_self_mountinfo as [mntinfo |]; [| discriminate].
  destruct (for_each_line (proc_self_mountinfo_line is_cgroupsV2)
              (cg2, false, false) mntinfo)
    as [[[cg3 found] any] | |] eqn:Hloop3; [| discriminate | discriminate].
  assert (Forall2 evolves [a; b; c; d; e] cg3
          /\ (found = true -> Forall mounted cg3)) as [Hcg3 Hfound].
  { refine (for_each_line_ensures _
              (fun s : mountinfo_state =>
                 Forall2 evolves [a; b; c; d; e] s.1.1
                 /\ (s.1.2 = true -> Forall mounted s.1.1))
              _ _ _ _ _ Hloop3).
    - intros s p _ [Hs Hf].
      eapply ensures_weaken;
        [apply proc_self_mountinfo_line_evolves;
         [rewrite <- (Forall2_length _ _ _ Hs); reflexivity
         | exact (evolves_all_consistent _ _ Hs Hcons1)
         | exact Hf] |].
      intros s' [Hs' Hf']. split; [| exact Hf'].
      exact (evolves_all_trans _ _ _ Hs Hs').
    - split; [exact Hcg2 | discriminate]. }
  cbn [run_bind].
  destruct any; [| discriminate]. cbn [negb].
  pose proof (evolves_all_consistent _ _ Hcg3 Hcons1) as Hcons3.
  assert (length cg3 = 5%nat) as Hlen3
    by (rewrite <- (Forall2_length _ _ _ Hcg3); reflexivity).
  destruct (five_elements _ Hlen3) as (a' & b' & c' & d' & e' & ->).
  apply Forall2_cons in Hcg3 as [(Hha & Hea & Hma & _) Hcg3].
  apply Forall2_cons in Hcg3 as [(Hhb & Heb & Hmb & _) Hcg3].
  apply Forall2_cons in Hcg3 as [(Hhc & Hec & Hmc & _) Hcg3].
  apply Forall2_cons in Hcg3 as [(Hhd & Hed & Hmd & _) _].
  apply Forall_cons in Hcons3 as [Hca Hcons3].
  apply Forall_cons in Hcons3 as [Hcb Hcons3].
  apply Forall_cons in Hcons3 as [Hcc Hcons3].
  apply Forall_cons in Hcons3 as [Hcd _].
  rewrite Hha, Hhb, Hhc, Hhd in Hv2.
  rewrite Hea in Ha. rewrite Heb in Hb. rewrite Hec in Hc.
  rewrite Hed in Hd.
  destruct is_cgroupsV2.
  - destruct found; [| discriminate]. cbn [negb]. intros [= <- <-].
    specialize (Hfound eq_refl).
    pose proof Hfound as Hall.
    apply Forall_cons in Hall as [Hm1 Hall].
    apply Forall_cons in Hall as [Hm2 Hall].
    apply Forall_cons in Hall as [Hm3 Hall].
    apply Forall_cons in Hall as [Hm4 _].
    symmetry in Hv2. apply andb_prop in Hv2 as [Hv2 Hz4].
    apply andb_prop in Hv2 as [Hv2 Hz3].
    apply andb_prop in Hv2 as [Hz1 Hz2].
    apply Z.eqb_eq in Hz1, Hz2, Hz3, Hz4.
    split; [reflexivity |]. split.
    + intros idx Hidx.
      destruct (required_index idx Hidx) as [-> | [-> | [-> | ->]]];
        eexists; (split; [reflexivity | split; assumption]).
    + left. split; [reflexivity |]. split; [exact Hfound |].
      intros idx Hidx.
      destruct (required_index idx Hidx) as [-> | [-> | [-> | ->]]];
        eexists; (split; [reflexivity | assumption]).
  - intros Hverdict.
    apply v1_verdict_Valid in Hverdict
      as (-> & -> & Hda & Hdb & Hdc & Hdd).
    split; [reflexivity |]. split.
    + intros idx Hidx.
      destruct (required_index idx Hidx) as [-> | [-> | [-> | ->]]];
        eexists;
        (split; [reflexivity
                | split; [assumption
                         | apply consistent_complete_mounted; assumption]]).
    + right. split; [reflexivity |]. split.
      * symmetry in Hv2. rewrite !andb_false_iff in Hv2.
        unfold required_controller_indices, controller_has.
        destruct Hv2 as [[[Hz | Hz] | Hz] | Hz]; apply Z.eqb_neq in Hz.
        -- exists CPU_IDX. split; [set_solver | eauto].
        -- exists CPUSET_IDX. split; [set_solver | eauto].
        -- exists CPUACCT_IDX. split; [set_solver | eauto].
        -- exists MEMORY_IDX. split; [set_solver | eauto].
      * intros idx Hidx.
        destruct (required_index idx Hidx) as [-> | [-> | [-> | ->]]];
          eexists; (split; [reflexivity | assumption]).
Qed.

(** *** Controllers mounted together *)

(** The body of the loop over [tmpcgroups] for a token that names a
    controller without a mount path. *)
Lemma mountinfo_token_assigns (tmpmount tmproot buf : list ascii)
  (token : nat) (cg_infos : list CgroupInfo.t) (any : bool)
  (mount_opts mount_opts' : list ascii) (i : Z) (info : CgroupInfo.t)
  (ro_opt : bool) :
  controller_index (c_str (drop token buf)) = Some i ->
  cg_infos !! Z.to_nat i = Some info ->
  CgroupInfo._mount_path info = None ->
  find_ro_opt mount_opts = Some (ro_opt, mount_opts') ->
  mountinfo_token tmpmount tmproot buf token (cg_infos, any, mount_opts)
  = Done (<[Z.to_nat i :=
              set_data_complete
                (CgroupInfo.assign_paths info tmpmount tmproot ro_opt)]>
            cg_infos, true, mount_opts').
Proof.
  intros Hi Hinfo Hmount Hro. unfold mountinfo_token. rewrite Hi.
  pose proof (controller_index_range _ _ Hi) as Hrange.
  pose proof (lookup_lt_Some _ _ _ Hinfo) as Hlt.
  unfold call_find_ro_opt. rewrite Hro. cbn [run_bind].
  unfold call_set_controller_paths, update_at, info_at.
  rewrite bool_decide_eq_true_2 by lia. rewrite Hinfo. cbn [run_bind].
  unfold set_controller_paths. rewrite Hinfo, Hmount.
  rewrite list_lookup_insert_eq by exact Hlt. cbn [run_bind].
  rewrite list_insert_insert_eq. reflexivity.
Qed.

(** X19. A mount line of /proc/self/mountinfo that names two controllers
    ([tmpcgroups] is [t1,t2]), neither with a mount path yet: the first
    is read-only exactly when "ro" is among the mount options, the second
    exactly when "ro" is the first of them, for the first call of
    [find_ro_opt] has cut the buffer [mount_opts]. *)
Theorem comounted_controllers_read_only
  (tmpmount tmproot mount_opts t1 t2 : list ascii) (i1 i2 : Z)
  (cg_infos : list CgroupInfo.t) (any : bool) :
  NUL ∉ mount_opts ->
  NUL ∉ t1 -> ","%char ∉ t1 -> NUL ∉ t2 -> ","%char ∉ t2 ->
  controller_index t1 = Some i1 ->
  controller_index t2 = Some i2 ->
  i1 <> i2 ->
  controller_has cg_infos i1
    (fun info => CgroupInfo._mount_path info = None) ->
  controller_has cg_infos i2
    (fun info => CgroupInfo._mount_path info = None) ->
  exists (out : list CgroupInfo.t) (mount_opts' buf : list ascii),
    for_each_token (length (t1 ++ ","%char :: t2) + 2)
      (mountinfo_token tmpmount tmproot) (t1 ++ ","%char :: t2)
      (Some 0%nat) (lit ",") (cg_infos, any, mount_opts)
    = Done (out, true, mount_opts', buf)
    /\ controller_has out i1
         (fun info =>
            CgroupInfo._is_ro info = true
            <-> comma_separated_option (lit "ro") mount_opts)
    /\ controller_has out i2
         (fun info =>
            CgroupInfo._is_ro info
            = bool_decide (first_option mount_opts = lit "ro")).
Proof.
  intros Hnul Hn1 Hc1 Hn2 Hc2 Hi1 Hi2 Hne (info1 & Hinfo1 & Hm1)
    (info2 & Hinfo2 & Hm2).
  pose proof (controller_index_range _ _ Hi1) as Hr1.
  pose proof (controller_index_range _ _ Hi2) as Hr2.
  pose proof (lookup_lt_Some _ _ _ Hinfo1) as Hlt1.
  destruct (find_ro_opt_loop_spec (length mount_opts + 2) [] mount_opts Hnul)
    as (b & cut & Hfirst & Hlen & Hstr & Hb); [lia |].
  change (find_ro_opt_loop (length mount_opts + 2) ([] ++ mount_opts)
            (Some (length (@nil ascii))))
    with (find_ro_opt mount_opts) in Hfirst.
  cbn [app] in Hfirst.
  assert (find_ro_opt cut
          = Some (bool_decide (first_option mount_opts = lit "ro"), cut))
    as Hsecond.
  { rewrite <- Hstr. apply find_ro_opt_single.
    rewrite Hstr. apply (strcspn_split mount_opts Hnul). }
  replace (length (t1 ++ ","%char :: t2) + 2)%nat
    with (S (S (S (length t1 + length t2))))
    by (rewrite length_app; cbn [length]; lia).
  cbn [for_each_token].
  pose proof (strsep_comma [] t1 t2 Hn1 Hc1) as Hsep1.
  cbn [app length] in Hsep1. rewrite Hsep1.
  rewrite (mountinfo_token_assigns _ _ _ _ _ _ _ cut i1 info1 b);
    [| rewrite drop_0, c_str_app_NUL by exact Hn1; exact Hi1
     | exact Hinfo1 | exact Hm1 | exact Hfirst].
  cbn [run_bind].
  pose proof (strsep_last (t1 ++ [NUL]) t2 Hn2 Hc2) as Hsep2.
  rewrite <- app_assoc in Hsep2. cbn [app] in Hsep2.
  rewrite length_app in Hsep2. cbn [length] in Hsep2.
  replace (length t1 + 1)%nat with (S (length t1)) in Hsep2 by lia.
  cbn [Nat.add]. rewrite Hsep2.
  assert (drop (S (length t1)) (t1 ++ NUL :: t2) = t2) as Hdrop.
  { change (t1 ++ NUL :: t2) with (t1 ++ [NUL] ++ t2).
    rewrite app_assoc.
    replace (S (length t1)) with (length (t1 ++ [NUL]))
      by (rewrite length_app; cbn [length]; lia).
    apply drop_app_length. }
  rewrite (mountinfo_token_assigns _ _ _ _ _ _ _ cut i2 info2
             (bool_decide (first_option mount_opts = lit "ro")));
    [| rewrite Hdrop, c_str_id by exact Hn2; exact Hi2
     | rewrite list_lookup_insert_ne by lia; exact Hinfo2
     | exact Hm2 | exact Hsecond].
  cbn [run_bind]. rewrite strsep_NULL.
  eexists _, _, _. split; [reflexivity |]. split.
  - eexists. split.
    + rewrite list_lookup_insert_ne by lia.
      apply list_lookup_insert_eq, Hlt1.
    + simpl. exact Hb.
  - eexists. split.
    + apply list_lookup_insert_eq. rewrite length_insert.
      exact (lookup_lt_Some _ _ _ Hinfo2).
    + reflexivity.
Qed.

End determine_type_properties.

Lemma determine_type_requires_enabled_witness :
  @determine_type example_flags example_scanners example_cg_infos
    (Some (take 4 example_proc_cgroups)) None None
  = Done (Invalid 6).
Proof.
  apply (@determine_type_requires_enabled example_flags example_scanners
           example_cg_infos (take 4 example_proc_cgroups) None None
           MEMORY_IDX).
  - reflexivity.
  - unfold required_controller_indices. set_solver.
  - eexists. split; reflexivity.
  - intros p name hierarchy_id Hp Hscan.
    change (take 4 example_proc_cgroups)
      with [lit "#subsys_name hierarchy num_cgroups enabled";
            lit "cpuset 2 1 1"; lit "cpu 3 1 1"; lit "cpuacct 3 1 1"] in Hp.
    rewrite !elem_of_cons, elem_of_nil in Hp.
    destruct Hp as [-> | [-> | [-> | [-> | []]]]]; vm_compute in Hscan;
      try discriminate; injection Hscan as <- <-; vm_compute; discriminate.
Defined.

Lemma determine_type_returns_witness :
  exists v,
    @determine_type example_flags example_scanners example_cg_infos
      (Some example_proc_cgroups) (Some example_proc_self_cgroup)
      (Some example_proc_self_mountinfo)
    = Done v.
Proof.
  apply (@determine_type_returns example_flags example_scanners).
  - reflexivity.
  - intros lines p [= <-] Hp. revert Hp.
    unfold example_proc_self_cgroup.
    rewrite !elem_of_cons, elem_of_nil.
    intros [-> | [-> | [-> | [-> | []]]]]; vm_compute; lia.
Defined.

Lemma determine_type_valid_witness :
  length example_v1_infos = 5%nat
  /\ (forall idx, idx ∈ required_controller_indices ->
        controller_has example_v1_infos idx
          (fun info => CgroupInfo._enabled info = true /\ mounted info))
  /\ ((1 = 2
       /\ Forall mounted example_v1_infos
       /\ forall idx, idx ∈ required_controller_indices ->
            controller_has example_v1_infos idx
              (fun info => CgroupInfo._hierarchy_id info = 0))
      \/ (1 = 1
          /\ (exists idx, idx ∈ required_controller_indices
                /\ controller_has example_v1_infos idx
                     (fun info => CgroupInfo._hierarchy_id info <> 0))
          /\ forall idx, idx ∈ required_controller_indices ->
               controller_has example_v1_infos idx
                 (fun info => CgroupInfo._data_complete info = true))).
Proof.
  apply (@determine_type_valid example_flags example_scanners
           example_cg_infos (Some example_proc_cgroups)
           (Some example_proc_self_cgroup)
           (Some example_proc_self_mountinfo) 1 example_v1_infos).
  - reflexivity.
  - unfold example_cg_infos. apply Forall_replicate.
    unfold paths_consistent. simpl. split; [intros [x Hx] |]; discriminate.
  - vm_compute. reflexivity.
Defined.

Lemma comounted_controllers_read_only_witness :
  exists (out : list CgroupInfo.t) (mount_opts' buf : list ascii),
    for_each_token (length (lit "cpu" ++ ","%char :: lit "cpuacct") + 2)
      (mountinfo_token (lit "/sys/fs/cgroup/cpu,cpuacct") (lit "/"))
      (lit "cpu" ++ ","%char :: lit "cpuacct") (Some 0%nat) (lit ",")
      (example_cg_infos, false, lit "rw,nosuid,ro")
    = Done (out, true, mount_opts', buf)
    /\ controller_has out CPU_IDX
         (fun info =>
            CgroupInfo._is_ro info = true
            <-> comma_separated_option (lit "ro") (lit "rw,nosuid,ro"))
    /\ controller_has out CPUACCT_IDX
         (fun info =>
            CgroupInfo._is_ro info
            = bool_decide (first_option (lit "rw,nosuid,ro") = lit "ro")).
Proof.
  apply (comounted_controllers_read_only (lit "/sys/fs/cgroup/cpu,cpuacct")
           (lit "/") (lit "rw,nosuid,ro") (lit "cpu") (lit "cpuacct")
           CPU_IDX CPUACCT_IDX example_cg_infos false).
  - apply (bool_decide_unpack _). vm_compute. exact I.
  - apply (bool_decide_unpack _). vm_compute. exact I.
  - apply (bool_decide_unpack _). vm_compute. exact I.
  - apply (bool_decide_unpack _). vm_compute. exact I.
  - apply (bool_decide_unpack _). vm_compute. exact I.
  - reflexivity.
  - reflexivity.
  - discriminate.
  - eexists. split; reflexivity.
  - eexists. split; reflexivity.
Defined.

(** * Properties of the parallel mark bitmap *)

Section mark_bitmap.
Context `{Globals} `{BitMapGlobals}.
Import ParMarkBitMap.

(** X9.  Bits map to words and back without loss: for a shift that is not
    negative and a number of bits whose words fit in [size_t],
    [words_to_bits (bits_to_words bits)] is [bits]. *)
Theorem words_to_bits_to_words (bits : idx_t) :
  0 <= obj_granularity_shift ->
  0 <= bits ->
  bits * 2 ^ obj_granularity_shift < 2 ^ size_t_bits ->
  words_to_bits (bits_to_words bits) = bits.
Proof.
  intros Hshift Hbits Hfits. unfold words_to_bits, bits_to_words.
  rewrite Z.shiftl_mul_pow2 by exact Hshift.
  assert (0 < 2 ^ obj_granularity_shift) by (apply Z.pow_pos_nonneg; lia).
  rewrite Z.mod_small by nia.
  rewrite Z.shiftr_div_pow2 by exact Hshift.
  apply Z.div_mul. lia.
Qed.

(** X10.  Words map to bits and back rounded down to the granule of
    [2 ^ obj_granularity_shift] words: the result never exceeds the number
    of words, falls short of it by less than a granule, and is equal to it
    exactly for a multiple of the granule. *)
Theorem bits_to_words_to_bits (words : Z) :
  0 <= obj_granularity_shift ->
  0 <= words < 2 ^ size_t_bits ->
  bits_to_words (words_to_bits words)
  = words - words mod 2 ^ obj_granularity_shift
  /\ words - 2 ^ obj_granularity_shift
     < bits_to_words (words_to_bits words) <= words
  /\ (bits_to_words (words_to_bits words) = words
      <-> words mod 2 ^ obj_granularity_shift = 0).
Proof.
  intros Hshift Hwords. unfold words_to_bits, bits_to_words.
  assert (Hpos : 0 < 2 ^ obj_granularity_shift)
    by (apply Z.pow_pos_nonneg; lia).
  rewrite Z.shiftr_div_pow2, Z.shiftl_mul_pow2 by exact Hshift.
  assert (Hne : 2 ^ obj_granularity_shift <> 0) by lia.
  pose proof (Z.div_mod words (2 ^ obj_granularity_shift) Hne) as Hdm.
  pose proof (Z.mod_pos_bound words (2 ^ obj_granularity_shift) Hpos) as Hm.
  rewrite (Z.mul_comm (words / 2 ^ obj_granularity_shift)).
  assert (Hdown : 0 <= 2 ^ obj_granularity_shift
                       * (words / 2 ^ obj_granularity_shift)).
  { apply Z.mul_nonneg_nonneg; [lia | apply Z.div_pos; lia]. }
  remember (2 ^ obj_granularity_shift * (words / 2 ^ obj_granularity_shift))
    as down eqn:Hd.
  remember (words mod 2 ^ obj_granularity_shift) as rest eqn:Hrest.
  clear Hd Hrest. rewrite Z.mod_small by lia.
  split; [lia |]. split; lia.
Qed.

Lemma bits_to_words_small (bits : idx_t) :
  0 <= obj_granularity_shift ->
  0 <= bits ->
  bits * 2 ^ obj_granularity_shift < 2 ^ size_t_bits ->
  bits_to_words bits = bits * 2 ^ obj_granularity_shift.
Proof.
  intros Hshift Hbits Hfits. unfold bits_to_words.
  rewrite Z.shiftl_mul_pow2 by exact Hshift.
  assert (0 < 2 ^ obj_granularity_shift) by (apply Z.pow_pos_nonneg; lia).
  apply Z.mod_small. nia.
Qed.

Lemma words_to_bits_div (words : Z) :
  0 <= obj_granularity_shift ->
  words_to_bits words = words / 2 ^ obj_granularity_shift.
Proof. intros Hshift. apply Z.shiftr_div_pow2, Hshift. Qed.

(** The bit of a number of words, taken back to words, is the number of
    words rounded down to the granule. *)
Lemma bits_to_words_of_words (words : Z) :
  0 <= obj_granularity_shift ->
  0 <= words < 2 ^ size_t_bits ->
  0 <= words_to_bits words
  /\ bits_to_words (words_to_bits words)
     = words - words mod 2 ^ obj_granularity_shift
  /\ 0 <= words mod 2 ^ obj_granularity_shift.
Proof.
  intros Hshift Hwords.
  assert (Hpos : 0 < 2 ^ obj_granularity_shift)
    by (apply Z.pow_pos_nonneg; lia).
  assert (Hne : 2 ^ obj_granularity_shift <> 0) by lia.
  pose proof (Z.div_mod words (2 ^ obj_granularity_shift) Hne) as Hdm.
  pose proof (Z.mod_pos_bound words (2 ^ obj_granularity_shift) Hpos) as Hm.
  rewrite words_to_bits_div by exact Hshift.
  assert (Hq : 0 <= words / 2 ^ obj_granularity_shift)
    by (apply Z.div_pos; lia).
  assert (Hdown : 0 <= 2 ^ obj_granularity_shift
                       * (words / 2 ^ obj_granularity_shift))
    by (apply Z.mul_nonneg_nonneg; lia).
  split; [exact Hq |]. split; [| lia].
  rewrite bits_to_words_small; [| exact Hshift | exact Hq |].
  - rewrite Z.mul_comm. lia.
  - rewrite Z.mul_comm. lia.
Qed.




(** X12.  [find_obj_beg] on addresses stays inside the range it is given:
    although the bitmap is searched up to the aligned end, which may lie
    beyond the bit of [end], the address returned is never above [end] and
    never below the region start; and a bit found before the bit of [end]
    is returned as its address. *)
Theorem find_obj_beg_within
  (find_first_set_bit_aligned_right : idx_t -> idx_t -> idx_t)
  (bm : ParMarkBitMap.t) (beg end_ : HeapWord_ptr) :
  0 <= obj_granularity_shift ->
  region_start bm <= end_ ->
  end_ - region_start bm < 2 ^ size_t_bits ->
  0 <= find_first_set_bit_aligned_right (addr_to_bit bm beg)
         (align_range_end (addr_to_bit bm end_)) ->
  region_start bm
  <= find_obj_beg find_first_set_bit_aligned_right bm beg end_ <= end_
  /\ (find_first_set_bit_aligned_right (addr_to_bit bm beg)
        (align_range_end (addr_to_bit bm end_)) < addr_to_bit bm end_ ->
      find_obj_beg find_first_set_bit_aligned_right bm beg end_
      = bit_to_addr bm
          (find_first_set_bit_aligned_right (addr_to_bit bm beg)
             (align_range_end (addr_to_bit bm end_)))).
Proof.
  intros Hshift Hstart Hfits Hfound. unfold find_obj_beg.
  set (found := find_first_set_bit_aligned_right _ _) in *.
  assert (Hpos : 0 < 2 ^ obj_granularity_shift)
    by (apply Z.pow_pos_nonneg; lia).
  destruct (bits_to_words_of_words (end_ - region_start bm) Hshift)
    as (Hend_bit & Hend_words & Hmod); [lia |].
  fold (pointer_delta end_ (region_start bm)) in Hend_bit, Hend_words.
  fold (addr_to_bit bm end_) in Hend_bit, Hend_words.
  unfold pointer_delta in Hend_words.
  assert (Hend_small :
    addr_to_bit bm end_ * 2 ^ obj_granularity_shift < 2 ^ size_t_bits).
  { unfold addr_to_bit, pointer_delta.
    rewrite words_to_bits_div by exact Hshift.
    assert (Hne : 2 ^ obj_granularity_shift <> 0) by lia.
    pose proof (Z.div_mod (end_ - region_start bm)
                  (2 ^ obj_granularity_shift) Hne) as Hdm.
    rewrite Z.mul_comm. lia. }
  rewrite bits_to_words_small in Hend_words by assumption.
  assert (Hres : 0 <= MIN2 found (addr_to_bit bm end_) <= addr_to_bit bm end_).
  { unfold MIN2. destruct (Z.ltb_spec found (addr_to_bit bm end_)); lia. }
  assert (Hres_small :
    MIN2 found (addr_to_bit bm end_) * 2 ^ obj_granularity_shift
    <= addr_to_bit bm end_ * 2 ^ obj_granularity_shift) by nia.
  split.
  - assert (Hlow : 0 <= MIN2 found (addr_to_bit bm end_)
                        * 2 ^ obj_granularity_shift)
      by (apply Z.mul_nonneg_nonneg; lia).
    unfold bit_to_addr.
    rewrite bits_to_words_small; [| exact Hshift | lia | lia].
    lia.
  - intros Hlt. unfold MIN2.
    destruct (Z.ltb_spec found (addr_to_bit bm end_)); [reflexivity | lia].
Qed.
End mark_bitmap.


Lemma find_obj_beg_within_witness :
  4096
  <= @ParMarkBitMap.find_obj_beg example_globals example_bitmap_globals
       (fun beg end_ => end_) (ParMarkBitMap.mk 4096 1024) 4100 4120
  <= 4120
  /\ (@ParMarkBitMap.align_range_end example_bitmap_globals
        (@ParMarkBitMap.addr_to_bit example_bitmap_globals (ParMarkBitMap.mk 4096 1024) 4120)
      < @ParMarkBitMap.addr_to_bit example_bitmap_globals (ParMarkBitMap.mk 4096 1024) 4120 ->
      @ParMarkBitMap.find_obj_beg example_globals example_bitmap_globals
        (fun beg end_ => end_) (ParMarkBitMap.mk 4096 1024) 4100 4120
      = @ParMarkBitMap.bit_to_addr example_globals example_bitmap_globals
          (ParMarkBitMap.mk 4096 1024)
          (@ParMarkBitMap.align_range_end example_bitmap_globals
             (@ParMarkBitMap.addr_to_bit example_bitmap_globals
                (ParMarkBitMap.mk 4096 1024) 4120))).
Proof.
  apply (@find_obj_beg_within example_globals example_bitmap_globals
           (fun beg end_ => end_) (ParMarkBitMap.mk 4096 1024) 4100 4120).
  - simpl. lia.
  - simpl. lia.
  - simpl. lia.
  - vm_compute. discriminate.
Defined.

Lemma words_to_bits_to_words_witness :
  @ParMarkBitMap.words_to_bits example_bitmap_globals
    (@ParMarkBitMap.bits_to_words example_globals example_bitmap_globals 1000)
  = 1000.
Proof.
  apply (@words_to_bits_to_words example_globals example_bitmap_globals 1000).
  - simpl. lia.
  - lia.
  - simpl. lia.
Defined.

Lemma bits_to_words_to_bits_witness :
  @ParMarkBitMap.bits_to_words example_globals example_bitmap_globals
    (@ParMarkBitMap.words_to_bits example_bitmap_globals 1001)
  = 1001 - 1001 mod 2 ^ 1
  /\ 1001 - 2 ^ 1
     < @ParMarkBitMap.bits_to_words example_globals example_bitmap_globals
         (@ParMarkBitMap.words_to_bits example_bitmap_globals 1001)
     <= 1001
  /\ (@ParMarkBitMap.bits_to_words example_globals example_bitmap_globals
        (@ParMarkBitMap.words_to_bits example_bitmap_globals 1001)
      = 1001
      <-> 1001 mod 2 ^ 1 = 0).
Proof.
  apply (@bits_to_words_to_bits example_globals example_bitmap_globals 1001).
  - simpl. lia.
  - simpl. lia.
Defined.

(** * Further properties of VMATree *)

(** X13.  [AddressComparator::cmp] is a consistent order on positions: it
    returns 0 exactly on equal positions, swapping the arguments swaps -1
    and 1, and "less" is transitive. *)
Theorem cmp_consistent (a b c : position) :
  (AddressComparator.cmp a b = Returned 0 <-> a = b)
  /\ (AddressComparator.cmp a b = Returned (-1)
      <-> AddressComparator.cmp b a = Returned 1)
  /\ (AddressComparator.cmp a b = Returned (-1) ->
      AddressComparator.cmp b c = Returned (-1) ->
      AddressComparator.cmp a c = Returned (-1)).
Proof.
  assert (Hlt : forall x y : position,
             AddressComparator.cmp x y = Returned (-1) <-> x < y).
  { intros x y. unfold AddressComparator.cmp.
    destruct (Z.ltb_spec x y); [tauto |].
    destruct (Z.eqb_spec x y); [split; [discriminate | lia] |].
    destruct (Z.gtb_spec x y); split; (discriminate || lia). }
  assert (Hgt : forall x y : position,
             AddressComparator.cmp x y = Returned 1 <-> y < x).
  { intros x y. unfold AddressComparator.cmp.
    destruct (Z.ltb_spec x y); [split; [discriminate | lia] |].
    destruct (Z.eqb_spec x y); [split; [discriminate | lia] |].
    destruct (Z.gtb_spec x y); [split; [lia | reflexivity] | lia]. }
  split; [| split].
  - unfold AddressComparator.cmp.
    destruct (Z.ltb_spec a b); [split; [discriminate | lia] |].
    destruct (Z.eqb_spec a b); [tauto |].
    destruct (Z.gtb_spec a b); split; (discriminate || lia || contradiction).
  - rewrite Hlt, Hgt. reflexivity.
  - rewrite !Hlt. lia.
Qed.

(** X14.  Being a no-op is an equivalence on interval states: a change
    from a state to itself is a no-op, a change is a no-op exactly when the
    opposite change is one, and two no-op changes in a row make a no-op
    change. *)
Theorem is_noop_equivalence :
  (forall s : IntervalState.t,
      IntervalChange.is_noop (IntervalChange.mk s s) = true)
  /\ (forall s1 s2 : IntervalState.t,
         IntervalChange.is_noop (IntervalChange.mk s1 s2)
         = IntervalChange.is_noop (IntervalChange.mk s2 s1))
  /\ (forall s1 s2 s3 : IntervalState.t,
         IntervalChange.is_noop (IntervalChange.mk s1 s2) = true ->
         IntervalChange.is_noop (IntervalChange.mk s2 s3) = true ->
         IntervalChange.is_noop (IntervalChange.mk s1 s3) = true).
Proof.
  split; [| split].
  - intros s. apply same_state_refl.
  - intros s1 s2.
    destruct (IntervalChange.is_noop (IntervalChange.mk s1 s2)) eqn:H12;
      destruct (IntervalChange.is_noop (IntervalChange.mk s2 s1)) eqn:H21;
      try reflexivity.
    + apply same_state_sym in H12. unfold VMATree.same_state in H12.
      congruence.
    + apply same_state_sym in H21. unfold VMATree.same_state in H21.
      congruence.
  - intros s1 s2 s3. apply same_state_trans.
Qed.

(** X15.  For a start and a size that are positions, the wrappers pass a
    range that ends at or after its start exactly when [from + sz] does not
    overflow [size_t]; the range then has the length [sz], and a size of
    zero gives the empty range from [from] to [from]. *)
Theorem wrappers_range_length `{Globals} {R : Type}
  (register_mapping : position -> position -> StateType.t -> Metadata.t -> R)
  (from sz : position) (metadata : Metadata.t) :
  0 <= from < 2 ^ size_t_bits ->
  0 <= sz < 2 ^ size_t_bits ->
  exists end_ : position,
    VMATree.reserve_mapping register_mapping from sz metadata
    = register_mapping from end_ StateType.Reserved metadata
    /\ VMATree.commit_mapping register_mapping from sz metadata
       = register_mapping from end_ StateType.Committed metadata
    /\ VMATree.release_mapping register_mapping from sz
       = register_mapping from end_ StateType.Released Metadata.default
    /\ (from <= end_ <-> from + sz < 2 ^ size_t_bits)
    /\ (from + sz < 2 ^ size_t_bits -> end_ - from = sz)
    /\ (sz = 0 -> end_ = from).
Proof.
  intros Hfrom Hsz. exists (size_t_add from sz).
  split; [reflexivity |]. split; [reflexivity |]. split; [reflexivity |].
  unfold size_t_add.
  destruct (Z.lt_ge_cases (from + sz) (2 ^ size_t_bits)) as [Hfits | Hover].
  - rewrite Z.mod_small by lia. repeat split; intros; lia.
  - replace (from + sz) with (from + sz - 2 ^ size_t_bits
                              + 1 * 2 ^ size_t_bits) by lia.
    rewrite Z.mod_add by lia. rewrite Z.mod_small by lia.
    repeat split; intros; lia.
Qed.

Lemma wrappers_range_length_witness :
  exists end_ : position,
    @VMATree.reserve_mapping example_globals _ record_call 4096 0 example_A
    = record_call 4096 end_ StateType.Reserved example_A
    /\ @VMATree.commit_mapping example_globals _ record_call 4096 0 example_A
       = record_call 4096 end_ StateType.Committed example_A
    /\ @VMATree.release_mapping example_globals _ record_call 4096 0
       = record_call 4096 end_ StateType.Released
           (@Metadata.default example_globals)
    /\ (4096 <= end_ <-> 4096 + 0 < 2 ^ 64)
    /\ (4096 + 0 < 2 ^ 64 -> end_ - 4096 = 0)
    /\ (0 = 0 -> end_ = 4096).
Proof.
  apply (@wrappers_range_length example_globals _ record_call 4096 0
           example_A).
  - simpl. lia.
  - simpl. lia.
Defined.
